(** * Symbolic-to-numeric code generation for chemical kinetics

    A shallow embedding of the helper library of the tutorial, as the
    notebooks load it:
    - [scipy2017codegen/symbolic_constr.py]  ([prod], [mk_exprs_symbs]),
    - [scipy2017codegen/odesys_vode.py]      ([VODEsys.integrate_vode]),
    - [scipy2017codegen/odesys_cython.py]    ([CythonODEsys.setup]),
    - [scipy2017codegen/odesys_diffusion.py] ([MOLsys]),
    followed by the properties of these functions.

    SymPy expressions are terms, compared by their values in an arbitrary
    commutative ring; floating-point numbers are an abstract type; the
    solver of SciPy, the readers of SymPy and the build of Cython are
    parameters; code that raises returns in [option] or [result]. *)

From Stdlib Require Import ZArith Ascii Ring_theory InitialRing Ring.
From stdpp Require Import gmap strings list fin_maps pretty.

Local Open Scope Z_scope.

(** ** SymPy expressions

    The fragment of SymPy that the library builds: symbols, integer
    constants, sums, products and powers with a numeric exponent.  SymPy
    keeps every expression in a canonical form; the embedding keeps the term
    as the Python operators build it and compares two expressions by their
    value, in every commutative ring and under every valuation of the
    symbols. *)

(** The assumptions of a symbol, up to SymPy's equality of symbols: two
    symbols are the same symbol when they have the same name and the same
    assumptions.  The code makes symbols without assumptions ([sym.S],
    [sym.Symbol]) and symbols that are real and not negative
    ([sym.symbols(names, real=True, nonnegative=True)]); any other set of
    assumptions has a key of its own. *)
Inductive assumptions : Type :=
  | no_assumptions
  | real_nonnegative
  | other_assumptions (key : positive).

#[export] Instance assumptions_eq_dec : EqDecision assumptions.
Proof. solve_decision. Defined.

#[export] Instance assumptions_countable : Countable assumptions.
Proof.
  refine (inj_countable'
            (λ a, match a with
                  | no_assumptions => inl false
                  | real_nonnegative => inl true
                  | other_assumptions key => inr key
                  end)
            (λ x, match x with
                  | inl false => no_assumptions
                  | inl true => real_nonnegative
                  | inr key => other_assumptions key
                  end) _).
  by intros [].
Defined.

Inductive expr : Type :=
  | Symbol (name : string) (a : assumptions)
  | Integer (z : Z)
  | Add (a b : expr)
  | Mul (a b : expr)
  | Pow (b : expr) (p : nat).

#[export] Instance expr_eq_dec : EqDecision expr.
Proof. solve_decision. Defined.

(** A symbol as a key: its name, which is what [str] prints, and its
    assumptions. *)
Abbreviation symbol := (string * assumptions)%type.

(** [expr.free_symbols], as a list. *)
Fixpoint free_symbols (e : expr) : list symbol :=
  match e with
  | Symbol s a => [(s, a)]
  | Integer _ => []
  | Add a b | Mul a b => free_symbols a ++ free_symbols b
  | Pow b _ => free_symbols b
  end.

(** The coefficient domain in which expressions take their values. *)
Class CRing (R : Type) : Type := {
  rO : R;
  rI : R;
  radd : R → R → R;
  rmul : R → R → R;
  rsub : R → R → R;
  ropp : R → R;
  Rth : ring_theory rO rI radd rmul rsub ropp (@eq R)
}.

#[export] Instance Z_CRing : CRing Z :=
  {| rO := 0; rI := 1; radd := Z.add; rmul := Z.mul; rsub := Z.sub;
     ropp := Z.opp; Rth := Zth |}.

Section Denotation.
Context `{CR : CRing R}.

(** The image of a Python integer. *)
Definition of_Z (z : Z) : R := gen_phiZ rO rI radd rmul ropp z.

Fixpoint rpow (x : R) (n : nat) : R :=
  match n with
  | O => rI
  | S n => rmul x (rpow x n)
  end.

(** The value of an expression under a valuation of the symbols. *)
Fixpoint evals (val : symbol → R) (e : expr) : R :=
  match e with
  | Symbol s a => val (s, a)
  | Integer z => of_Z z
  | Add a b => radd (evals val a) (evals val b)
  | Mul a b => rmul (evals val a) (evals val b)
  | Pow b p => rpow (evals val b) p
  end.

(** The value under a valuation of the names, which gives the symbols of
    one name the same value. *)
Definition eval (env : string → R) (e : expr) : R :=
  evals (λ s, env s.1) e.

(** The value of the text of an expression in a scope that binds only
    some names; the text of a symbol is its name, and a name that is not
    bound raises ([NameError]). *)
Fixpoint eval_opt (scope : string → option R) (e : expr) : option R :=
  match e with
  | Symbol s _ => scope s
  | Integer z => Some (of_Z z)
  | Add a b => x ← eval_opt scope a; y ← eval_opt scope b; Some (radd x y)
  | Mul a b => x ← eval_opt scope a; y ← eval_opt scope b; Some (rmul x y)
  | Pow b p => x ← eval_opt scope b; Some (rpow x p)
  end.

(** Sum and product of a list of ring elements. *)
Definition rsum (l : list R) : R := foldr radd rO l.
Definition rprod (l : list R) : R := foldr rmul rI l.
End Denotation.

(** ** Raising code: a left fold in the [option] monad

    A Python [for] loop whose body may raise: the first failure ends it. *)

Fixpoint foldlM {A B} (step : B → A → option B) (b : B) (l : list A)
    : option B :=
  match l with
  | [] => Some b
  | x :: l => b' ← step b x; foldlM step b' l
  end.

(** ** [symbolic_constr.py] *)

Module SymbolicConstr.

(** What [sym.S(coeff)] makes of a string: an expression; an object that
    is no expression (a list, a tuple, a truth value, a relation), on which
    the arithmetic of the function is not modelled; or the exception
    [SympifyError], for a string that is no Python expression or that uses
    a reserved word.  A subexpression that the fragment lacks, such as a
    float, a constant or the application of a function, stands in the
    expression as an atom, a symbol with assumptions of its own. *)
Inductive parsed : Type :=
  | Parsed (e : expr)
  | NoExpression
  | SympifyError.

#[export] Instance parsed_eq_dec : EqDecision parsed.
Proof. solve_decision. Defined.

(** What [sym.symbols(name, real=True, nonnegative=True)] makes of one
    name: a symbol; a tuple of symbols, for a name with a comma, a colon or
    white space, which [sym.symbols] reads as a list or a range of names;
    or the exception [ValueError], for a name that holds no symbol. *)
Inductive named : Type :=
  | Single (e : expr)
  | Several
  | Invalid.

#[export] Instance named_eq_dec : EqDecision named.
Proof. solve_decision. Defined.

(** The two readers of SymPy, which is not part of the repository. *)
Class SymPy : Type := {
  sympify : string → parsed;
  symbols_of : string → named
}.

(** A reaction [(coeff, r_stoich, net_stoich)]: the string of the rate
    constant, the dict of reactant multiplicities and the dict of net
    stoichiometric changes. *)
Record reaction : Type := Rxn {
  coeff : string;
  r_stoich : gmap string nat;
  net_stoich : gmap string Z
}.

(** [reduce(mul, seq) if seq else 1] *)
Definition prod (seq : list expr) : expr :=
  match seq with
  | [] => Integer 1
  | x :: xs => foldl Mul x xs
  end.

(** [dict(zip(names, symbs))]: a later pair overwrites an earlier one. *)
Definition dict_zip {V} (names : list string) (symbs : list V)
    : gmap string V :=
  foldl (λ m kv, <[kv.1 := kv.2]> m) ∅ (zip names symbs).

(** [{n: 0 for n in names}] *)
Definition zeros (names : list string) : gmap string expr :=
  foldl (λ m n, <[n := Integer 0]> m) ∅ names.

(** [[c[rk]**p for rk, p in r_stoich.items()]]: [c[rk]] raises [KeyError]
    on a species that is not declared, and [**] raises [TypeError] on a
    tuple.  The items of a dict come in the order of [map_to_list], which
    need not be the order of insertion; the value of the product does not
    depend on it. *)
Definition powers (c : gmap string named) (r_stoich : gmap string nat)
    : option (list expr) :=
  mapM (λ item : string * nat,
          match c !! item.1 with
          | Some (Single e) => Some (Pow e item.2)
          | _ => None
          end)
       (map_to_list r_stoich).

(** [f[net_key] += net_mult*r]; [f[net_key]] raises [KeyError] likewise. *)
Definition accumulate (r : expr) (f : gmap string expr) (item : string * Z)
    : option (gmap string expr) :=
  e ← f !! item.1;
  Some (<[item.1 := Add e (Mul (Integer item.2) r)]> f).

(** The rate expression of one reaction, [k[-1]*prod([...])]. *)
Definition rate (c : gmap string named) (k_last : expr)
    (r_stoich : gmap string nat) : option expr :=
  factors ← powers c r_stoich;
  Some (Mul k_last (prod factors)).

Section Construction.
Context {SP : SymPy}.

(** [sym.symbols(names, real=True, nonnegative=True)] on a list of names:
    the list of what each name gives, in order. *)
Definition symbols (names : list string) : list named :=
  symbols_of <$> names.

(** The body of the loop over the reactions, on the state [(f, k)]. *)
Definition step (c : gmap string named)
    (st : gmap string expr * list expr) (rxn : reaction)
    : option (gmap string expr * list expr) :=
  match sympify (coeff rxn) with
  | Parsed k_last =>
      let k := st.2 ++ [k_last] in
      r ← rate c k_last (r_stoich rxn);
      f ← foldlM (accumulate r) st.1 (map_to_list (net_stoich rxn));
      Some (f, k)
  | NoExpression | SympifyError => None
  end.

Definition mk_exprs_symbs (rxns : list reaction) (names : list string)
    : option (list expr * list named * list expr) :=
  let symbs := symbols names in
  if decide (Invalid ∈ symbs) then None else
  let c := dict_zip names symbs in
  st ← foldlM (step c) (zeros names, []) rxns;
  ydot ← mapM (λ n, st.1 !! n) names;
  Some (ydot, symbs, st.2).
End Construction.

End SymbolicConstr.

Import SymbolicConstr.


(** The value of the entry [f[n]] of a dict of expressions. *)
Definition dict_val `{CR : CRing R} (val : symbol → R)
    (f : gmap string expr) (n : string) : option R :=
  evals val <$> f !! n.

(** ** The law of mass action

    The reference the symbolic construction is compared with, as the
    notebook states it: [r_j = k_j * prod_l c_l^R_jl] and
    [dc_i/dt = sum_j S_ij * r_j], where [k_j] is the value of what [sym.S]
    makes of the string of the rate constant and [c_l] the value of the
    symbol of the species. *)

Section MassAction.
Context `{CR : CRing R} {SP : SymPy}.

(** [k_j]: the value of the expression of the rate constant.  Where
    [sym.S] gives no expression there is no rate, and the function does
    not return; the value is then taken as zero. *)
Definition k_value (val : symbol → R) (rxn : reaction) : R :=
  match sympify (coeff rxn) with
  | Parsed e => evals val e
  | NoExpression | SympifyError => rO
  end.

(** [c_l]: the value of the symbol of the species, likewise. *)
Definition c_value (val : symbol → R) (n : string) : R :=
  match symbols_of n with
  | Single e => evals val e
  | Several | Invalid => rO
  end.

(** [R_jl] ranges over the reactants of the reaction. *)
Definition rate_value (val : symbol → R) (rxn : reaction) : R :=
  rmul (k_value val rxn)
       (rprod ((λ item : string * nat, rpow (c_value val item.1) item.2)
                 <$> map_to_list (r_stoich rxn))).

(** The same rate with [R_jl] as a row of the matrix of reactant
    multiplicities: the product ranges over all the species, those that the
    reaction does not consume having the multiplicity zero. *)
Definition rate_matrix_form (val : symbol → R) (names : list string)
    (rxn : reaction) : R :=
  rmul (k_value val rxn)
       (rprod ((λ n, rpow (c_value val n) (default 0%nat (r_stoich rxn !! n)))
                 <$> names)).

(** [S_ij]: the net stoichiometric coefficient of species [n], zero when
    the reaction does not list it. *)
Definition net_coeff (rxn : reaction) (n : string) : Z :=
  default 0 (net_stoich rxn !! n).

Definition mass_action (val : symbol → R) (rxns : list reaction)
    (n : string) : R :=
  rsum ((λ rxn, rmul (of_Z (net_coeff rxn n)) (rate_value val rxn))
          <$> rxns).

(** The weighted sum of the mass-action derivatives of the species of a
    list of pairs of a weight and a species. *)
Definition weighted_rhs (val : symbol → R) (rxns : list reaction)
    (l : list (Z * string)) : R :=
  foldr (λ wn acc, radd (rmul (of_Z wn.1) (mass_action val rxns wn.2)) acc)
        rO l.
End MassAction.

(** Every species that a reaction names is in the species list. *)
Definition species_declared (rxns : list reaction) (names : list string)
    : Prop :=
  Forall (λ rxn, map_Forall (λ s _, s ∈ names) (r_stoich rxn)
                 ∧ map_Forall (λ s _, s ∈ names) (net_stoich rxn)) rxns.

#[export] Instance species_declared_dec rxns names :
  Decision (species_declared rxns names).
Proof. unfold species_declared. apply _. Defined.

(** The species names that [sym.symbols] reads as one symbol each, the
    symbol of that name that is real and not negative. *)
Definition plain_names {SP : SymPy} (names : list string) : Prop :=
  Forall (λ n, symbols_of n = Single (Symbol n real_nonnegative)) names.

#[export] Instance plain_names_dec {SP : SymPy} names :
  Decision (plain_names names).
Proof. unfold plain_names. apply _. Defined.

(** The strings of the rate constants that [sym.S] parses to an
    expression. *)
Definition is_Parsed (x : parsed) : Prop :=
  match x with Parsed _ => True | NoExpression | SympifyError => False end.

#[export] Instance is_Parsed_dec x : Decision (is_Parsed x).
Proof. destruct x; apply _. Defined.

Definition coeffs_parsed {SP : SymPy} (rxns : list reaction) : Prop :=
  Forall (λ rxn, is_Parsed (sympify (coeff rxn))) rxns.

#[export] Instance coeffs_parsed_dec {SP : SymPy} rxns :
  Decision (coeffs_parsed rxns).
Proof. unfold coeffs_parsed. apply _. Defined.

(** What a reaction needs for its pass of the loop to raise nothing: a
    string of the rate constant that parses to an expression, reactants
    that are declared and whose names give one symbol, and declared
    species in the net stoichiometry. *)
Definition is_Single (x : named) : Prop :=
  match x with Single _ => True | Several | Invalid => False end.

#[export] Instance is_Single_dec x : Decision (is_Single x).
Proof. destruct x; apply _. Defined.

Definition usable {SP : SymPy} (names : list string) (rxn : reaction)
    : Prop :=
  is_Parsed (sympify (coeff rxn))
  ∧ map_Forall (λ s _, s ∈ names ∧ is_Single (symbols_of s))
               (r_stoich rxn)
  ∧ map_Forall (λ s _, s ∈ names) (net_stoich rxn).

#[export] Instance usable_dec {SP : SymPy} names rxn :
  Decision (usable names rxn).
Proof. unfold usable. apply _. Defined.

(** ** Conserved quantities

    A weight vector [w], aligned with the species list, is a stoichiometric
    invariant of a reaction when the weighted sum of the net coefficients
    of the reaction is zero; the network is closed under [w] when this holds
    for each of its reactions. *)

Definition weighted_net (w : list Z) (names : list string) (rxn : reaction)
    : Z :=
  foldr (λ wn acc, wn.1 * net_coeff rxn wn.2 + acc) 0 (zip w names).

Definition closed_network (rxns : list reaction) (names : list string)
    (w : list Z) : Prop :=
  Forall (λ rxn, weighted_net w names rxn = 0) rxns.

#[export] Instance closed_network_dec rxns names w :
  Decision (closed_network rxns names w).
Proof. unfold closed_network. apply _. Defined.

(** [sum(w_i*ydot_i)], the weighted sum of the derivative expressions. *)
Definition weighted_sum (w : list Z) (ydot : list expr) : expr :=
  foldr (λ we acc, Add (Mul (Integer we.1) we.2) acc) (Integer 0)
        (zip w ydot).

(** The sum of the multiplicities that a list of dict items gives a key. *)
Definition coeff_sum (l : list (string * Z)) (n : string) : Z :=
  foldr (λ kv acc, if decide (kv.1 = n) then kv.2 + acc else acc) 0 l.

(** Robertson's example, the reaction system of the notebook. *)
Definition robertson : list reaction :=
  [ Rxn "k1" {[ "A" := 1%nat ]} {[ "B" := 1; "A" := -1 ]};
    Rxn "k2" {[ "B" := 1%nat; "C" := 1%nat ]} {[ "A" := 1; "B" := -1 ]};
    Rxn "k3" {[ "B" := 2%nat ]} {[ "B" := -1; "C" := 1 ]} ].


(** A zeroth-order reaction: [A] is produced at the constant rate [k0]. *)
Definition zeroth_order : reaction := Rxn "k0" ∅ {[ "A" := 1 ]}.

(** A stand-in for the readers of SymPy, to run the examples on.  Of
    [sym.S] it has the symbols of the rate constants of the examples, the
    integer of the numeral [2], the list of [[1, 2]] and the refusal of the
    reserved word [lambda]; of [sym.symbols] it has the symbol of a name
    without comma, colon and blank, the tuple of a name with one of them,
    and the refusal of the empty name. *)
Fixpoint mentions (chars : list ascii) (s : string) : bool :=
  match s with
  | EmptyString => false
  | String a s => bool_decide (a ∈ chars) || mentions chars s
  end.

Definition stand_in : SymPy :=
  {| sympify s :=
       if decide (s ∈ ["k"; "k0"; "k1"; "k2"; "k3"])
       then Parsed (Symbol s no_assumptions)
       else if decide (s = "2") then Parsed (Integer 2)
       else if decide (s = "[1, 2]") then NoExpression
       else SympifyError;
     symbols_of s :=
       if decide (s = EmptyString) then Invalid
       else if mentions ["," ; ":" ; " "]%char s then Several
       else Single (Symbol s real_nonnegative) |}.

(** ** Python exceptions

    Code that raises returns in [result]; stateful code threads a state and
    keeps it when it raises, as a Python object keeps what was written to it
    before the exception. *)

Inductive exn : Type :=
  | IndexError
  | ValueError
  | AssertionError (msg : string)
  | CallbackError. (* what a callback of the system may raise *)

Inductive result (A : Type) : Type :=
  | Ok (a : A)
  | Raise (e : exn).
Arguments Ok {A} a.
Arguments Raise {A} e.

#[export] Instance result_ret : MRet result := λ A a, Ok a.
#[export] Instance result_bind : MBind result := λ A B k m,
  match m with
  | Ok a => k a
  | Raise e => Raise e
  end.
#[export] Instance result_fmap : FMap result := λ A B g m,
  match m with
  | Ok a => Ok (g a)
  | Raise e => Raise e
  end.

(** [l[i]] for an index that is not negative. *)
Definition index {A} (l : list A) (i : nat) : result A :=
  match l !! i with
  | Some x => Ok x
  | None => Raise IndexError
  end.

(** [l[i] = v] on a list or a one-dimensional array, likewise. *)
Definition setitem {A} (l : list A) (i : nat) (v : A) : result (list A) :=
  if decide (i < length l)%nat then Ok (<[i := v]> l) else Raise IndexError.

(** A [for] loop whose body may raise, on the state that it updates. *)
Fixpoint for_each {A B} (body : B → A → result B) (b : B) (l : list A)
    : result B :=
  match l with
  | [] => Ok b
  | x :: l => b' ← body b x; for_each body b' l
  end.

Module StateExn.
Definition M (W A : Type) : Type := W → result A * W.

Definition raise {W A} (e : exn) : M W A := λ w, (Raise e, w).
Definition lift {W A} (r : result A) : M W A := λ w, (r, w).
Definition modify {W} (g : W → W) : M W unit := λ w, (Ok tt, g w).
Definition get {W} : M W W := λ w, (Ok w, w).

#[export] Instance M_ret {W} : MRet (M W) := λ A a w, (Ok a, w).
#[export] Instance M_bind {W} : MBind (M W) := λ A B k m w,
  match m w with
  | (Ok a, w') => k a w'
  | (Raise e, w') => (Raise e, w')
  end.
End StateExn.

(** ** [odesys_vode.py] *)

Module OdesysVode.
Import StateExn.

(** The callbacks of an [ODEsys]: [self.f_eval(y, t, *args)] and
    [self.j_eval(y, t, *args)], which may raise. *)
Class ODEsys (T : Type) : Type := {
  f_eval : list T → T → list (list T) → result (list T);
  j_eval : list T → T → list (list T) → result (list (list T))
}.

(** What the integrator does during one call of [r.integrate(t)]: it
    evaluates the right-hand side and the Jacobian, a finite number of
    times, sees what each call returns or raises, and in the end returns or
    raises itself.  What becomes of an exception of a callback, whether the
    integrator hands it on, converts it or goes on without it, is the
    integrator's business: the continuation gets the outcome of the call. *)
Inductive request (T A : Type) : Type :=
  | Return (a : A)
  | Fail (e : exn)
  | CallF (t : T) (y : list T) (k : result (list T) → request T A)
  | CallJ (t : T) (y : list T) (k : result (list (list T)) → request T A).
Arguments Return {T A} a.
Arguments Fail {T A} e.
Arguments CallF {T A} t y k.
Arguments CallJ {T A} t y k.

(** [scipy.integrate.ode] with the [vode] integrator, which is not part
    of the repository: the state [St] of the object [r] after
    [set_integrator], [set_f_params] and [set_jac_params], and its
    methods.  [integrate] gets its arrays by value: the solver copies the
    initial value it is given and returns [r.y] as a fresh array. *)
Class Ode (T St : Type) : Type := {
  set_initial_value : list T → T → St;
  integrate : St → T → request T St;
  successful : St → bool;
  ode_y : St → list T
}.

(** An entry of the record of the calls of the methods [self.f_eval] and
    [self.j_eval] of the system. *)
Inductive invocation : Type := F_eval | J_eval.

#[export] Instance invocation_eq_dec : EqDecision invocation.
Proof. solve_decision. Defined.

(** The state of a run of [integrate_vode]: the attributes [f.ncall] and
    [j.ncall] of the two closures, which the closures write, the record of
    the invocations of [self.f_eval] and [self.j_eval], which the methods
    write when they are called, and the states of [r] after each
    [r.integrate]. *)
Record world (St : Type) : Type := World {
  f_ncall : nat;
  j_ncall : nat;
  invoked : list invocation;
  visited : list St
}.
Arguments World {St} _ _ _ _.
Arguments f_ncall {St} _.
Arguments j_ncall {St} _.
Arguments invoked {St} _.
Arguments visited {St} _.

(** The dict [{'num_rhs': f.ncall, 'num_dls_jac_evals': j.ncall}]. *)
Record info : Type := Info { num_rhs : nat; num_dls_jac_evals : nat }.

(** [a[idx, :] = v] on a two-dimensional array: the index must be in
    range, and [v] must have the length of a row or the length one, in
    which case NumPy broadcasts it. *)
Definition set_row {T} (idx : nat) (v : list T) (a : list (list T))
    : result (list (list T)) :=
  match a !! idx with
  | None => Raise IndexError
  | Some old =>
      if decide (length v = length old) then Ok (<[idx := v]> a)
      else match v with
           | [x] => Ok (<[idx := replicate (length old) x]> a)
           | _ => Raise ValueError
           end
  end.

Section IntegrateVode.
Context {T St : Type} {sys : ODEsys T} {solver : Ode T St}.
Context (zero : T).

(** An invocation of the method [self.f_eval(y, t, *args)]: the call
    enters the record, and returns or raises what the method does.  The
    closures reach the methods in this way only, so that the record holds
    an entry for a call exactly when the method has been invoked. *)
Definition invoke_f_eval (y : list T) (t : T) (args : list (list T))
    : M (world St) (list T) :=
  modify (λ w, World (f_ncall w) (j_ncall w)
                     (invoked w ++ [F_eval]) (visited w));;
  lift (f_eval y t args).

(** An invocation of [self.j_eval(y, t, *args)], likewise. *)
Definition invoke_j_eval (y : list T) (t : T) (args : list (list T))
    : M (world St) (list (list T)) :=
  modify (λ w, World (f_ncall w) (j_ncall w)
                     (invoked w ++ [J_eval]) (visited w));;
  lift (j_eval y t args).

(** The closure [f]: [f.ncall += 1], then
    [np.asarray(self.f_eval(y, t, *args))]. *)
Definition f (args : list (list T)) (t : T) (y : list T)
    : M (world St) (list T) :=
  modify (λ w, World (S (f_ncall w)) (j_ncall w)
                     (invoked w) (visited w));;
  invoke_f_eval y t args.

(** The closure [j], likewise. *)
Definition j (args : list (list T)) (t : T) (y : list T)
    : M (world St) (list (list T)) :=
  modify (λ w, World (f_ncall w) (S (j_ncall w))
                     (invoked w) (visited w));;
  invoke_j_eval y t args.

(** One call of [r.integrate(t)], the integrator calling [f] and [j]: the
    state goes through each call, and the integrator goes on with what
    the call returned or raised. *)
Fixpoint serve {A} (args : list (list T)) (m : request T A)
    : M (world St) A :=
  match m with
  | Return a => mret a
  | Fail e => raise e
  | CallF t y k => λ w, let out := f args t y w in serve args (k out.1) out.2
  | CallJ t y k => λ w, let out := j args t y w in serve args (k out.1) out.2
  end.

(** The calls that the integrator makes during one call of
    [r.integrate(t)], and how the call ends, when each request is answered
    by the method of the system itself: [self.f_eval] for the right-hand
    side and [self.j_eval] for the Jacobian. *)
Fixpoint answered {A} (args : list (list T)) (m : request T A)
    : result A * list invocation :=
  match m with
  | Return a => (Ok a, [])
  | Fail e => (Raise e, [])
  | CallF t y k =>
      let out := answered args (k (f_eval y t args)) in
      (out.1, F_eval :: out.2)
  | CallJ t y k =>
      let out := answered args (k (j_eval y t args)) in
      (out.1, J_eval :: out.2)
  end.

(** The calls of the steps of a run of the loop from the state [r] of the
    solver over the time points [ts]: those of a step, and those of the
    steps after it when it succeeds. *)
Fixpoint calls (args : list (list T)) (r : St) (ts : list T)
    : list invocation :=
  match ts with
  | [] => []
  | t :: ts =>
      let out := answered args (integrate r t) in
      out.2 ++ match out.1 with
               | Ok r' => if successful r' then calls args r' ts else []
               | Raise _ => []
               end
  end.

(** [for idx in range(1, len(tout))], on the time points that are left. *)
Fixpoint loop (args : list (list T)) (idx : nat) (ts : list T) (r : St)
    (yout : list (list T)) : M (world St) (list (list T)) :=
  match ts with
  | [] => mret yout
  | t :: ts =>
      r' ← serve args (integrate r t);
      modify (λ w, World (f_ncall w) (j_ncall w) (invoked w)
                         (visited w ++ [r']));;
      if successful r' then
        yout' ← lift (set_row idx (ode_y r') yout);
        loop args (S idx) ts r' yout'
      else raise (AssertionError "Integration failed")
  end.

(** A call starts with [f.ncall = 0] and [j.ncall = 0]. *)
Definition fresh : world St := World 0 0 [] [].

Definition integrate_vode (tout : list T) (y0 : list T) (params : list T)
    : result (list (list T) * info) * world St :=
  (* [if params: r.set_f_params(params); r.set_jac_params(params)]:
     the tuple is handed over as one extra argument *)
  let args := match params with [] => [] | _ => [params] end in
  let yout := replicate (length tout) (replicate (length y0) zero) in
  (yout ← lift (set_row 0 y0 yout);
   row0 ← lift (index yout 0);
   t0 ← lift (index tout 0);
   let r := set_initial_value row0 t0 in
   yout ← loop args 1 (drop 1 tout) r yout;
   w ← get;
   mret (yout, Info (f_ncall w) (j_ncall w))) fresh.
End IntegrateVode.

(** The number of entries [c] in the record of invocations. *)
Definition times (c : invocation) (l : list invocation) : nat :=
  length (filter (λ x, x = c) l).

(** Each counter equals the number of invocations of its callback. *)
Definition counted {St} (w : world St) : Prop :=
  f_ncall w = times F_eval (invoked w)
  ∧ j_ncall w = times J_eval (invoked w).

(** The state after [r.integrate] has left [r] in the state [r']. *)
Definition stepped {St} (w : world St) (r' : St) : world St :=
  World (f_ncall w) (j_ncall w) (invoked w) (visited w ++ [r']).

(** The exception of [assert r.successful(), "Integration failed"]. *)
Definition failed : exn := AssertionError "Integration failed".
End OdesysVode.

(** ** [odesys_cython.py] *)

Module OdesysCython.

(** *** The name of the module *)

(** [uuid.uuid4()]: the 128 bits of [os.urandom(16)], in which the
    constructor of [UUID] sets the variant to RFC 4122 and the version to
    4. *)
Definition uuid4 (urandom : Z) : Z :=
  let int := urandom in
  let int := Z.land int (Z.lnot (Z.shiftl 0xc000 48)) in
  let int := Z.lor int (Z.shiftl 0x8000 48) in
  let int := Z.land int (Z.lnot (Z.shiftl 0xf000 64)) in
  Z.lor int (Z.shiftl 4 76).

Definition hex_digit (d : Z) : ascii :=
  match d with
  | 0 => "0" | 1 => "1" | 2 => "2" | 3 => "3" | 4 => "4" | 5 => "5"
  | 6 => "6" | 7 => "7" | 8 => "8" | 9 => "9" | 10 => "a" | 11 => "b"
  | 12 => "c" | 13 => "d" | 14 => "e" | _ => "f"
  end%char.

(** The [n] lowest hexadecimal digits of [z], the highest first. *)
Fixpoint hex_digits (n : nat) (z : Z) : string :=
  match n with
  | O => ""
  | S n => String (hex_digit ((z / 16 ^ Z.of_nat n) mod 16))
                  (hex_digits n z)
  end.

(** [UUID.hex], ['%032x' % self.int]. *)
Definition hex (uuid : Z) : string := hex_digits 32 uuid.

(** ['ode_cython_%s' % uuid.hex[:10]] for the uuid of [uuid.uuid4()]. *)
Definition mod_name_of (uuid : Z) : string :=
  "ode_cython_" +:+ String.substring 0 10 (hex uuid).

(** *** The generated code *)

(** The attributes of an [ODEsys] that [setup] reads: the right-hand
    sides [self.f], the Jacobian [self.j], the state symbols [self.y] and
    the parameter symbols [self.p]. *)
Record ODEsys : Type := {
  f : list expr;
  j : list (list expr);
  y : list symbol;
  p : list symbol
}.

(** ['y[%d]' % i] *)
Definition index_name (i : nat) : string := "y[" +:+ pretty i +:+ "]".

(** [{s: sym.Symbol('y[%d]' % i) for i, s in enumerate(self.y)}]: the
    keys are symbols, and a later pair overwrites an earlier one. *)
Definition subs (y : list symbol) : gmap symbol expr :=
  foldl (λ m (item : nat * symbol),
           <[item.2 := Symbol (index_name item.1) no_assumptions]> m)
        ∅ (imap pair y).

(** [expr.xreplace(rule)] for a rule whose keys are symbols: a symbol of
    the expression is replaced when it is a key, that is, when a key has
    its name and its assumptions. *)
Fixpoint xreplace (rule : gmap symbol expr) (e : expr) : expr :=
  match e with
  | Symbol s a => default (Symbol s a) (rule !! (s, a))
  | Integer z => Integer z
  | Add a b => Add (xreplace rule a) (xreplace rule b)
  | Mul a b => Mul (xreplace rule a) (xreplace rule b)
  | Pow b p => Pow (xreplace rule b) p
  end.

(** The module that [setup] writes and imports: its name, the names of
    the arguments after [y] and [t], and the assignments
    [out[i] = expr] and [out[ri, ci] = expr] of its functions [f] and
    [j], each kept as its index and its expression, of which [str] writes
    the text. *)
Record module : Type := Pyx {
  mod_name : string;
  args : list string;
  f_exprs : list (nat * expr);
  j_exprs : list (nat * nat * expr)
}.

Definition setup (self : ODEsys) (urandom : Z) : result module :=
  let mod_name := mod_name_of (uuid4 urandom) in
  let idxs := seq 0 (length (f self)) in
  let subs := subs (y self) in
  f_exprs ← mapM (λ i, e ← index (f self) i; mret (i, xreplace subs e))
                 idxs;
  j_exprs ← mapM (λ rc : nat * nat,
                    row ← index (j self) rc.1;
                    e ← index row rc.2;
                    mret (rc.1, rc.2, xreplace subs e))
                 (ri ← idxs; ci ← idxs; [(ri, ci)]);
  (* [', '.join(map(str, self.p))] *)
  mret (Pyx mod_name (fst <$> p self) f_exprs j_exprs).

(** The first value that a list of pairs gives a key. *)
Fixpoint assoc {V} (l : list (string * V)) (key : string) : option V :=
  match l with
  | [] => None
  | kv :: l => if decide (kv.1 = key) then Some kv.2 else assoc l key
  end.

(** The names that the template declares in the generated functions: the
    arguments [y] and [t], the local [out], and the modules [np] and
    [cnp]. *)
Definition template_names : list string := ["y"; "t"; "out"; "np"; "cnp"].

(** An identifier of ASCII letters, digits and underscores. *)
Definition letter (a : ascii) : bool :=
  let n := nat_of_ascii a in
  bool_decide (65 ≤ n ≤ 90)%nat || bool_decide (97 ≤ n ≤ 122)%nat
  || bool_decide (n = 95)%nat.

Definition digit (a : ascii) : bool :=
  let n := nat_of_ascii a in bool_decide (48 ≤ n ≤ 57)%nat.

Fixpoint letters_digits (s : string) : bool :=
  match s with
  | EmptyString => true
  | String a s => (letter a || digit a) && letters_digits s
  end.

Definition identifier (s : string) : bool :=
  match s with
  | EmptyString => false
  | String a s => letter a && letters_digits s
  end.

(** The argument lists [%(args)s] for which the model has the generated
    functions: identifiers that differ from each other and from the names
    of the template.  With another list the text is another program (a
    name with a comma is two arguments, a name like [k=1] a default
    value), does not compile (a repeated argument, a second declaration of
    [y], [t] or [out]) or raises when it is called (an argument [np] has
    no attribute [empty]). *)
Definition declarable (args : list string) : Prop :=
  Forall (λ s, identifier s = true) args
  ∧ NoDup args
  ∧ Forall (λ s, s ∉ template_names) args.

#[export] Instance declarable_dec args : Decision (declarable args).
Proof. unfold declarable. apply _. Defined.

Section Callbacks.
Context `{CR : CRing R}.

(** What a name denotes, as a number, in the body of the generated
    functions [f(y, t, args)] and [j(y, t, args)]: an element of the
    array [y], the argument [t] or one of the other arguments.  A
    subscript beyond the array, a name that is not declared, and the
    names of the template that denote an array or a module denote no
    number. *)
Definition scope (m : module) (yv : list R) (t : R) (pv : list R)
    (s : string) : option R :=
  match list_find (λ i, index_name i = s) (seq 0 (length yv)) with
  | Some (_, i) => yv !! i
  | None => if decide (s = "t") then Some t
            else if decide (s ∈ template_names) then None
            else assoc (zip (args m) pv) s
  end.

(** [out[i] = expr] on the buffer [out], whose cells hold nothing
    before they are assigned. *)
Definition assign (sc : string → option R) (out : list (option R))
    (stmt : nat * expr) : option (list (option R)) :=
  v ← eval_opt sc stmt.2;
  if decide (stmt.1 < length out)%nat
  then Some (<[stmt.1 := Some v]> out) else None.

(** [out[ri, ci] = expr] *)
Definition assign2 (sc : string → option R)
    (out : list (list (option R))) (stmt : nat * nat * expr)
    : option (list (list (option R))) :=
  v ← eval_opt sc stmt.2;
  row ← out !! stmt.1.1;
  if decide (stmt.1.2 < length row)%nat
  then Some (<[stmt.1.1 := <[stmt.1.2 := Some v]> row]> out) else None.

(** The function [f] of the module, called as [f(y, t, *params)]:
    [out = np.empty(y.size)], the assignments, [return out]. *)
Definition module_f (m : module) (yv : list R) (t : R) (pv : list R)
    : option (list (option R)) :=
  if decide (declarable (args m) ∧ length pv = length (args m)) then
    foldlM (assign (scope m yv t pv)) (replicate (length yv) None)
           (f_exprs m)
  else None.

(** The function [j], with [out = np.empty((y.size, y.size))]. *)
Definition module_j (m : module) (yv : list R) (t : R) (pv : list R)
    : option (list (list (option R))) :=
  if decide (declarable (args m) ∧ length pv = length (args m)) then
    foldlM (assign2 (scope m yv t pv))
           (replicate (length yv) (replicate (length yv) None))
           (j_exprs m)
  else None.

(** Modelled from the spec: the inputs [(y, t, params)] of the direct
    backend, the callbacks of [ODEsys] in [scipy2017codegen/odesys.py],
    which is not among the sources.  The spec has the backend bind the
    expressions of the system to a generic function of numerical
    evaluation at call time: a valuation of the symbols stands for the
    inputs when it gives each state symbol the entry of [y] at its
    position and each parameter symbol the entry of [params] at its
    position. *)
Definition binds (val : symbol → R) (self : ODEsys) (yv pv : list R)
    : Prop :=
  Forall2 (λ s v, val s = v) (y self) yv
  ∧ Forall2 (λ s v, val s = v) (p self) pv.

(** Modelled from the spec: the right-hand side of the direct backend,
    [ODEsys.f_eval], which is not among the sources: the values of the
    symbolic expressions [self.f] themselves, on the inputs that the
    valuation stands for. *)
Definition direct_f (val : symbol → R) (self : ODEsys) : list R :=
  evals val <$> f self.

(** Modelled from the spec: the Jacobian of the direct backend,
    [ODEsys.j_eval], likewise, from the expressions [self.j]. *)
Definition direct_j (val : symbol → R) (self : ODEsys) : list (list R) :=
  (λ row : list expr, evals val <$> row) <$> j self.
End Callbacks.

Section ImportModule.
Context `{CR : CRing R}.
(** The build of the module by [pyximport] and Cython, which are not part
    of the repository: it raises when the text does not compile, as with
    an argument whose name is a reserved word. *)
Context (build : module → result ()).

(** The last statements of [setup]: [mod = __import__(self.mod_name)],
    then [self.f_eval = mod.f] and [self.j_eval = mod.j]. *)
Definition import (m : module)
    : result ((list R → R → list R → option (list (option R)))
              * (list R → R → list R → option (list (list (option R))))) :=
  build m;; mret (module_f m, module_j m).
End ImportModule.

(** An ODE system as its constructor leaves it: one right-hand side per
    state symbol and a square Jacobian of that size. *)
Definition shaped (self : ODEsys) : Prop :=
  length (f self) = length (y self)
  ∧ length (j self) = length (y self)
  ∧ Forall (λ row, length row = length (y self)) (j self).

#[export] Instance shaped_dec self : Decision (shaped self).
Proof. unfold shaped. apply _. Defined.

(** The expressions of the system are expressions in its state symbols
    and its parameter symbols. *)
Definition closed (self : ODEsys) : Prop :=
  Forall (λ s, s ∈ y self ∨ s ∈ p self)
         ((f self ++ concat (j self)) ≫= free_symbols).

#[export] Instance closed_dec self : Decision (closed self).
Proof. unfold closed. apply _. Defined.

(** First-order decay, [dA/dt = -k*A], [dB/dt = k*A]. *)
Definition decay : ODEsys :=
  let k := Symbol "k" no_assumptions in
  let A := Symbol "A" real_nonnegative in
  {| f := [Mul (Integer (-1)) (Mul k A); Mul k A];
     j := [[Mul (Integer (-1)) k; Integer 0]; [k; Integer 0]];
     y := [("A", real_nonnegative); ("B", real_nonnegative)];
     p := [("k", no_assumptions)] |}.

(** A system whose right-hand side is a symbol that is neither its state
    symbol nor a parameter, and is spelled like an element of [y]. *)
Definition captured : ODEsys :=
  {| f := [Symbol "y[0]" no_assumptions];
     j := [[Integer 0]];
     y := [("A", real_nonnegative)];
     p := [] |}.

(** Decay with a rate constant of the name [np]. *)
Definition shadowing : ODEsys :=
  let k := Symbol "np" no_assumptions in
  let A := Symbol "A" real_nonnegative in
  {| f := [Mul (Integer (-1)) (Mul k A)];
     j := [[Mul (Integer (-1)) k]];
     y := [("A", real_nonnegative)];
     p := [("np", no_assumptions)] |}.

(** Decay with a rate constant that is spelled like the species, and is
    another symbol: it has no assumptions. *)
Definition homonym : ODEsys :=
  let k := Symbol "A" no_assumptions in
  let A := Symbol "A" real_nonnegative in
  {| f := [Mul (Integer (-1)) (Mul k A)];
     j := [[Mul (Integer (-1)) k]];
     y := [("A", real_nonnegative)];
     p := [("A", no_assumptions)] |}.
End OdesysCython.

(** ** [odesys_diffusion.py] *)

Module OdesysDiffusion.

(** [np.clip(a, a_min, a_max)], which NumPy computes as
    [minimum(a_max, maximum(a, a_min))]: when [a_min > a_max] the result
    is [a_max]. *)
Definition clip (a a_min a_max : Z) : Z := Z.min a_max (Z.max a a_min).

(** The attributes of a [MOLsys] that index computations use: [self.ny],
    the number of species (inherited from [ODEsys]), and [self.n_lines],
    the number of bins. *)
Record MOLsys : Type := { ny : Z; n_lines : Z }.

Definition central_reference_bin (self : MOLsys) (i : Z) : Z :=
  clip i 1 (ny self - 2).

(** The indices [(k-1)*ny + j], [k*ny + j] and [(k+1)*ny + j] that
    [second_derivatives_spatial] reads in [y] and that [j_eval] uses as
    columns of [j_out], for the bin [i] and the species [j]. *)
Definition stencil (self : MOLsys) (i j : Z) : list Z :=
  let k := central_reference_bin self i in
  [(k - 1) * ny self + j; k * ny self + j; (k + 1) * ny self + j].

(** The positions of the flattened state vector, of length
    [ny*n_lines]. *)
Definition in_bounds (self : MOLsys) (idx : Z) : Prop :=
  0 ≤ idx < ny self * n_lines self.

#[export] Instance in_bounds_dec self idx : Decision (in_bounds self idx).
Proof. unfold in_bounds. apply _. Defined.

(** [a[i]] on a one-dimensional NumPy array: a negative index counts
    from the end, an index outside [-len(a), len(a))] raises. *)
Definition getitem {T} (a : list T) (i : Z) : result T :=
  if decide (0 ≤ i) then
    match a !! Z.to_nat i with Some x => Ok x | None => Raise IndexError end
  else if decide (- Z.of_nat (length a) ≤ i) then
    match a !! Z.to_nat (Z.of_nat (length a) + i) with
    | Some x => Ok x
    | None => Raise IndexError
    end
  else Raise IndexError.

Section SecondDerivatives.
Context {T : Type}.
(** [(left - 2*cent + rght)/self.dx**2], in floating point. *)
Context (difference : T → T → T → T).

(** The values that [second_derivatives_spatial(i, y, out)] writes to
    [out[0]], ..., [out[ny-1]]. *)
Definition second_derivatives_spatial (self : MOLsys) (i : Z)
    (y : list T) : result (list T) :=
  let k := central_reference_bin self i in
  mapM (λ j : nat,
          left ← getitem y ((k - 1) * ny self + Z.of_nat j);
          cent ← getitem y (k * ny self + Z.of_nat j);
          rght ← getitem y ((k + 1) * ny self + Z.of_nat j);
          mret (difference left cent rght))
       (seq 0 (Z.to_nat (ny self))).
End SecondDerivatives.

(** *** The layout of the state in [integrate] *)

Section Integrate.
Context {T I : Type}.
(** [ODEsys.integrate], the method of the base class, which returns the
    trajectory, one row per time point, and the diagnostics. *)
Context (super_integrate
           : list T → list T → list T → result (list (list T) * I)).

(** [np.array(np.vstack(y0).T.flat)] on a sequence of one-dimensional
    arrays, one per species: [np.vstack] raises [ValueError] on an empty
    sequence and on arrays of different lengths; the transpose of the
    stacked matrix is read row by row, which is
    [[y0[j][i] for i in range(n) for j in range(len(y0))]]. *)
Definition flat_T_vstack (y0 : list (list T)) : result (list T) :=
  match y0 with
  | [] => Raise ValueError
  | a :: _ =>
      if decide (Forall (λ b, length b = length a) y0) then
        mapM (λ ij : nat * nat, row ← index y0 ij.2; index row ij.1)
             (i ← seq 0 (length a); j ← seq 0 (length y0); [(i, j)])
      else Raise ValueError
  end.

(** [yout.reshape((nt, n_lines, ny)).transpose((0, 2, 1))] on a
    two-dimensional array, given by its rows: [reshape] raises
    [ValueError] when the number of entries is not [nt*n_lines*ny], and
    the entry [[t, j, i]] of the result is the entry
    [(t*n_lines + i)*ny + j] of the data of [yout], read row by row.  The
    three sizes are not negative. *)
Definition reshape_transpose (nt n_lines ny : nat) (yout : list (list T))
    : result (list (list (list T))) :=
  let data := concat yout in
  if decide (length data = (nt * n_lines * ny)%nat) then
    mapM (λ t,
            mapM (λ j,
                    mapM (λ i, index data ((t * n_lines + i) * ny + j)%nat)
                         (seq 0 n_lines))
                 (seq 0 ny))
         (seq 0 nt)
  else Raise ValueError.

Definition integrate (self : MOLsys) (tout : list T) (y0 : list (list T))
    (params : list T) : result (list (list (list T)) * I) :=
  y0 ← flat_T_vstack y0;
  r ← super_integrate tout y0 params;
  yout ← reshape_transpose (length tout) (Z.to_nat (n_lines self))
                           (Z.to_nat (ny self)) r.1;
  mret (yout, r.2).
End Integrate.

(** *** The colours of [plot_result] *)

Section PlotResult.
Context {T : Type}.
(** The float [0.0] and the division of two floats of NumPy, which does
    not raise. *)
Context (zero : T) (div : T → T → T).
(** What [plot_result] calls and the model leaves open, each of which
    may raise: [ax or plt.subplot(1, 1, 1)]; [self.x_centers()], which
    is [np.linspace] on the attributes of the system;
    [plt.plot(x, y, color=c)] of Matplotlib; and [self.print_info(info)]
    of the base class. *)
Context (axes : result ()).
Context (x_centers : MOLsys → result (list T)).
Context (plot : list T → list T → list T → result ()).
Context (print_info : result ()).

(** For each time point and each species, the colour [c], black but
    for the channel [j], and the call of [plt.plot] on the curve
    [yout[i, j, :]]. *)
Definition plot_result (self : MOLsys) (tout : list T)
    (yout : list (list (list T))) : result () :=
  axes;;
  x_lines ← x_centers self;
  for_each (λ _ (itj : nat * T * nat),
              t_end ← getitem tout (-1);
              c ← setitem [zero; zero; zero] itj.2 (div itj.1.2 t_end);
              frame ← index yout itj.1.1;
              curve ← index frame itj.2;
              plot x_lines curve c)
           ()
           (it ← imap pair tout; j ← seq 0 (Z.to_nat (ny self)); [(it, j)]);;
  print_info.
End PlotResult.

(** The system of the notebook: two species, [A] and [B], and fifty
    bins. *)
Definition molsys : MOLsys := {| ny := 2; n_lines := 50 |}.
End OdesysDiffusion.

(** A small system and a stand-in for the integrator, to run the driver on:
    [dy/dt = -y] over the integers, and a solver that makes one explicit
    step per call, with one evaluation of each callback, reports failure
    beyond [t = 10], and ends with the exception of a callback that
    raises. *)
Module VodeExample.
Import OdesysVode.

Definition decay : ODEsys Z :=
  {| f_eval y t args := Ok (Z.opp <$> y);
     j_eval y t args := Ok [[-1]] |}.

Definition euler : Ode Z (list Z * bool) :=
  {| set_initial_value y t := (y, true);
     integrate r t :=
       CallF t r.1 (λ out,
         match out with
         | Raise e => Fail e
         | Ok dy =>
             CallJ t r.1 (λ jac,
               match jac with
               | Raise e => Fail e
               | Ok _ =>
                   Return (zip_with Z.add r.1 dy, bool_decide (t ≤ 10))
               end)
         end);
     successful := snd;
     ode_y := fst |}.

Definition run (tout y0 : list Z) :=
  integrate_vode (sys:=decay) (solver:=euler) 0 tout y0 [].

(** The same system with a right-hand side that raises, and a solver that
    goes on without the value of a callback that raised. *)
Definition faulty : ODEsys Z :=
  {| f_eval y t args := Raise CallbackError;
     j_eval y t args := Ok [[-1]] |}.

Definition lenient : Ode Z (list Z * bool) :=
  {| set_initial_value y t := (y, true);
     integrate r t := CallF t r.1 (λ _, Return (r.1, true));
     successful := snd;
     ode_y := fst |}.
End VodeExample.

(** ** The hand-written right-hand side of notebook 25 *)

Module KineticsIntro.

(** The operations that [rhs] applies to its arguments.  Python resolves
    them by the type of the operands: floats when [odeint] calls [rhs],
    SymPy expressions when the notebook calls it on symbols. *)
Class Number (V : Type) : Type := {
  of_int : Z → V;
  nsub : V → V → V;
  nmul : V → V → V;
  npow : V → nat → V
}.

(** Numbers, in exact arithmetic. *)
#[export] Instance ring_Number `{CR : CRing R} : Number R :=
  {| of_int := of_Z; nsub := rsub; nmul := rmul; npow := rpow |}.

(** SymPy expressions: [a - b] is the sum of [a] and [-1*b]. *)
#[export] Instance expr_Number : Number expr :=
  {| of_int := Integer;
     nsub a b := Add a (Mul (Integer (-1)) b);
     nmul := Mul;
     npow := Pow |}.

(** [rhs(y, t, kf, kb)] for the reaction 2 NO + Br2 <-> 2 NOBr; the
    argument [t] is not used. *)
Definition rhs `{Number V} {U} (y : list V) (t : U) (kf kb : V)
    : result (list V) :=
  y0 ← index y 0;
  y1 ← index y 1;
  let rf := nmul (nmul kf (npow y0 2)) y1 in
  y2 ← index y 2;
  let rb := nmul kb (npow y2 2) in
  mret [nmul (of_int 2) (nsub rb rf); nsub rb rf;
        nmul (of_int 2) (nsub rf rb)].
End KineticsIntro.

(** ** The Cython examples *)

Module CythonTutorial.

Section Diff.
Context {T : Type}.
(** The float [0.0] and the difference of two floats. *)
Context (zero : T) (sub : T → T → T).

(** [np.zeros(n)], which raises [ValueError] on a negative dimension. *)
Definition np_zeros (n : Z) : result (list T) :=
  if decide (0 ≤ n) then Ok (replicate (Z.to_nat n) zero)
  else Raise ValueError.

Definition py_diff (x : list T) : result (list T) :=
  let n := Z.of_nat (length x) in
  y ← np_zeros (n - 1);
  for_each (λ y i, a ← index x (i + 1);
                   b ← index x i;
                   setitem y i (sub a b))
           y (seq 0 (Z.to_nat (n - 1))).
End Diff.

Section Fib.
Context {T : Type}.
(** The floats [0.0] and [1.0] and the sum of two floats. *)
Context (zero one : T) (add : T → T → T).

(** [a, b = 0.0, 1.0], then [a, b = a + b, a] for each [i] in
    [range(n)], which is empty when [n] is not positive. *)
Definition python_fib (n : Z) : T :=
  (Nat.iter (Z.to_nat n) (λ ab : T * T, (add ab.1 ab.2, ab.1))
            (zero, one)).1.
End Fib.
End CythonTutorial.

(** * Properties *)

(** ** Arithmetic of the coefficient domain *)

Section RingFacts.
Context `{CR : CRing R}.
Add Ring Rring : Rth.

Local Infix "+" := radd.
Local Infix "*" := rmul.

Lemma of_Z_0 : of_Z 0 = rO.
Proof. reflexivity. Qed.

Lemma of_Z_1 : of_Z 1 = rI.
Proof. reflexivity. Qed.

Lemma of_Z_add (x y : Z) : of_Z (x + y)%Z = of_Z x + of_Z y.
Proof.
  unfold of_Z.
  apply (gen_phiZ_add (Eqsth R) (Eq_ext radd rmul ropp) Rth).
Qed.

Lemma of_Z_mul (x y : Z) : of_Z (x * y)%Z = of_Z x * of_Z y.
Proof.
  unfold of_Z.
  apply (gen_phiZ_mul (Eqsth R) (Eq_ext radd rmul ropp) Rth).
Qed.

Lemma rsum_app (l1 l2 : list R) : rsum (l1 ++ l2) = rsum l1 + rsum l2.
Proof.
  unfold rsum. induction l1 as [|x l1 IH]; simpl.
  - ring.
  - rewrite IH. ring.
Qed.

Lemma evals_foldl_Mul (val : symbol → R) (a : expr) (l : list expr) :
  evals val (foldl Mul a l) = evals val a * rprod (evals val <$> l).
Proof.
  revert a. induction l as [|x l IH]; intros a.
  - change (evals val a = evals val a * rI). ring.
  - change (evals val (foldl Mul (Mul a x) l)
            = evals val a * (evals val x * rprod (evals val <$> l))).
    rewrite IH.
    change (evals val (Mul a x)) with (evals val a * evals val x). ring.
Qed.

Lemma evals_prod (val : symbol → R) (seq : list expr) :
  evals val (prod seq) = rprod (evals val <$> seq).
Proof.
  destruct seq as [|x xs]; simpl.
  - reflexivity.
  - rewrite evals_foldl_Mul. reflexivity.
Qed.

Lemma eval_prod (env : string → R) (seq : list expr) :
  eval env (prod seq) = rprod (eval env <$> seq).
Proof. apply evals_prod. Qed.
End RingFacts.


(** ** [mk_exprs_symbs]: the dicts [c] and [f] *)

Section SymbolicConstrFacts.
Context `{CR : CRing R} {SP : SymPy}.
Add Ring Rring' : Rth.

Local Infix "+" := radd.
Local Infix "*" := rmul.

Lemma dict_zip_lookup (names : list string) (n : string) :
  dict_zip names (symbols names) !! n
  = if decide (n ∈ names) then Some (symbols_of n) else None.
Proof.
  unfold dict_zip, symbols.
  assert (G : ∀ m : gmap string named,
    foldl (λ m kv, <[kv.1 := kv.2]> m) m (zip names (symbols_of <$> names))
      !! n
    = if decide (n ∈ names) then Some (symbols_of n) else m !! n).
  { induction names as [|x names IH]; intros m; simpl.
    - done.
    - rewrite IH, lookup_insert.
      destruct (decide (n ∈ names)) as [Hin|Hnin].
      * by rewrite (decide_True (P := n ∈ x :: names)) by (by right).
      * destruct (decide (x = n)) as [->|Hne].
        -- by rewrite (decide_True (P := n ∈ n :: names)) by (by left).
        -- rewrite (decide_False (P := n ∈ x :: names)); [done|].
           intros [?|?]%elem_of_cons; congruence. }
  rewrite G. by rewrite lookup_empty.
Qed.

Lemma zeros_lookup (names : list string) (n : string) :
  zeros names !! n = if decide (n ∈ names) then Some (Integer 0) else None.
Proof.
  unfold zeros.
  assert (G : ∀ m : gmap string expr,
    foldl (λ m n, <[n := Integer 0]> m) m names !! n
    = if decide (n ∈ names) then Some (Integer 0) else m !! n).
  { induction names as [|x names IH]; intros m; simpl.
    - done.
    - rewrite IH, lookup_insert.
      destruct (decide (n ∈ names)) as [Hin|Hnin].
      * by rewrite (decide_True (P := n ∈ x :: names)) by (by right).
      * destruct (decide (x = n)) as [->|Hne].
        -- by rewrite (decide_True (P := n ∈ n :: names)) by (by left).
        -- rewrite (decide_False (P := n ∈ x :: names)); [done|].
           intros [?|?]%elem_of_cons; congruence. }
  rewrite G. by rewrite lookup_empty.
Qed.

Lemma coeff_sum_lookup (m : gmap string Z) (n : string) :
  coeff_sum (map_to_list m) n = default 0 (m !! n).
Proof.
  assert (G : ∀ l : list (string * Z), NoDup l.*1 →
    coeff_sum l n = default 0 ((list_to_map l : gmap string Z) !! n)).
  { induction l as [|[k v] l IH]; intros Hnd; simpl.
    - by rewrite lookup_empty.
    - apply NoDup_cons in Hnd as [Hk Hnd]. specialize (IH Hnd).
      destruct (decide (k = n)) as [->|Hne].
      + rewrite lookup_insert_eq. simpl.
        fold (coeff_sum l n). rewrite IH.
        rewrite (not_elem_of_list_to_map_1 _ _ Hk). simpl. lia.
      + rewrite lookup_insert_ne by done. apply IH. }
  rewrite G by apply NoDup_fst_map_to_list.
  by rewrite list_to_map_to_list.
Qed.

Lemma foldlM_cons {A B} (step : B → A → option B) (b : B) (x : A)
    (l : list A) :
  foldlM step b (x :: l) = step b x ≫= λ b', foldlM step b' l.
Proof. reflexivity. Qed.

Lemma map_Forall_keys {V} (P : string → Prop) (m : gmap string V) :
  map_Forall (λ s _, P s) m ↔ Forall (λ kv, P kv.1) (map_to_list m).
Proof. rewrite map_Forall_to_list. apply Forall_iff. by intros [? ?]. Qed.

Lemma is_Parsed_inv (x : parsed) : is_Parsed x ↔ ∃ e, x = Parsed e.
Proof.
  destruct x; simpl; split; try done; try (by intros [? ?]).
  by eexists.
Qed.

(** *** The inner loop, [f[net_key] += net_mult*r] *)

Lemma accumulate_eq (r : expr) (f : gmap string expr) (k : string) (v : Z) :
  accumulate r f (k, v)
  = f !! k ≫= λ e, Some (<[k := Add e (Mul (Integer v) r)]> f).
Proof. reflexivity. Qed.

Lemma accumulate_fold_val (r : expr) (l : list (string * Z))
    (f f' : gmap string expr) :
  foldlM (accumulate r) f l = Some f' →
  ∀ (val : symbol → R) (n : string),
    dict_val val f' n
    = (λ v, v + of_Z (coeff_sum l n) * evals val r) <$> dict_val val f n.
Proof.
  revert f. induction l as [|[k v] l IH]; intros f Hrun val n.
  - injection Hrun as <-. unfold dict_val. simpl.
    destruct (f !! n) as [e|]; simpl; [|done].
    f_equal. change (coeff_sum [] n) with 0%Z. rewrite ?of_Z_0. ring.
  - rewrite foldlM_cons in Hrun.
    destruct (accumulate r f (k, v)) as [f1|] eqn:Hacc; [|done].
    unfold accumulate in Hacc. simpl in Hacc, Hrun.
    destruct (f !! k) as [e|] eqn:Hk; [|done]. injection Hacc as <-.
    rewrite (IH _ Hrun val n). unfold dict_val.
    rewrite lookup_insert. simpl.
    destruct (decide (k = n)) as [->|Hne]; simpl.
    + rewrite Hk. simpl. f_equal. fold (coeff_sum l n).
      rewrite of_Z_add. ring.
    + done.
Qed.

Lemma accumulate_fold_Some (r : expr) (l : list (string * Z))
    (f : gmap string expr) :
  is_Some (foldlM (accumulate r) f l)
  ↔ Forall (λ kv, is_Some (f !! kv.1)) l.
Proof.
  revert f. induction l as [|[k v] l IH]; intros f.
  - split; [constructor | by eexists].
  - rewrite foldlM_cons, Forall_cons, accumulate_eq.
    change ((k, v).1) with k.
    destruct (f !! k) as [e|] eqn:Hk; simpl.
    + rewrite IH. split.
      * intros HF. split; [by eexists|].
        eapply Forall_impl; [exact HF|]. intros [k' v'] Hs. simpl in *.
        rewrite lookup_insert in Hs.
        destruct (decide (k = k')) as [<-|]; [by rewrite Hk | done].
      * intros [_ HF]. eapply Forall_impl; [exact HF|].
        intros [k' v'] Hs. simpl in *. rewrite lookup_insert.
        destruct (decide (k = k')); [by eexists | done].
    + split; [by intros [? ?] | by intros [[? ?] _]].
Qed.

(** *** The rate expression *)

Lemma powers_Some (c : gmap string named) (m : gmap string nat) :
  is_Some (powers c m) ↔ map_Forall (λ s _, ∃ e, c !! s = Some (Single e)) m.
Proof.
  unfold powers. rewrite map_Forall_to_list.
  induction (map_to_list m) as [|[s p] l IH]; simpl.
  - split; [constructor | by eexists].
  - rewrite Forall_cons. simpl.
    destruct (c !! s) as [[e| |]|]; simpl;
      try (split; [by intros [? ?] | by intros [[? [=]] _]]).
    rewrite <- IH. destruct (mapM _ l); simpl.
    + split; [by split; eexists | by eexists].
    + split; [by intros [? ?] | by intros [_ [? ?]]].
Qed.

Lemma powers_val (names : list string) (m : gmap string nat)
    (factors : list expr) (val : symbol → R) :
  powers (dict_zip names (symbols names)) m = Some factors →
  evals val <$> factors
  = (λ item : string * nat, rpow (c_value val item.1) item.2)
      <$> map_to_list m.
Proof.
  unfold powers. revert factors.
  induction (map_to_list m) as [|[s p] l IH]; intros factors; simpl.
  - by intros [= <-].
  - destruct (dict_zip _ _ !! s) as [[e| |]|] eqn:Hs; simpl; try done.
    destruct (mapM _ l) as [fs|]; simpl; [|done].
    intros [= <-]. rewrite !fmap_cons. f_equal; [|by apply IH].
    rewrite dict_zip_lookup in Hs. case_decide; [|done].
    injection Hs as Hs. unfold c_value. by rewrite Hs.
Qed.

Lemma rate_val (names : list string) (rxn : reaction) (ke r : expr)
    (val : symbol → R) :
  sympify (coeff rxn) = Parsed ke →
  rate (dict_zip names (symbols names)) ke (r_stoich rxn) = Some r →
  evals val r = rate_value val rxn.
Proof.
  intros Hke. unfold rate.
  destruct (powers _ _) as [factors|] eqn:Hp; simpl; [|done].
  intros [= <-]. unfold rate_value, k_value. rewrite Hke. simpl.
  rewrite evals_prod. by rewrite (powers_val _ _ _ val Hp).
Qed.

Lemma rprod_Permutation (l l' : list R) : l ≡ₚ l' → rprod l = rprod l'.
Proof.
  unfold rprod. induction 1 as [|x l l' _ IH|x x' l|l l' l'' _ IH _ IH'];
    simpl; [done | by rewrite IH | ring | congruence].
Qed.

Lemma rprod_insert (env : string → R) (m : gmap string nat) (s : string)
    (p : nat) (names : list string) :
  NoDup names → s ∈ names → m !! s = None →
  rprod ((λ n, rpow (env n) (default 0%nat (<[s := p]> m !! n))) <$> names)
  = rpow (env s) p
    * rprod ((λ n, rpow (env n) (default 0%nat (m !! n))) <$> names).
Proof.
  intros Hnd Hs Hm. induction Hnd as [|n names Hn Hnd IH].
  - by apply elem_of_nil in Hs.
  - rewrite !fmap_cons. unfold rprod in *. cbn [foldr].
    destruct (decide (s = n)) as [<-|Hne].
    + rewrite lookup_insert_eq, Hm. cbn [default from_option id rpow].
      replace ((λ n, rpow (env n) (default 0%nat (<[s := p]> m !! n)))
                 <$> names)
        with ((λ n, rpow (env n) (default 0%nat (m !! n))) <$> names).
      * ring.
      * apply list_fmap_ext. intros i n Hi.
        rewrite lookup_insert_ne; [done|]. intros <-.
        apply Hn, list_elem_of_lookup. by exists i.
    + rewrite lookup_insert_ne by done.
      apply elem_of_cons in Hs as [?|Hs]; [done|]. rewrite (IH Hs). ring.
Qed.

(** The product over the reactants is the product over all the species. *)
Lemma rate_value_matrix_form (val : symbol → R) (names : list string)
    (rxn : reaction) :
  NoDup names → map_Forall (λ s _, s ∈ names) (r_stoich rxn) →
  rate_value val rxn = rate_matrix_form val names rxn.
Proof.
  intros Hnd. unfold rate_value, rate_matrix_form.
  generalize (r_stoich rxn). intros m Hm. f_equal.
  induction m as [|s p m Hs IH] using map_ind.
  - rewrite map_to_list_empty. unfold rprod at 1. cbn [fmap list_fmap foldr].
    clear Hm Hnd. induction names as [|n names IH]; [done|].
    rewrite fmap_cons. unfold rprod in *. cbn [foldr].
    rewrite <- IH, lookup_empty. cbn [default from_option id rpow]. ring.
  - apply map_Forall_insert in Hm as [Hin Hm]; [|done].
    rewrite (rprod_Permutation _ _
               (fmap_Permutation _ _ _ (map_to_list_insert m s p Hs))).
    rewrite fmap_cons. unfold rprod at 1. cbn [foldr fst snd].
    fold (rprod ((λ item : string * nat, rpow (c_value val item.1) item.2)
                   <$> map_to_list m)).
    rewrite (IH Hm). by rewrite (rprod_insert (c_value val)).
Qed.

(** *** The loop over the reactions *)

Lemma step_inv (names : list string) (st st' : gmap string expr * list expr)
    (rxn : reaction) :
  step (dict_zip names (symbols names)) st rxn = Some st' →
  ∃ ke, sympify (coeff rxn) = Parsed ke
    ∧ st'.2 = st.2 ++ [ke]
    ∧ ∀ (val : symbol → R) (n : string),
        dict_val val st'.1 n
        = (λ v, v + of_Z (net_coeff rxn n) * rate_value val rxn)
            <$> dict_val val st.1 n.
Proof.
  unfold step.
  destruct (sympify (coeff rxn)) as [ke| |] eqn:Hke; [|done|done].
  destruct (rate _ ke _) as [r|] eqn:Hr; simpl; [|done].
  destruct (foldlM _ _ _) as [f'|] eqn:Hf; simpl; [|done].
  intros [= <-]. exists ke. split; [done|]. split; [done|].
  intros val n. simpl.
  rewrite (accumulate_fold_val _ _ _ _ Hf val n).
  rewrite coeff_sum_lookup. by rewrite (rate_val _ _ _ _ val Hke Hr).
Qed.

Lemma step_Some (c : gmap string named) (st : gmap string expr * list expr)
    (rxn : reaction) :
  is_Some (step c st rxn)
  ↔ is_Parsed (sympify (coeff rxn))
    ∧ map_Forall (λ s _, ∃ e, c !! s = Some (Single e)) (r_stoich rxn)
    ∧ map_Forall (λ s _, is_Some (st.1 !! s)) (net_stoich rxn).
Proof.
  unfold step, rate. rewrite <- powers_Some.
  rewrite (map_Forall_keys (λ s, is_Some (st.1 !! s)) (net_stoich rxn)).
  destruct (sympify (coeff rxn)) as [ke| |]; simpl;
    try (split; [by intros [? ?] | by intros [[] _]]).
  destruct (powers c _) as [factors|]; simpl.
  - rewrite <- (accumulate_fold_Some (Mul ke (prod factors))).
    destruct (foldlM _ _ _); simpl.
    + split; [by repeat split; eexists | by eexists].
    + split; [by intros [? ?] | by intros (_ & _ & [? ?])].
  - split; [by intros [? ?] | by intros (_ & [? ?] & _)].
Qed.

Lemma run_inv (names : list string) (rxns : list reaction)
    (st st' : gmap string expr * list expr) :
  foldlM (step (dict_zip names (symbols names))) st rxns = Some st' →
  ∃ ks, Forall2 (λ rxn ke, sympify (coeff rxn) = Parsed ke) rxns ks
    ∧ st'.2 = st.2 ++ ks
    ∧ ∀ (val : symbol → R) (n : string),
        dict_val val st'.1 n
        = (λ v, v + mass_action val rxns n) <$> dict_val val st.1 n.
Proof.
  revert st. induction rxns as [|rxn rxns IH]; intros st Hrun.
  - injection Hrun as <-. exists []. split; [constructor|].
    split; [by rewrite app_nil_r|].
    intros val n. unfold mass_action, rsum. simpl.
    destruct (dict_val val st.1 n); simpl; [|done]. f_equal. ring.
  - rewrite foldlM_cons in Hrun.
    destruct (step _ st rxn) as [st1|] eqn:Hstep; [|done]. simpl in Hrun.
    apply step_inv in Hstep as (ke & Hke & Hk & Hf).
    apply IH in Hrun as (ks & Hks & Hk' & Hf'). exists (ke :: ks).
    split; [by constructor|]. split.
    + rewrite Hk', Hk, <- app_assoc. done.
    + intros val n. rewrite Hf', Hf.
      destruct (dict_val val st.1 n); simpl; [|done]. f_equal.
      unfold mass_action, rsum. rewrite fmap_cons. simpl. ring.
Qed.

Lemma dict_val_is_Some (val : symbol → R) (f : gmap string expr)
    (n : string) :
  is_Some (dict_val val f n) ↔ is_Some (f !! n).
Proof. unfold dict_val. by rewrite fmap_is_Some. Qed.

Lemma run_Some (names : list string) (rxns : list reaction)
    (st : gmap string expr * list expr) :
  (∀ n, is_Some (st.1 !! n) ↔ n ∈ names) →
  is_Some (foldlM (step (dict_zip names (symbols names))) st rxns)
  ↔ Forall (usable names) rxns.
Proof.
  revert st. induction rxns as [|rxn rxns IH]; intros st Hdom.
  - split; [constructor | by eexists].
  - rewrite foldlM_cons, Forall_cons.
    assert (Hiff : is_Some (step (dict_zip names (symbols names)) st rxn)
                   ↔ usable names rxn).
    { rewrite step_Some. unfold usable. split.
      - intros (Hp & Hr & Hn). split; [done|]. split.
        + intros s q Hs. destruct (Hr s q Hs) as [e He]. simpl in He.
          rewrite dict_zip_lookup in He. case_decide; [|done].
          injection He as He. split; [done | by rewrite He].
        + intros s q Hs. apply Hdom. by apply (Hn s q).
      - intros (Hp & Hr & Hn). split; [done|]. split.
        + intros s q Hs. destruct (Hr s q Hs) as [Hin He]. simpl.
          rewrite dict_zip_lookup, decide_True by done.
          destruct (symbols_of s) as [e| |]; [by exists e|done|done].
        + intros s q Hs. apply Hdom. by apply (Hn s q). }
    destruct (step _ st rxn) as [st1|] eqn:Hstep; simpl.
    + assert (Hu : usable names rxn) by (apply Hiff; by eexists).
      rewrite IH.
      * split; [by intros ? | by intros [_ ?]].
      * intros n. rewrite <- Hdom.
        apply step_inv in Hstep as (_ & _ & _ & Hf).
        rewrite <- !(dict_val_is_Some (λ _, rO)), Hf.
        by rewrite fmap_is_Some.
    + split; [by intros [? ?]|]. intros [Hu _].
      apply Hiff in Hu. by destruct Hu.
Qed.

(** *** The function as a whole *)

Lemma zeros_val (val : symbol → R) (names : list string) (n : string) :
  dict_val val (zeros names) n
  = if decide (n ∈ names) then Some rO else None.
Proof. unfold dict_val. rewrite zeros_lookup. by case_decide. Qed.

Lemma mk_exprs_symbs_inv (rxns : list reaction) (names : list string)
    (ydot : list expr) (symbs : list named) (k : list expr) :
  mk_exprs_symbs rxns names = Some (ydot, symbs, k) →
  symbs = symbols names
  ∧ Forall2 (λ rxn ke, sympify (coeff rxn) = Parsed ke) rxns k
  ∧ Forall2 (λ n e, ∀ val : symbol → R,
               evals val e = mass_action val rxns n) names ydot.
Proof.
  unfold mk_exprs_symbs. case_decide; [done|].
  destruct (foldlM _ _ rxns) as [st|] eqn:Hrun; simpl; [|done].
  destruct (mapM _ names) as [ydot'|] eqn:Hm; simpl; [|done].
  intros [= <- <- <-]. apply run_inv in Hrun as (ks & Hks & Hk & Hf).
  split; [done|]. split; [by rewrite Hk|].
  apply mapM_Some_1 in Hm. eapply Forall2_impl; [exact Hm|].
  intros n e Hn val. specialize (Hf val n). simpl in Hf.
  unfold dict_val at 1 in Hf. rewrite Hn, zeros_val in Hf. simpl in Hf.
  case_decide; simpl in Hf; [|done]. injection Hf as ->. ring.
Qed.

Lemma mk_exprs_symbs_Some (rxns : list reaction) (names : list string) :
  is_Some (mk_exprs_symbs rxns names)
  ↔ (Invalid ∉ symbols names) ∧ Forall (usable names) rxns.
Proof.
  assert (Hdom : ∀ n, is_Some ((zeros names, @nil expr).1 !! n) ↔ n ∈ names).
  { intros n. simpl. rewrite zeros_lookup.
    case_decide.
    - split; [done | by eexists].
    - split; [by intros [? ?] | done]. }
  rewrite <- (run_Some names rxns _ Hdom). unfold mk_exprs_symbs.
  case_decide as Hinv; [split; [by intros [? ?] | by intros [? _]]|].
  destruct (foldlM _ _ rxns) as [st|] eqn:Hrun; simpl.
  - split; [by split; [|eexists]|]. intros _.
    apply run_inv in Hrun as (_ & _ & _ & Hf).
    assert (Hm : is_Some (mapM (λ n, st.1 !! n) names)).
    { apply mapM_is_Some, Forall_forall. intros n Hn. simpl.
      rewrite <- (dict_val_is_Some (λ _, rO)), Hf. cbn [fst].
      rewrite zeros_val, decide_True by done. by eexists. }
    destruct Hm as [ydot ->]. by eexists.
  - split; [by intros [? ?] | by intros [_ [? ?]]].
Qed.

(** Declared species, names that are read as one symbol each and strings
    of rate constants that parse are all that the loop needs. *)
Lemma usable_intro (rxns : list reaction) (names : list string) :
  species_declared rxns names → plain_names names → coeffs_parsed rxns →
  (Invalid ∉ symbols names) ∧ Forall (usable names) rxns.
Proof.
  unfold species_declared, plain_names, coeffs_parsed.
  intros Hdecl Hplain Hparsed. rewrite Forall_forall in Hplain. split.
  - unfold symbols. intros (n & Hn & Hin)%list_elem_of_fmap.
    rewrite (Hplain n Hin) in Hn. done.
  - rewrite Forall_forall in Hdecl, Hparsed. apply Forall_forall.
    intros rxn Hrxn. destruct (Hdecl rxn Hrxn) as [Hr Hn].
    split; [by apply Hparsed|]. split; [|done].
    intros s q Hs. split; [by apply (Hr s q)|].
    rewrite (Hplain s); [done|]. by apply (Hr s q).
Qed.

(** *** Weighted sums of the derivatives *)

Lemma weighted_rhs_nil (val : symbol → R) (l : list (Z * string)) :
  weighted_rhs val [] l = rO.
Proof.
  unfold weighted_rhs. induction l as [|[w n] l IH]; [done|].
  cbn [foldr fst snd]. rewrite IH. unfold mass_action, rsum. simpl. ring.
Qed.

Lemma mass_action_cons (val : symbol → R) (rxn : reaction)
    (rxns : list reaction) (n : string) :
  mass_action val (rxn :: rxns) n
  = of_Z (net_coeff rxn n) * rate_value val rxn + mass_action val rxns n.
Proof. reflexivity. Qed.

Lemma mass_action_app (val : symbol → R) (rxns1 rxns2 : list reaction)
    (n : string) :
  mass_action val (rxns1 ++ rxns2) n
  = mass_action val rxns1 n + mass_action val rxns2 n.
Proof. unfold mass_action. by rewrite fmap_app, rsum_app. Qed.

Lemma weighted_rhs_cons (val : symbol → R) (rxn : reaction)
    (rxns : list reaction) (l : list (Z * string)) :
  weighted_rhs val (rxn :: rxns) l
  = of_Z (foldr (λ wn acc, wn.1 * net_coeff rxn wn.2 + acc)%Z 0%Z l)
      * rate_value val rxn
    + weighted_rhs val rxns l.
Proof.
  unfold weighted_rhs. induction l as [|[w n] l IH].
  - cbn [foldr]. rewrite of_Z_0. ring.
  - cbn [foldr fst snd]. rewrite IH, mass_action_cons, of_Z_add, of_Z_mul.
    ring.
Qed.

Lemma weighted_rhs_closed (val : symbol → R) (rxns : list reaction)
    (names : list string) (w : list Z) :
  closed_network rxns names w →
  weighted_rhs val rxns (zip w names) = rO.
Proof.
  unfold closed_network, weighted_net.
  induction 1 as [|rxn rxns Hrxn _ IH].
  - apply weighted_rhs_nil.
  - rewrite weighted_rhs_cons, Hrxn, IH, of_Z_0. ring.
Qed.

Lemma weighted_sum_val (val : symbol → R) (rxns : list reaction)
    (names : list string) (ydot : list expr) (w : list Z) :
  Forall2 (λ n e, ∀ val : symbol → R,
             evals val e = mass_action val rxns n) names ydot →
  evals val (weighted_sum w ydot) = weighted_rhs val rxns (zip w names).
Proof.
  unfold weighted_sum, weighted_rhs. intros HF. revert w.
  induction HF as [|n e names ydot Hne _ IH]; intros w.
  - by destruct w.
  - destruct w as [|wi w]; [done|].
    cbn [zip zip_with foldr fst snd evals]. by rewrite IH, Hne.
Qed.

(** *** What [mk_exprs_symbs] returns *)

(** C1, as amended.  On the inputs on which no statement of
    [mk_exprs_symbs] raises, namely when [sym.symbols] accepts every name
    of the species list and every reaction has a rate constant whose
    string [sym.S] parses to an expression, reactants that are in the
    species list under names that [sym.symbols] reads as one symbol, and
    species in its net stoichiometry that are in the species list, the
    function returns: what [sym.symbols] made of the names, the
    expressions of the rate constants, and for each species a derivative
    expression that is the law of mass action, the sum over the reactions
    of the net stoichiometric coefficient of the species times the rate
    [k * prod c^p] of the reaction, where [k] is the expression of the
    rate constant and [c] the symbol of a reactant. *)
Theorem mk_exprs_symbs_mass_action (rxns : list reaction)
    (names : list string) :
  (Invalid ∉ symbols names) → Forall (usable names) rxns →
  ∃ ydot k,
    mk_exprs_symbs rxns names = Some (ydot, symbols names, k)
    ∧ Forall2 (λ rxn ke, sympify (coeff rxn) = Parsed ke) rxns k
    ∧ Forall2 (λ n e, ∀ val : symbol → R,
                 evals val e = mass_action val rxns n) names ydot.
Proof.
  intros Hinv Hu.
  destruct (proj2 (mk_exprs_symbs_Some rxns names) (conj Hinv Hu))
    as [[[ydot symbs] k] Hmk].
  destruct (mk_exprs_symbs_inv _ _ _ _ _ Hmk) as (-> & Hk & HF).
  by exists ydot, k.
Qed.

(** The same for species names that are read as the symbols of these
    names: the concentration of a species is the value of its symbol. *)
Corollary mk_exprs_symbs_plain (rxns : list reaction)
    (names : list string) :
  species_declared rxns names → plain_names names → coeffs_parsed rxns →
  ∃ ydot k,
    mk_exprs_symbs rxns names = Some (ydot, symbols names, k)
    ∧ symbols names = (λ n, Single (Symbol n real_nonnegative)) <$> names
    ∧ Forall2 (λ rxn ke, sympify (coeff rxn) = Parsed ke) rxns k
    ∧ Forall2 (λ n e, ∀ val : symbol → R,
                 evals val e
                 = rsum ((λ rxn,
                            of_Z (net_coeff rxn n)
                            * (k_value val rxn
                               * rprod ((λ item : string * nat,
                                           rpow (val (item.1,
                                                      real_nonnegative))
                                                item.2)
                                          <$> map_to_list (r_stoich rxn))))
                           <$> rxns)) names ydot.
Proof.
  intros Hdecl Hplain Hparsed.
  destruct (proj2 (mk_exprs_symbs_Some rxns names)
              (usable_intro _ _ Hdecl Hplain Hparsed))
    as [[[ydot symbs] k] Hmk].
  destruct (mk_exprs_symbs_inv _ _ _ _ _ Hmk) as (-> & Hk & HF).
  exists ydot, k. split; [done|]. split; [|split; [done|]].
  - unfold symbols. apply list_fmap_ext. intros i n Hn.
    unfold plain_names in Hplain. rewrite Forall_forall in Hplain.
    apply Hplain, list_elem_of_lookup. by exists i.
  - eapply Forall2_impl; [exact HF|]. intros n e He val. rewrite He.
    unfold mass_action. f_equal. apply list_fmap_ext. intros i rxn Hi.
    f_equal. unfold rate_value. f_equal. f_equal.
    apply list_fmap_ext. intros i' [s q] Hs. cbn [fst snd]. f_equal.
    unfold c_value.
    unfold species_declared in Hdecl. unfold plain_names in Hplain.
    rewrite Forall_forall in Hdecl. rewrite Forall_forall in Hplain.
    destruct (Hdecl rxn) as [Hr _]; [apply list_elem_of_lookup; by exists i|].
    rewrite (Hplain s); [done|]. apply (Hr s q).
    apply elem_of_map_to_list, list_elem_of_lookup. by exists i'.
Qed.

(** C4.  The triple that [mk_exprs_symbs] returns is ordered: there is one
    derivative expression per species name, the i-th one being the
    derivative of the i-th species; the i-th entry of the symbols is what
    [sym.symbols] makes of the i-th name; and the j-th entry of the rate
    constants is what [sym.S] makes of the string of the j-th reaction. *)
Theorem mk_exprs_symbs_ordered (rxns : list reaction) (names : list string)
    (ydot : list expr) (symbs : list named) (k : list expr) :
  mk_exprs_symbs rxns names = Some (ydot, symbs, k) →
  length ydot = length names
  ∧ (∀ i n, names !! i = Some n →
       ∃ e, ydot !! i = Some e
            ∧ ∀ val : symbol → R, evals val e = mass_action val rxns n)
  ∧ length symbs = length names
  ∧ (∀ i, symbs !! i = symbols_of <$> names !! i)
  ∧ length k = length rxns
  ∧ (∀ j rxn, rxns !! j = Some rxn →
       ∃ ke, k !! j = Some ke ∧ sympify (coeff rxn) = Parsed ke).
Proof.
  intros Hmk. destruct (mk_exprs_symbs_inv _ _ _ _ _ Hmk) as (-> & Hk & HF).
  split; [symmetry; by eapply Forall2_length|].
  split.
  { intros i n Hn.
    destruct (Forall2_lookup_l _ _ _ _ _ HF Hn) as (e & He & Hval).
    by exists e. }
  unfold symbols. rewrite !length_fmap.
  split; [done|]. split; [intros; by rewrite list_lookup_fmap|].
  split; [symmetry; by eapply Forall2_length|].
  intros j rxn Hj.
  destruct (Forall2_lookup_l _ _ _ _ _ Hk Hj) as (ke & Hke & Hp).
  by exists ke.
Qed.


(** C10.  A reaction without reactants has the rate expression [k*1],
    whose value is that of the expression [k] of its rate constant alone;
    and the function as a whole, on the inputs on which none of its
    statements raises, returns derivatives to which the reaction
    contributes its net stoichiometric coefficient times [k], for every
    species. *)
Theorem zeroth_order_rate (rxn : reaction) (ke : expr) :
  r_stoich rxn = ∅ → sympify (coeff rxn) = Parsed ke →
  (∀ c, rate c ke (r_stoich rxn) = Some (Mul ke (Integer 1)))
  ∧ (∀ val : symbol → R, evals val (Mul ke (Integer 1)) = evals val ke)
  ∧ (∀ pre post names,
       (Invalid ∉ symbols names) →
       Forall (usable names) (pre ++ rxn :: post) →
       ∃ ydot k,
         mk_exprs_symbs (pre ++ rxn :: post) names
         = Some (ydot, symbols names, k)
         ∧ k !! length pre = Some ke
         ∧ Forall2 (λ n e, ∀ val : symbol → R,
                      evals val e
                      = mass_action val (pre ++ post) n
                        + of_Z (net_coeff rxn n) * evals val ke)
                   names ydot).
Proof.
  intros Hempty Hke.
  assert (Hrate : ∀ val : symbol → R, rate_value val rxn = evals val ke).
  { intros val. unfold rate_value, k_value.
    rewrite Hke, Hempty, map_to_list_empty. unfold rprod. simpl. ring. }
  split; [|split].
  - intros c. unfold rate, powers. by rewrite Hempty, map_to_list_empty.
  - intros val. cbn [evals]. rewrite of_Z_1. ring.
  - intros pre post names Hinv Hu.
    destruct (proj2 (mk_exprs_symbs_Some (pre ++ rxn :: post) names)
                (conj Hinv Hu))
      as [[[ydot symbs] k] Hmk].
    destruct (mk_exprs_symbs_inv _ _ _ _ _ Hmk) as (-> & Hk & HF).
    exists ydot, k. split; [done|]. split.
    + assert (Hl : (pre ++ rxn :: post) !! length pre = Some rxn)
        by apply list_lookup_middle, eq_refl.
      destruct (Forall2_lookup_l _ _ _ _ _ Hk Hl) as (ke' & -> & Hke').
      simpl in Hke'. congruence.
    + eapply Forall2_impl; [exact HF|]. intros n e He val.
      rewrite He, !mass_action_app, mass_action_cons, Hrate. ring.
Qed.
End SymbolicConstrFacts.

Section SymbolicConstrExamples.
Existing Instance stand_in.

(** Robertson's system at [A = 2], [B = 3], [C = 5] with the rate
    constants 7, 11 and 13: [r1 = 14], [r2 = 165], [r3 = 117], and the
    derivatives are [r2 - r1], [r1 - r2 - r3] and [r3]. *)
Example robertson_rhs :
  let env (s : string) : Z :=
    if decide (s = "A") then 2 else if decide (s = "B") then 3
    else if decide (s = "C") then 5 else if decide (s = "k1") then 7
    else if decide (s = "k2") then 11 else 13 in
  (λ r : list expr * list named * list expr, eval env <$> r.1.1)
    <$> mk_exprs_symbs robertson ["A"; "B"; "C"]
  = Some [151; -268; 117].
Proof. vm_compute. reflexivity. Qed.

(** The reaction below names a species, [B], that the species list lacks:
    [f['B']] raises [KeyError] and nothing is returned. *)
Lemma mk_exprs_symbs_undeclared_species :
  mk_exprs_symbs [Rxn "k1" {[ "A" := 1%nat ]} {[ "B" := 1; "A" := -1 ]}]
                 ["A"] = None.
Proof. vm_compute. reflexivity. Qed.

(** A rate constant of the name [lambda], which [sym.S] refuses: nothing
    is returned. *)
Example mk_exprs_symbs_reserved_word :
  mk_exprs_symbs [Rxn "lambda" {[ "A" := 1%nat ]} {[ "A" := -1 ]}] ["A"]
  = None.
Proof. vm_compute. reflexivity. Qed.

(** A rate constant that is a number: the entry of [k] is the integer,
    and no symbol. *)
Example mk_exprs_symbs_number :
  mk_exprs_symbs [Rxn "2" {[ "A" := 1%nat ]} {[ "A" := -1 ]}] ["A"]
  = Some ([Add (Integer 0)
             (Mul (Integer (-1))
                (Mul (Integer 2) (Pow (Symbol "A" real_nonnegative) 1)))],
          [Single (Symbol "A" real_nonnegative)], [Integer 2]).
Proof. vm_compute. reflexivity. Qed.

(** A name that [sym.symbols] reads as two: its entry is a tuple, and a
    reaction that consumes it raises at [c[rk]**p]. *)
Example mk_exprs_symbs_tuple :
  mk_exprs_symbs [] ["A B"] = Some ([Integer 0], [Several], [])
  ∧ mk_exprs_symbs [Rxn "k" {[ "A B" := 1%nat ]} ∅] ["A B"] = None.
Proof. split; vm_compute; reflexivity. Qed.

Lemma mk_exprs_symbs_mass_action_witness :
  ∃ ydot k,
    mk_exprs_symbs robertson ["A"; "B"; "C"]
    = Some (ydot, symbols ["A"; "B"; "C"], k)
    ∧ Forall2 (λ rxn ke, sympify (coeff rxn) = Parsed ke) robertson k
    ∧ Forall2 (λ n e, ∀ val : symbol → Z,
                 evals val e = mass_action val robertson n)
              ["A"; "B"; "C"] ydot.
Proof.
  apply (mk_exprs_symbs_mass_action (R:=Z) robertson ["A"; "B"; "C"]).
  - apply (bool_decide_unpack _). vm_compute. exact I.
  - apply (bool_decide_unpack _). vm_compute. exact I.
Defined.

Lemma mk_exprs_symbs_ordered_witness :
  ∃ ydot symbs k,
    mk_exprs_symbs robertson ["A"; "B"; "C"] = Some (ydot, symbs, k)
    ∧ length ydot = 3%nat
    ∧ symbs = [Single (Symbol "A" real_nonnegative);
               Single (Symbol "B" real_nonnegative);
               Single (Symbol "C" real_nonnegative)]
    ∧ k = [Symbol "k1" no_assumptions; Symbol "k2" no_assumptions;
           Symbol "k3" no_assumptions]
    ∧ ∀ i n, ["A"; "B"; "C"] !! i = Some n →
        ∃ e, ydot !! i = Some e
             ∧ ∀ val : symbol → Z,
                 evals val e = mass_action val robertson n.
Proof.
  eexists _, _, _. split; [vm_compute; reflexivity|].
  split; [reflexivity|]. split; [reflexivity|]. split; [reflexivity|].
  refine (proj1 (proj2 (mk_exprs_symbs_ordered (R:=Z) robertson
                          ["A"; "B"; "C"] _ _ _ _))).
  vm_compute. reflexivity.
Defined.


(** Robertson's system with the zeroth-order reaction as its second
    one. *)
Lemma zeroth_order_rate_witness :
  rate ∅ (Symbol "k0" no_assumptions) (r_stoich zeroth_order)
  = Some (Mul (Symbol "k0" no_assumptions) (Integer 1))
  ∧ ∃ ydot k,
      mk_exprs_symbs (take 1 robertson ++ zeroth_order :: drop 1 robertson)
                     ["A"; "B"; "C"]
      = Some (ydot, symbols ["A"; "B"; "C"], k)
      ∧ k !! 1%nat = Some (Symbol "k0" no_assumptions)
      ∧ Forall2 (λ n e, ∀ val : symbol → Z,
                   evals val e
                   = radd (mass_action val
                             (take 1 robertson ++ drop 1 robertson) n)
                          (rmul (of_Z (net_coeff zeroth_order n))
                                (val ("k0", no_assumptions))))
                ["A"; "B"; "C"] ydot.
Proof.
  destruct (zeroth_order_rate (R:=Z) zeroth_order
              (Symbol "k0" no_assumptions))
    as (Hr & _ & Hmk); [reflexivity | vm_compute; reflexivity |].
  split; [apply Hr|].
  apply (Hmk (take 1 robertson) (drop 1 robertson) ["A"; "B"; "C"]).
  - apply (bool_decide_unpack _). vm_compute. exact I.
  - apply (bool_decide_unpack _). vm_compute. exact I.
Defined.
End SymbolicConstrExamples.

(** ** [integrate_vode] *)

Section IntegrateVodeFacts.
Import StateExn OdesysVode.
Context {T St : Type} {sys : ODEsys T} {solver : Ode T St}.
Context (zero : T).

Lemma bind_inv {W A B} (m : M W A) (k : A → M W B) (w w' : W)
    (res : result B) :
  (m ≫= k) w = (res, w') →
  (∃ a w1, m w = (Ok a, w1) ∧ k a w1 = (res, w'))
  ∨ (∃ e, m w = (Raise e, w') ∧ res = Raise e).
Proof.
  unfold mbind, M_bind. destruct (m w) as [[a|e] w1]; intros Heq.
  - left. by exists a, w1.
  - right. injection Heq as <- <-. by exists e.
Qed.

Lemma times_snoc (c x : invocation) (l : list invocation) :
  times c (l ++ [x]) = (times c l + if decide (x = c) then 1 else 0)%nat.
Proof.
  unfold times. rewrite filter_app, length_app. f_equal.
  rewrite filter_cons, filter_nil. by case_decide.
Qed.

Lemma f_counted (args : list (list T)) (t : T) (y : list T)
    (w w' : world St) (res : result (list T)) :
  f args t y w = (res, w') →
  (counted w → counted w') ∧ visited w' = visited w.
Proof.
  unfold f, invoke_f_eval, mbind, M_bind, modify, lift. simpl.
  intros [= <- <-].
  split; [|done]. unfold counted. simpl. intros [-> ->].
  rewrite !times_snoc. simpl. lia.
Qed.

Lemma j_counted (args : list (list T)) (t : T) (y : list T)
    (w w' : world St) (res : result (list (list T))) :
  j args t y w = (res, w') →
  (counted w → counted w') ∧ visited w' = visited w.
Proof.
  unfold j, invoke_j_eval, mbind, M_bind, modify, lift. simpl.
  intros [= <- <-].
  split; [|done]. unfold counted. simpl. intros [-> ->].
  rewrite !times_snoc. simpl. lia.
Qed.

Lemma serve_counted {A} (args : list (list T)) (m : request T A)
    (w w' : world St) (res : result A) :
  serve args m w = (res, w') →
  (counted w → counted w') ∧ visited w' = visited w.
Proof.
  revert w. induction m as [a|e|t y k IH|t y k IH]; intros w; cbn [serve].
  - simpl. by intros [= <- <-].
  - simpl. by intros [= <- <-].
  - destruct (f args t y w) as [out w1] eqn:Hf. simpl. intros Hk.
    apply f_counted in Hf as [Hc Hv]. apply IH in Hk as [Hc' Hv'].
    split; [auto | congruence].
  - destruct (j args t y w) as [out w1] eqn:Hj. simpl. intros Hk.
    apply j_counted in Hj as [Hc Hv]. apply IH in Hk as [Hc' Hv'].
    split; [auto | congruence].
Qed.

(** A call of [r.integrate] is served by the methods of the system: it
    ends as it does when the methods answer the requests, each request
    counts in the counter of its closure, and the record gets the calls
    of the methods, in order. *)
Lemma serve_answered {A} (args : list (list T)) (m : request T A)
    (w : world St) :
  serve args m w
  = ((answered args m).1,
     World (f_ncall w + times F_eval (answered args m).2)
           (j_ncall w + times J_eval (answered args m).2)
           (invoked w ++ (answered args m).2) (visited w)).
Proof.
  revert w. induction m as [a|e|t y k IH|t y k IH]; intros [fn jn inv vis];
    cbn [serve answered].
  - simpl. unfold times. simpl. by rewrite !Nat.add_0_r, app_nil_r.
  - simpl. unfold raise, times. simpl.
    by rewrite !Nat.add_0_r, app_nil_r.
  - unfold f, invoke_f_eval, mbind, M_bind, modify, lift. simpl.
    rewrite IH. simpl. f_equal. unfold times.
    rewrite !filter_cons. rewrite decide_True by done.
    rewrite decide_False by done. simpl.
    rewrite <- app_assoc. simpl. f_equal; lia.
  - unfold j, invoke_j_eval, mbind, M_bind, modify, lift. simpl.
    rewrite IH. simpl. f_equal. unfold times.
    rewrite !filter_cons. rewrite decide_False by done.
    rewrite decide_True by done. simpl.
    rewrite <- app_assoc. simpl. f_equal; lia.
Qed.

(** *** One pass of the loop *)

Lemma loop_cons_inv (args : list (list T)) (idx : nat) (t : T)
    (ts : list T) (r : St) (yout : list (list T)) (w w' : world St)
    (res : result (list (list T))) :
  loop args idx (t :: ts) r yout w = (res, w') →
  (∃ e, serve args (integrate r t) w = (Raise e, w') ∧ res = Raise e)
  ∨ ∃ r' w1, serve args (integrate r t) w = (Ok r', w1)
      ∧ ((successful r' = false ∧ res = Raise failed ∧ w' = stepped w1 r')
         ∨ (successful r' = true
            ∧ ∃ e, set_row idx (ode_y r') yout = Raise e
                   ∧ res = Raise e ∧ w' = stepped w1 r')
         ∨ (successful r' = true
            ∧ ∃ yout', set_row idx (ode_y r') yout = Ok yout'
                       ∧ loop args (S idx) ts r' yout'
                              (stepped w1 r') = (res, w'))).
Proof.
  cbn [loop].
  intros [(r' & w1 & Hs & Hk)|(e & Hs & ->)]%bind_inv; [|left; by exists e].
  right. exists r', w1. split; [done|].
  apply bind_inv in Hk as [([] & w2 & Hm & Hk)|(e & Hm & _)];
    [|by unfold modify in Hm].
  unfold modify in Hm. injection Hm as <-. fold (stepped w1 r') in Hk.
  destruct (successful r') eqn:Hsucc.
  - right.
    apply bind_inv in Hk as [(yout' & w3 & Hl & Hk)|(e & Hl & ->)];
      unfold lift in Hl; injection Hl as Hl <-.
    + right. split; [done|]. by exists yout'.
    + left. split; [done|]. by exists e.
  - left. unfold raise in Hk. by injection Hk as <- <-.
Qed.

Lemma loop_counted (args : list (list T)) (idx : nat) (ts : list T)
    (r : St) (yout : list (list T)) (w w' : world St)
    (res : result (list (list T))) :
  loop args idx ts r yout w = (res, w') → counted w → counted w'.
Proof.
  revert idx r yout w. induction ts as [|t ts IH]; intros idx r yout w.
  - by intros [= <- <-].
  - intros [(e & Hs & _)
           |(r' & w1 & Hs & [(_ & _ & ->)
                            |[(_ & e & _ & _ & ->)
                             |(_ & yout' & _ & Hl)]])]%loop_cons_inv Hc;
      apply serve_counted in Hs as [Hs _]; specialize (Hs Hc); try done.
    by apply IH in Hl.
Qed.

Lemma loop_calls (args : list (list T)) (idx : nat) (ts : list T)
    (r : St) (yout out : list (list T)) (w w' : world St) :
  loop args idx ts r yout w = (Ok out, w') →
  invoked w' = invoked w ++ calls args r ts.
Proof.
  revert idx r yout w. induction ts as [|t ts IH]; intros idx r yout w.
  - intros [= <- <-]. simpl. by rewrite app_nil_r.
  - intros [(e & _ & [=])
           |(r' & w1 & Hs & [(_ & [=] & _)
                            |[(_ & e & _ & [=] & _)
                             |(Hsucc & yout' & _ & Hl)]])]%loop_cons_inv.
    rewrite serve_answered in Hs. injection Hs as Hres <-.
    apply IH in Hl. rewrite Hl. cbn [calls invoked stepped].
    rewrite Hres, Hsucc. by rewrite <- app_assoc.
Qed.

(** *** Failure of a step *)

Lemma loop_checked (args : list (list T)) (idx : nat) (ts : list T)
    (r : St) (yout : list (list T)) (w w' : world St)
    (res : result (list (list T))) :
  loop args idx ts r yout w = (res, w') →
  Forall (λ r, successful r = true) (visited w) →
  (Exists (λ r, successful r = false) (visited w') → res = Raise failed)
  ∧ (∀ out, res = Ok out →
       Forall (λ r, successful r = true) (visited w')
       ∧ length (visited w') = (length (visited w) + length ts)%nat).
Proof.
  assert (Hno : ∀ l : list St, Forall (λ r, successful r = true) l →
                  ¬ Exists (λ r, successful r = false) l).
  { intros l HF HE. apply Exists_exists in HE as (x & Hx & Hfail).
    rewrite Forall_forall in HF. specialize (HF x Hx). congruence. }
  revert idx r yout w. induction ts as [|t ts IH]; intros idx r yout w.
  - intros [= <- <-] HF. split; [by intros ?%Hno|].
    intros out _. split; [done | simpl; lia].
  - intros [(e & Hs & ->)
           |(r' & w1 & Hs & [(Hsucc & -> & ->)
                            |[(Hsucc & e & _ & -> & ->)
                             |(Hsucc & yout' & _ & Hl)]])]%loop_cons_inv HF;
      apply serve_counted in Hs as [_ Hv].
    + rewrite Hv. split; [by intros ?%Hno | done].
    + split; [done | done].
    + assert (HF' : Forall (λ r, successful r = true)
                      (visited (stepped w1 r'))).
      { simpl. rewrite Hv. apply Forall_app. split; [done|].
        by apply Forall_singleton. }
      split; [by intros ?%Hno | done].
    + assert (HF' : Forall (λ r, successful r = true)
                      (visited (stepped w1 r'))).
      { simpl. rewrite Hv. apply Forall_app. split; [done|].
        by apply Forall_singleton. }
      destruct (IH _ _ _ _ Hl HF') as [HE Hok]. split; [done|].
      intros out Hout. destruct (Hok out Hout) as [? Hlen].
      split; [done|]. rewrite Hlen. simpl. rewrite Hv, length_app.
      simpl. lia.
Qed.

(** A step that reports failure raises at once: no row is written and no
    further step is made. *)
Lemma loop_raises_on_failure (args : list (list T)) (idx : nat) (t : T)
    (ts : list T) (r r' : St) (yout : list (list T)) (w w1 : world St) :
  serve args (integrate r t) w = (Ok r', w1) →
  successful r' = false →
  loop args idx (t :: ts) r yout w = (Raise failed, stepped w1 r').
Proof.
  intros Hs Hfail. cbn [loop]. unfold mbind at 1, M_bind at 1.
  rewrite Hs. unfold mbind, M_bind, modify, raise. by rewrite Hfail.
Qed.

(** *** The state matrix *)

Lemma set_row_inv (idx : nat) (v : list T) (a a' : list (list T)) :
  set_row idx v a = Ok a' →
  length a' = length a
  ∧ (∀ n, Forall (λ row, length row = n) a →
          Forall (λ row, length row = n) a')
  ∧ (∀ i, i ≠ idx → a' !! i = a !! i).
Proof.
  unfold set_row. destruct (a !! idx) as [old|] eqn:Hold; [|done].
  assert (Hins : ∀ row, length row = length old →
            length (<[idx := row]> a) = length a
            ∧ (∀ n, Forall (λ row, length row = n) a →
                    Forall (λ row, length row = n) (<[idx := row]> a))
            ∧ (∀ i, i ≠ idx → <[idx := row]> a !! i = a !! i)).
  { intros row Hrow. split; [by rewrite length_insert|]. split.
    - intros n HF. apply Forall_insert; [done|].
      rewrite Hrow. by apply (Forall_lookup_1 _ _ _ _ HF Hold).
    - intros i Hi. by rewrite list_lookup_insert_ne. }
  case_decide as Hlen.
  - intros [= <-]. by apply Hins.
  - destruct v as [|x [|? ?]]; [done| |done].
    intros [= <-]. apply Hins. by rewrite length_replicate.
Qed.

Lemma loop_shape (args : list (list T)) (idx : nat) (ts : list T)
    (r : St) (yout out : list (list T)) (w w' : world St) :
  loop args idx ts r yout w = (Ok out, w') →
  (1 ≤ idx)%nat →
  length out = length yout
  ∧ (∀ n, Forall (λ row, length row = n) yout →
          Forall (λ row, length row = n) out)
  ∧ out !! 0%nat = yout !! 0%nat.
Proof.
  revert idx r yout w. induction ts as [|t ts IH]; intros idx r yout w.
  - by intros [= <- <-].
  - intros [(e & _ & [=])
           |(r' & w1 & _ & [(_ & [=] & _)
                           |[(_ & e & _ & [=] & _)
                            |(_ & yout' & Hset & Hl)]])]%loop_cons_inv Hidx.
    apply set_row_inv in Hset as (Hlen & Hrows & Hother).
    apply IH in Hl as (Hlen' & Hrows' & H0); [|lia].
    split; [congruence|]. split; [auto|].
    rewrite H0. apply Hother. lia.
Qed.

(** *** What [integrate_vode] returns *)

Lemma integrate_vode_inv (tout y0 params : list T) (w' : world St)
    (res : result (list (list T) * info)) :
  integrate_vode zero tout y0 params = (res, w') →
  (tout = [] ∧ res = Raise IndexError ∧ w' = fresh)
  ∨ ∃ t0 args res',
      tout !! 0%nat = Some t0
      ∧ loop args 1 (drop 1 tout) (set_initial_value y0 t0)
          (<[0%nat := y0]>
             (replicate (length tout) (replicate (length y0) zero)))
          fresh = (res', w')
      ∧ res = match res' with
              | Ok yout => Ok (yout, Info (f_ncall w') (j_ncall w'))
              | Raise e => Raise e
              end.
Proof.
  unfold integrate_vode. destruct tout as [|t0 tout].
  - intros [= <- <-]. by left.
  - intros Hrun. right. exists t0. eexists _.
    unfold mbind at 1, M_bind at 1, lift at 1 in Hrun.
    unfold set_row in Hrun. cbn [length replicate lookup list_lookup] in Hrun.
    rewrite length_replicate, decide_True in Hrun by done.
    cbn [insert list_insert] in Hrun.
    unfold mbind at 1, M_bind at 1, lift at 1, index in Hrun.
    cbn [lookup list_lookup] in Hrun.
    unfold mbind at 1, M_bind at 1, lift at 1, index in Hrun.
    cbn [lookup list_lookup] in Hrun.
    unfold mbind at 1, M_bind at 1 in Hrun.
    destruct (loop _ 1 _ _ _ fresh) as [[yout|e] w1] eqn:Hl.
    + unfold mbind, M_bind, get, mret, M_ret in Hrun.
      injection Hrun as <- <-. exists (Ok yout). split; [done|].
      split; [exact Hl | done].
    + injection Hrun as <- <-. exists (Raise e). split; [done|].
      split; [exact Hl | done].
Qed.

Lemma integrate_vode_cons (t0 : T) (ts y0 params : list T) :
  integrate_vode zero (t0 :: ts) y0 params
  = let out := loop (match params with [] => [] | _ => [params] end) 1 ts
                    (set_initial_value y0 t0)
                    (y0 :: replicate (length ts) (replicate (length y0) zero))
                    fresh in
    (match out.1 with
     | Ok yout => Ok (yout, Info (f_ncall out.2) (j_ncall out.2))
     | Raise e => Raise e
     end, out.2).
Proof.
  unfold integrate_vode. cbn [length replicate drop].
  unfold mbind at 1, M_bind at 1, lift at 1.
  unfold set_row. cbn [lookup list_lookup].
  rewrite length_replicate, decide_True by done.
  cbn [insert list_insert].
  unfold mbind at 1, M_bind at 1, lift at 1, index.
  cbn [lookup list_lookup].
  unfold mbind at 1, M_bind at 1, lift at 1, index.
  cbn [lookup list_lookup].
  unfold mbind at 1, M_bind at 1.
  by destruct (loop _ 1 _ _ _ fresh) as [[out|e] w1].
Qed.

(** C3.  Whenever a step of the solver reports failure, that is, some
    state that [r] reached has [r.successful()] false, [integrate_vode]
    raises the assertion error; a trajectory is returned only if all the
    [len(tout) - 1] steps were made and succeeded. *)
Theorem integrate_vode_checked (tout y0 params : list T) (w' : world St)
    (res : result (list (list T) * info)) :
  integrate_vode zero tout y0 params = (res, w') →
  (Exists (λ r, successful r = false) (visited w') →
     res = Raise (AssertionError "Integration failed"))
  ∧ (∀ out, res = Ok out →
       Forall (λ r, successful r = true) (visited w')
       ∧ length (visited w') = (length tout - 1)%nat).
Proof.
  intros [(-> & -> & ->)|(t0 & args & res' & Ht0 & Hl & ->)]%integrate_vode_inv.
  - split; [by intros ?%Exists_nil | done].
  - apply loop_checked in Hl as [HE Hok]; [|by constructor]. split.
    + intros Hfail. by rewrite (HE Hfail).
    + intros out Hout. destruct res' as [yout|e]; [|done].
      destruct (Hok yout eq_refl) as [HF Hlen]. split; [done|].
      rewrite Hlen, length_drop. done.
Qed.

(** C6.  After a successful call the entry [num_rhs] of the diagnostics
    is the number of invocations of [f_eval], and the entry
    [num_dls_jac_evals] the number of invocations of [j_eval]: the
    invocations are the calls of the integrator during the steps from
    the initial state over the time points after the first, one call of
    the method of the system for each call of a closure. *)
Theorem integrate_vode_counts (tout y0 params : list T) (w' : world St)
    (yout : list (list T)) (diag : info) :
  integrate_vode zero tout y0 params = (Ok (yout, diag), w') →
  num_rhs diag = times F_eval (invoked w')
  ∧ num_dls_jac_evals diag = times J_eval (invoked w')
  ∧ ∃ t0, tout !! 0%nat = Some t0
      ∧ invoked w'
        = calls (match params with [] => [] | _ => [params] end)
                (set_initial_value y0 t0) (drop 1 tout).
Proof.
  destruct tout as [|t0 tout]; [by intros [=]|].
  rewrite integrate_vode_cons.
  destruct (loop _ 1 _ _ _ fresh) as [[out|e] w1] eqn:Hl; [|done].
  intros [= <- <- <-]. cbn [num_rhs num_dls_jac_evals].
  destruct (loop_counted _ _ _ _ _ _ _ _ Hl) as [Hf Hj]; [by split|].
  split; [done|]. split; [done|]. exists t0. split; [done|].
  apply loop_calls in Hl. by rewrite Hl.
Qed.

(** C7.  A successful call returns a matrix with one row per time point
    and one column per entry of [y0], whose first row is [y0]; the time
    grid of a successful call is not empty. *)
Theorem integrate_vode_shape (tout y0 params : list T) (w' : world St)
    (yout : list (list T)) (diag : info) :
  integrate_vode zero tout y0 params = (Ok (yout, diag), w') →
  tout ≠ []
  ∧ length yout = length tout
  ∧ Forall (λ row, length row = length y0) yout
  ∧ yout !! 0%nat = Some y0.
Proof.
  intros [(_ & [=] & _)|(t0 & args & res' & Ht0 & Hl & Hres)]%integrate_vode_inv.
  destruct res' as [yout'|e]; [|done]. injection Hres as -> ->.
  apply loop_shape in Hl as (Hlen & Hrows & H0); [|lia].
  rewrite length_insert, length_replicate in Hlen.
  split; [by intros ->|]. split; [done|]. split.
  - apply Hrows, Forall_insert; [|done].
    apply Forall_replicate. by rewrite length_replicate.
  - rewrite H0. apply list_lookup_insert_eq.
    rewrite length_replicate. destruct tout; [done | simpl; lia].
Qed.
End IntegrateVodeFacts.

Section IntegrateVodeExamples.
Import OdesysVode VodeExample.

Example integrate_vode_run :
run [0; 1; 2] [5; 7]
= (Ok ([[5; 7]; [0; 0]; [0; 0]], Info 2 2),
   World 2 2
     [F_eval; J_eval; F_eval; J_eval]
     [([0; 0], true); ([0; 0], true)]).
Proof. vm_compute. reflexivity. Qed.

Example integrate_vode_failure :
(run [9; 10; 11; 12] [5]).1
= Raise (AssertionError "Integration failed").
Proof. vm_compute. reflexivity. Qed.

Example integrate_vode_empty_grid :
(run [] [5]).1 = Raise IndexError.
Proof. vm_compute. reflexivity. Qed.

Example integrate_vode_callback_raises :
integrate_vode (sys:=faulty) (solver:=euler) 0 [0; 1; 2] [5] []
= (Raise CallbackError, World 1 0 [F_eval] []).
Proof. vm_compute. reflexivity. Qed.

Example integrate_vode_callback_ignored :
integrate_vode (sys:=faulty) (solver:=lenient) 0 [0; 1; 2] [5] []
= (Ok ([[5]; [5]; [5]], Info 2 0),
   World 2 0 [F_eval; F_eval] [([5], true); ([5], true)]).
Proof. vm_compute. reflexivity. Qed.

Lemma integrate_vode_checked_witness :
∃ res w',
  run [9; 10; 11; 12] [5] = (res, w')
  ∧ Exists (λ r, @successful Z _ euler r = false) (visited w')
  ∧ res = Raise (AssertionError "Integration failed").
Proof.
eexists _, _. split; [vm_compute; reflexivity|].
assert (HE : Exists (λ r : list Z * bool, r.2 = false)
               [([0], true); ([0], false)])
  by (right; left; reflexivity).
split; [exact HE|].
eapply (λ w' res Hrun,
          proj1 (integrate_vode_checked (sys:=decay) (solver:=euler)
                   0 [9; 10; 11; 12] [5] [] w' res Hrun));
  [vm_compute; reflexivity | exact HE].
Defined.

Lemma integrate_vode_counts_witness :
∃ yout diag w',
  run [0; 1; 2] [5; 7] = (Ok (yout, diag), w')
  ∧ num_rhs diag = 2%nat
  ∧ invoked w' = [F_eval; J_eval; F_eval; J_eval]
  ∧ num_rhs diag
    = times F_eval (invoked w')
  ∧ num_dls_jac_evals diag
    = times J_eval (invoked w')
  ∧ ∃ t0, [0; 1; 2] !! 0%nat = Some t0
      ∧ invoked w'
        = calls (sys:=decay) (solver:=euler) []
                (@set_initial_value Z _ euler [5; 7] t0) (drop 1 [0; 1; 2]).
Proof.
eexists _, _, _. split; [vm_compute; reflexivity|].
split; [reflexivity|]. split; [reflexivity|].
refine (integrate_vode_counts (sys:=decay)
          (solver:=euler) 0 [0; 1; 2] [5; 7] [] _ _ _ _).
vm_compute. reflexivity.
Defined.

Lemma integrate_vode_shape_witness :
∃ yout diag w',
  run [0; 1; 2] [5; 7] = (Ok (yout, diag), w')
  ∧ [0; 1; 2] ≠ []
  ∧ length yout = 3%nat
  ∧ Forall (λ row : list Z, length row = 2%nat) yout
  ∧ yout !! 0%nat = Some [5; 7].
Proof.
eexists _, _, _. split; [vm_compute; reflexivity|].
refine (integrate_vode_shape (sys:=decay)
          (solver:=euler) 0 [0; 1; 2] [5; 7] [] _ _ _ _).
vm_compute. reflexivity.
Defined.
End IntegrateVodeExamples.

(** ** [MOLsys]: the indices of the three-point stencil *)

Section StencilFacts.
Import OdesysDiffusion.

(** C9 fails on the system of the notebook.  With two species the upper
    bound of the clip is [ny - 2 = 0], below the lower bound [1], so the
    reference bin of every bin is [0] and the left neighbour is read at
    the index [-2]; NumPy takes a negative index from the end, and the
    second derivative at the first bin is computed from the last bin (the
    last conjunct lists, for [y = [0, ..., 99]], the entries read for each
    of the two species). *)
Theorem stencil_out_of_bounds :
  central_reference_bin molsys 0 = 0
  ∧ stencil molsys 0 0 = [-2; 0; 2]
  ∧ ¬ in_bounds molsys (-2)
  ∧ second_derivatives_spatial (λ left cent rght, left ++ cent ++ rght)
      molsys 0 ((λ n, [Z.of_nat n]) <$> seq 0 100)
    = Ok [[98; 0; 2]; [99; 1; 3]].
Proof.
  split; [reflexivity|]. split; [reflexivity|].
  split; [unfold in_bounds; simpl; lia|]. vm_compute. reflexivity.
Qed.

Lemma central_reference_bin_range (self : MOLsys) (i : Z) :
  3 ≤ ny self → 1 ≤ central_reference_bin self i ≤ ny self - 2.
Proof. unfold central_reference_bin, clip. lia. Qed.

(** X23.  Where the indices of the code are in bounds: exactly when
    there are at least three species and at least as many bins as
    species. *)
Lemma stencil_in_bounds_iff (self : MOLsys) :
  0 < ny self → 0 < n_lines self →
  (∀ i j, 0 ≤ i < n_lines self → 0 ≤ j < ny self →
          Forall (in_bounds self) (stencil self i j))
  ↔ 3 ≤ ny self ≤ n_lines self.
Proof.
  intros Hny Hn. unfold stencil, central_reference_bin, clip, in_bounds.
  split.
  - intros Hall.
    assert (H0 := Hall 0 0 ltac:(lia) ltac:(lia)).
    assert (H1 := Hall (n_lines self - 1) 0 ltac:(lia) ltac:(lia)).
    rewrite !Forall_cons in H0, H1.
    destruct H0 as (H0l & _ & _ & _). destruct H1 as (_ & _ & H1r & _).
    destruct (decide (3 ≤ ny self)) as [H3|H3]; [|nia].
    split; [done|]. nia.
  - intros [H3 Hle] i j Hi Hj. repeat constructor; nia.
Qed.

(** With the number of bins in the place of the number of species, the
    bound that the name of the method and its argument call for, the
    indices are in bounds as soon as there are three bins. *)
Lemma stencil_in_bounds_n_lines (self : MOLsys) (i j : Z) :
  3 ≤ n_lines self → 0 ≤ j < ny self →
  let k := clip i 1 (n_lines self - 2) in
  Forall (in_bounds self)
    [(k - 1) * ny self + j; k * ny self + j; (k + 1) * ny self + j].
Proof.
  intros H3 Hj. unfold clip, in_bounds. repeat constructor; nia.
Qed.
End StencilFacts.

(** ** [CythonODEsys.setup]: names *)

Section CythonNames.
Import OdesysCython.

Lemma string_app_inj_r (s1 s2 s : string) :
  s1 +:+ s = s2 +:+ s → s1 = s2.
Proof.
  assert (Happ : ∀ a b : string,
    String.list_ascii_of_string (a +:+ b)
    = String.list_ascii_of_string a ++ String.list_ascii_of_string b).
  { induction a as [|c a IH]; intros b; simpl; [done | by rewrite IH]. }
  intros Heq. apply (f_equal String.list_ascii_of_string) in Heq.
  rewrite !Happ in Heq. apply app_inv_tail in Heq.
  apply (f_equal String.string_of_list_ascii) in Heq.
  by rewrite !String.string_of_list_ascii_of_string in Heq.
Qed.

Lemma index_name_inj (i i' : nat) : index_name i = index_name i' → i = i'.
Proof.
  unfold index_name. intros Heq. apply (inj (String.app "y[")) in Heq.
  apply string_app_inj_r in Heq. by apply (inj pretty).
Qed.

Lemma identifier_index_name (i : nat) : identifier (index_name i) = false.
Proof. reflexivity. Qed.

Lemma subs_snoc (y : list symbol) (s : symbol) :
  subs (y ++ [s])
  = <[s := Symbol (index_name (length y)) no_assumptions]> (subs y).
Proof.
  unfold subs. rewrite imap_app, foldl_app. simpl.
  by rewrite Nat.add_0_r.
Qed.

Lemma subs_lookup_None (y : list symbol) (s : symbol) :
  s ∉ y → subs y !! s = None.
Proof.
  induction y as [|x y IH] using rev_ind; intros Hs; [done|].
  rewrite subs_snoc. rewrite not_elem_of_app, list_elem_of_singleton in Hs.
  destruct Hs as [Hy Hx]. rewrite lookup_insert_ne by done. by apply IH.
Qed.

(** A state symbol is replaced by the element of [y] at one of its
    positions, the last one. *)
Lemma subs_lookup_Some (y : list symbol) (s : symbol) :
  s ∈ y →
  ∃ i, y !! i = Some s
       ∧ subs y !! s = Some (Symbol (index_name i) no_assumptions).
Proof.
  induction y as [|x y IH] using rev_ind; intros Hs;
    [by apply elem_of_nil in Hs|].
  rewrite subs_snoc. destruct (decide (x = s)) as [->|Hne].
  - exists (length y). split; [by apply list_lookup_middle|].
    by rewrite lookup_insert_eq.
  - apply elem_of_app in Hs as [Hs|Hs%list_elem_of_singleton]; [|done].
    destruct (IH Hs) as (i & Hi & Hl). exists i. split.
    + by apply lookup_app_l_Some.
    + by rewrite lookup_insert_ne.
Qed.

Lemma assoc_zip_None {V} (ks : list string) (vs : list V) (s : string) :
  s ∉ ks → assoc (zip ks vs) s = None.
Proof.
  revert vs. induction ks as [|k ks IH]; intros vs Hs; [done|].
  destruct vs as [|v vs]; [done|]. simpl.
  rewrite not_elem_of_cons in Hs. destruct Hs as [Hk Hks].
  rewrite decide_False by done. by apply IH.
Qed.

Lemma assoc_zip_lookup {V} (ks : list string) (vs : list V) (i : nat)
    (s : string) :
  NoDup ks → length vs = length ks → ks !! i = Some s →
  assoc (zip ks vs) s = vs !! i.
Proof.
  revert vs i. induction ks as [|k ks IH]; intros vs i Hnd Hlen Hi;
    [done|].
  destruct vs as [|v vs]; [done|]. simpl.
  apply NoDup_cons in Hnd as [Hk Hnd]. destruct i as [|i]; simpl in *.
  - injection Hi as ->. by rewrite decide_True.
  - rewrite decide_False.
    + apply IH; [done | lia | done].
    + intros ->. apply Hk, list_elem_of_lookup. by exists i.
Qed.

Lemma assoc_app {V} (l1 l2 : list (string * V)) (s : string) :
  assoc (l1 ++ l2) s
  = match assoc l1 s with Some v => Some v | None => assoc l2 s end.
Proof.
  induction l1 as [|kv l1 IH]; simpl; [done|]. by case_decide.
Qed.
End CythonNames.

(** ** [CythonODEsys.setup]: the emitted expressions *)

Section CythonFacts.
Import OdesysCython.
Context `{CR : CRing R}.

Lemma scope_index (m : module) (yv : list R) (t : R) (pv : list R)
    (i : nat) :
  (i < length yv)%nat → scope m yv t pv (index_name i) = yv !! i.
Proof.
  intros Hi. unfold scope.
  destruct (list_find _ _) as [[k x]|] eqn:Hfind.
  - apply list_find_Some in Hfind as (_ & Hx & _).
    by apply index_name_inj in Hx as ->.
  - apply list_find_None in Hfind. rewrite Forall_forall in Hfind.
    destruct (Hfind i); [|done]. apply elem_of_seq. lia.
Qed.

Lemma scope_arg (m : module) (yv : list R) (t : R) (pv : list R)
    (s : string) :
  identifier s = true → s ∉ template_names →
  scope m yv t pv s = assoc (zip (args m) pv) s.
Proof.
  intros Hid Hs. unfold scope.
  destruct (list_find _ _) as [[k x]|] eqn:Hfind.
  - apply list_find_Some in Hfind as (_ & <- & _).
    by rewrite identifier_index_name in Hid.
  - rewrite decide_False by (intros ->; apply Hs; set_solver).
    by rewrite decide_False.
Qed.

(** The text that is emitted for an expression in the state symbols and
    the parameter symbols has, in the scope of the generated functions,
    the value of the expression. *)
Lemma eval_xreplace (self : ODEsys) (m : module) (val : symbol → R)
    (yv : list R) (t : R) (pv : list R) (e : expr) :
  args m = (p self).*1 → declarable (p self).*1 →
  binds val self yv pv →
  Forall (λ s, s ∈ y self ∨ s ∈ p self) (free_symbols e) →
  eval_opt (scope m yv t pv) (xreplace (subs (y self)) e)
  = Some (evals val e).
Proof.
  intros Hargs (Hid & Hnd & Htpl) [Hy Hp].
  induction e as [s a|z|a IHa b IHb|a IHa b IHb|b IHb n];
    cbn [free_symbols xreplace eval_opt evals]; intros Hfree.
  - destruct (decide ((s, a) ∈ y self)) as [Hin|Hnin].
    + destruct (subs_lookup_Some _ _ Hin) as (i & Hi & ->). simpl.
      destruct (Forall2_lookup_l _ _ _ _ _ Hy Hi) as (v & Hv & <-).
      rewrite scope_index by (by eapply lookup_lt_Some). done.
    + rewrite subs_lookup_None by done. simpl.
      apply Forall_singleton in Hfree as [?|Hin]; [done|].
      apply list_elem_of_lookup in Hin as [i Hi].
      destruct (Forall2_lookup_l _ _ _ _ _ Hp Hi) as (v & Hv & <-).
      assert (Hname : (p self).*1 !! i = Some s)
        by (by rewrite list_lookup_fmap, Hi).
      rewrite Forall_forall in Hid, Htpl.
      assert (Hs : s ∈ (p self).*1)
        by (apply list_elem_of_lookup; by exists i).
      rewrite scope_arg by auto. rewrite Hargs.
      rewrite (assoc_zip_lookup _ _ i); [done|done| |done].
      rewrite length_fmap. symmetry. by eapply Forall2_length.
  - done.
  - apply Forall_app in Hfree as [Ha Hb]. by rewrite IHa, IHb.
  - apply Forall_app in Hfree as [Ha Hb]. by rewrite IHa, IHb.
  - by rewrite IHb.
Qed.

(** *** Lists of statements *)

Lemma foldlM_app {A B} (step : B → A → option B) (b : B)
    (l1 l2 : list A) :
  foldlM step b (l1 ++ l2) = foldlM step b l1 ≫= λ b', foldlM step b' l2.
Proof.
  revert b. induction l1 as [|x l1 IH]; intros b; simpl; [done|].
  destruct (step b x) as [b'|]; simpl; [apply IH | done].
Qed.

Lemma mapM_cons `{MBind M, MRet M} {A B} (g : A → M B) (x : A)
    (l : list A) :
  mapM g (x :: l) = y ← g x; k ← mapM g l; mret (y :: k).
Proof. reflexivity. Qed.

Lemma mapM_option_ext {A B} (g h : A → option B) (l : list A) :
  Forall (λ x, g x = h x) l → mapM g l = mapM h l.
Proof.
  induction 1 as [|x l Hx _ IH]; [done|]. by rewrite !mapM_cons, Hx, IH.
Qed.

Lemma mapM_option_fmap {A B C} (g : B → option C) (h : A → B)
    (l : list A) :
  mapM g (h <$> l) = mapM (g ∘ h) l.
Proof.
  induction l as [|x l IH]; [done|]. by rewrite fmap_cons, !mapM_cons, IH.
Qed.

Lemma mapM_result_ext {A B} (g h : A → result B) (l : list A) :
  Forall (λ x, g x = h x) l → mapM g l = mapM h l.
Proof.
  induction 1 as [|x l Hx _ IH]; [done|]. by rewrite !mapM_cons, Hx, IH.
Qed.

Lemma mapM_result_fmap {A B C} (g : B → result C) (h : A → B)
    (l : list A) :
  mapM g (h <$> l) = mapM (g ∘ h) l.
Proof.
  induction l as [|x l IH]; [done|]. by rewrite fmap_cons, !mapM_cons, IH.
Qed.

Lemma mapM_result_app {A B} (g : A → result B) (l1 l2 : list A)
    (k1 k2 : list B) :
  mapM g l1 = Ok k1 → mapM g l2 = Ok k2 → mapM g (l1 ++ l2) = Ok (k1 ++ k2).
Proof.
  revert k1. induction l1 as [|x l1 IH]; intros k1.
  - by intros [= <-].
  - rewrite <- app_comm_cons, !mapM_cons.
    destruct (g x) as [v|]; [|done].
    destruct (mapM g l1) as [k|]; [|done].
    intros [= <-] H2. by rewrite (IH k eq_refl H2).
Qed.

Lemma mapM_index {A B} (h : nat → A → B) (l pre : list A) :
  mapM (λ i, e ← index (pre ++ l) i; mret (h i e))
       (seq (length pre) (length l))
  = Ok (imap (λ i e, h (length pre + i)%nat e) l).
Proof.
  revert pre. induction l as [|x l IH]; intros pre; [done|].
  cbn [length seq]. rewrite mapM_cons.
  assert (Hx : index (pre ++ x :: l) (length pre) = Ok x)
    by (unfold index; by rewrite list_lookup_middle).
  rewrite Hx. clear Hx.
  replace (pre ++ x :: l) with ((pre ++ [x]) ++ l) by by rewrite <- app_assoc.
  replace (S (length pre)) with (length (pre ++ [x]))
    by (rewrite length_app; simpl; lia).
  rewrite IH. unfold mbind, result_bind, mret, result_ret.
  rewrite imap_cons, Nat.add_0_r. do 2 f_equal.
  apply imap_ext. intros i e _. simpl. f_equal.
  rewrite length_app. simpl. lia.
Qed.

Lemma bind_singleton {A B} (h : A → B) (l : list A) :
  l ≫= (λ x, [h x]) = h <$> l.
Proof. induction l as [|x l IH]; [done|]. by rewrite bind_cons, IH. Qed.

Lemma mapM_index2 {A B} (h : nat → nat → A → B) (n : nat)
    (rows pre : list (list A)) :
  Forall (λ row, length row = n) rows →
  mapM (λ rc : nat * nat,
          row ← index (pre ++ rows) rc.1;
          e ← index row rc.2;
          mret (h rc.1 rc.2 e))
       (seq (length pre) (length rows) ≫= λ ri,
          seq 0 n ≫= λ ci, [(ri, ci)])
  = Ok (concat (imap (λ ri row,
                        imap (λ ci e, h (length pre + ri)%nat ci e) row)
                     rows)).
Proof.
  intros Hrows. revert pre.
  induction Hrows as [|row rows Hrow _ IH]; intros pre; [done|].
  cbn [length seq]. rewrite bind_cons, imap_cons. cbn [concat].
  apply mapM_result_app.
  - rewrite bind_singleton, mapM_result_fmap.
    rewrite <- Hrow, Nat.add_0_r.
    trans (mapM (λ i, e ← index ([] ++ row) i;
                      mret (h (length pre) i e))
                (seq (length (@nil A)) (length row))).
    + apply mapM_result_ext, Forall_forall. intros ci _. simpl.
      assert (Hx : index (pre ++ row :: rows) (length pre) = Ok row)
        by (unfold index; by rewrite list_lookup_middle).
      by rewrite Hx.
    + by rewrite mapM_index.
  - replace (pre ++ row :: rows) with ((pre ++ [row]) ++ rows)
      by by rewrite <- app_assoc.
    replace (S (length pre)) with (length (pre ++ [row]))
      by (rewrite length_app; simpl; lia).
    rewrite IH. do 2 f_equal. apply imap_ext. intros ri r _. simpl.
    apply imap_ext. intros ci e _. simpl. f_equal.
    rewrite length_app. simpl. lia.
Qed.

(** *** The buffers of the generated functions *)

Lemma assign_eq (sc : string → option R) (out : list (option R))
    (i : nat) (e : expr) :
  assign sc out (i, e)
  = v ← eval_opt sc e;
    if decide (i < length out)%nat then Some (<[i := Some v]> out)
    else None.
Proof. reflexivity. Qed.

Lemma assign2_eq (sc : string → option R) (out : list (list (option R)))
    (ri ci : nat) (e : expr) :
  assign2 sc out (ri, ci, e)
  = v ← eval_opt sc e;
    row ← out !! ri;
    if decide (ci < length row)%nat
    then Some (<[ri := <[ci := Some v]> row]> out) else None.
Proof. reflexivity. Qed.

Lemma assign_fill (sc : string → option R) (es : list expr)
    (pre suf : list (option R)) :
  foldlM (assign sc) (pre ++ replicate (length es) None ++ suf)
         (imap (λ i e, ((length pre + i)%nat, e)) es)
  = (λ vs, pre ++ (Some <$> vs) ++ suf) <$> mapM (eval_opt sc) es.
Proof.
  revert pre. induction es as [|e es IH]; intros pre; [done|].
  rewrite imap_cons, foldlM_cons, mapM_cons, assign_eq.
  destruct (eval_opt sc e) as [v|]; [|done].
  cbn [mbind option_bind].
  rewrite decide_True
    by (rewrite !length_app, length_replicate; simpl; lia).
  cbn [length replicate]. rewrite Nat.add_0_r, <- app_comm_cons.
  rewrite insert_app_r_alt, Nat.sub_diag by lia. cbn [insert list_insert].
  replace (pre ++ Some v :: replicate (length es) None ++ suf)
    with ((pre ++ [Some v]) ++ replicate (length es) None ++ suf)
    by by rewrite <- app_assoc.
  rewrite (imap_ext _ (λ i e, ((length (pre ++ [Some v]) + i)%nat, e)))
    by (intros i e' _; simpl; f_equal; rewrite length_app; simpl; lia).
  cbn [mbind option_bind]. rewrite IH.
  destruct (mapM (eval_opt sc) es) as [vs|]; [|done]. simpl.
  by rewrite <- app_assoc.
Qed.

Lemma assign2_fill_row (sc : string → option R) (ri : nat)
    (es : list expr) (out : list (list (option R)))
    (pre : list (option R)) :
  out !! ri = Some (pre ++ replicate (length es) None) →
  foldlM (assign2 sc) out
         (imap (λ ci e, (ri, (length pre + ci)%nat, e)) es)
  = (λ vs, <[ri := pre ++ (Some <$> vs)]> out) <$> mapM (eval_opt sc) es.
Proof.
  revert out pre. induction es as [|e es IH]; intros out pre Hrow.
  - simpl in *. rewrite app_nil_r in *. by rewrite list_insert_id.
  - rewrite imap_cons, foldlM_cons, mapM_cons, assign2_eq.
    destruct (eval_opt sc e) as [v|]; [|done].
    cbn [mbind option_bind]. rewrite Hrow. cbn [mbind option_bind].
    rewrite decide_True
      by (rewrite !length_app, length_replicate; simpl; lia).
    cbn [length replicate].
    rewrite Nat.add_0_r, insert_app_r_alt, Nat.sub_diag by lia.
    cbn [insert list_insert].
    rewrite (imap_ext _ (λ ci e, (ri, (length (pre ++ [Some v]) + ci)%nat,
                                  e)))
      by (intros i e' _; simpl; do 2 f_equal; rewrite length_app;
          simpl; lia).
    cbn [mbind option_bind]. rewrite IH.
    + destruct (mapM (eval_opt sc) es) as [vs|]; [|done]. simpl.
      by rewrite list_insert_insert_eq, <- app_assoc.
    + rewrite list_lookup_insert_eq by (by eapply lookup_lt_Some).
      by rewrite <- app_assoc.
Qed.

Lemma assign2_fill (sc : string → option R) (n : nat)
    (rows : list (list expr)) (pre : list (list (option R))) :
  Forall (λ row, length row = n) rows →
  foldlM (assign2 sc)
         (pre ++ replicate (length rows) (replicate n None))
         (concat (imap (λ ri row,
                          imap (λ ci e, ((length pre + ri)%nat, ci, e)) row)
                       rows))
  = (λ vss : list (list R), pre ++ ((λ vs : list R, Some <$> vs) <$> vss))
      <$> mapM (mapM (eval_opt sc)) rows.
Proof.
  intros Hrows. revert pre.
  induction Hrows as [|row rows Hrow _ IH]; intros pre.
  - simpl. by rewrite app_nil_r.
  - rewrite imap_cons, mapM_cons. cbn [concat length replicate].
    rewrite foldlM_app, Nat.add_0_r.
    rewrite (assign2_fill_row sc (length pre) row _ []).
    + destruct (mapM (eval_opt sc) row) as [vs|]; [|done].
      cbn [fmap option_fmap option_map mbind option_bind app].
      rewrite insert_app_r_alt, Nat.sub_diag by lia.
      cbn [insert list_insert].
      replace (pre ++ (Some <$> vs) :: replicate (length rows)
                                         (replicate n None))
        with ((pre ++ [Some <$> vs])
              ++ replicate (length rows) (replicate n None))
        by by rewrite <- app_assoc.
      rewrite (imap_ext _
                 (λ ri row, imap (λ ci e,
                    ((length (pre ++ [Some <$> vs]) + ri)%nat, ci, e)) row))
        by (intros ri r _; simpl; apply imap_ext; intros ci e _; simpl;
            do 2 f_equal; rewrite length_app; simpl; lia).
      cbn [mbind option_bind]. rewrite IH.
      destruct (mapM (mapM (eval_opt sc)) rows) as [vss|]; [|done].
      simpl. by rewrite <- app_assoc.
    + rewrite list_lookup_middle by done. by rewrite Hrow.
Qed.

(** *** What [setup] returns *)

Lemma setup_Ok (self : ODEsys) (urandom : Z) :
  shaped self →
  setup self urandom
  = Ok (Pyx (mod_name_of (uuid4 urandom)) (p self).*1
          (imap (λ i e, (i, xreplace (subs (y self)) e)) (f self))
          (concat (imap (λ ri row,
                           imap (λ ci e,
                                   (ri, ci, xreplace (subs (y self)) e))
                                row)
                        (j self)))).
Proof.
  intros (Hf & Hj & Hrows). unfold setup.
  pose proof (mapM_index (λ i e, (i, xreplace (subs (y self)) e))
                (f self) []) as Hfs.
  pose proof (mapM_index2
                (λ ri ci e, (ri, ci, xreplace (subs (y self)) e))
                (length (f self)) (j self) []) as Hjs.
  rewrite <- Hf in Hrows. specialize (Hjs Hrows).
  replace (length (j self)) with (length (f self)) in Hjs by congruence.
  cbn [app length Nat.add] in Hfs, Hjs.
  rewrite Hfs. cbn [mbind result_bind]. by rewrite Hjs.
Qed.

(** *** The two backends *)

Lemma closed_inv (self : ODEsys) :
  closed self →
  Forall (λ e, Forall (λ s, s ∈ y self ∨ s ∈ p self) (free_symbols e))
         (f self)
  ∧ Forall (Forall (λ e, Forall (λ s, s ∈ y self ∨ s ∈ p self)
                                (free_symbols e))) (j self).
Proof.
  unfold closed. rewrite Forall_bind, Forall_app.
  intros (Hf & Hj). split; [exact Hf|].
  by apply Forall_concat.
Qed.

Lemma mapM_Some_fmap {A B} (g : A → option B) (h : A → B) (l : list A) :
  Forall (λ x, g x = Some (h x)) l → mapM g l = Some (h <$> l).
Proof.
  induction 1 as [|x l Hx _ IH]; [done|].
  by rewrite mapM_cons, Hx, IH.
Qed.

End CythonFacts.

Section CythonExamples.
Import OdesysCython.


(** A parameter of the name [np] takes the place of NumPy in the
    generated function, which raises at [np.empty]. *)
Example setup_shadows_numpy :
  let val (s : symbol) : Z :=
    if decide (s = ("A", real_nonnegative)) then 2 else 3 in
  ∃ m, setup shadowing 0 = Ok m
       ∧ binds val shadowing [2] [3]
       ∧ module_f (R:=Z) m [2] 0 [3] = None
       ∧ direct_f val shadowing = [-6].
Proof.
  eexists. split; [vm_compute; reflexivity|].
  split; [by repeat constructor|].
  split; vm_compute; reflexivity.
Qed.

(** A parameter that is spelled like a state symbol and is another symbol
    is not replaced: it is an argument of the generated function. *)
Example setup_keeps_homonym :
  ∃ m, setup homonym 0 = Ok m
       ∧ f_exprs m
         = [(0%nat, Mul (Integer (-1))
                      (Mul (Symbol "A" no_assumptions)
                         (Symbol "y[0]" no_assumptions)))]
       ∧ module_f (R:=Z) m [2] 0 [3] = Some [Some (-6)].
Proof. eexists. repeat split; vm_compute; reflexivity. Qed.

End CythonExamples.

(** ** The name of the generated module *)

Section ModuleNames.
Import OdesysCython.

Lemma hex_digit_inj (d d' : Z) :
  0 ≤ d < 16 → 0 ≤ d' < 16 → hex_digit d = hex_digit d' → d = d'.
Proof.
  intros Hd Hd'.
  assert (Hc : ∀ x, 0 ≤ x < 16 →
            x = 0 ∨ x = 1 ∨ x = 2 ∨ x = 3 ∨ x = 4 ∨ x = 5 ∨ x = 6 ∨ x = 7
            ∨ x = 8 ∨ x = 9 ∨ x = 10 ∨ x = 11 ∨ x = 12 ∨ x = 13
            ∨ x = 14 ∨ x = 15) by lia.
  destruct (Hc d Hd) as [->|[->|[->|[->|[->|[->|[->|[->|[->|[->|[->|[->|
    [->|[->|[->| ->]]]]]]]]]]]]]]];
  destruct (Hc d' Hd') as [->|[->|[->|[->|[->|[->|[->|[->|[->|[->|[->|[->|
    [->|[->|[->| ->]]]]]]]]]]]]]]]; simpl; intros Heq;
    first [reflexivity | discriminate Heq].
Qed.

Lemma hex_digits_inj (n : nat) (a b : Z) :
  hex_digits n a = hex_digits n b
  ↔ a mod 16 ^ Z.of_nat n = b mod 16 ^ Z.of_nat n.
Proof.
  induction n as [|n IH].
  - simpl. rewrite !Z.mod_1_r. done.
  - cbn [hex_digits].
    assert (Hpow : 0 < 16 ^ Z.of_nat n) by (apply Z.pow_pos_nonneg; lia).
    replace (16 ^ Z.of_nat (S n)) with (16 ^ Z.of_nat n * 16)
      by (rewrite Nat2Z.inj_succ, Z.pow_succ_r; lia).
    rewrite !Z.rem_mul_r by lia.
    pose proof (Z.mod_pos_bound a _ Hpow).
    pose proof (Z.mod_pos_bound b _ Hpow).
    pose proof (Z.mod_pos_bound (a / 16 ^ Z.of_nat n) 16 ltac:(lia)).
    pose proof (Z.mod_pos_bound (b / 16 ^ Z.of_nat n) 16 ltac:(lia)).
    split.
    + intros [= Hd Hrest]. apply hex_digit_inj in Hd; [|done..].
      apply IH in Hrest. congruence.
    + intros Heq.
      assert ((a / 16 ^ Z.of_nat n) mod 16 = (b / 16 ^ Z.of_nat n) mod 16)
        as Hd by nia.
      assert (a mod 16 ^ Z.of_nat n = b mod 16 ^ Z.of_nat n) as Hrest
        by nia.
      apply IH in Hrest. by rewrite Hd, Hrest.
Qed.

Lemma substring_hex_digits (n m : nat) (z : Z) :
  String.substring 0 n (hex_digits (n + m) z)
  = hex_digits n (z / 16 ^ Z.of_nat m).
Proof.
  induction n as [|n IH].
  - simpl. by destruct (hex_digits m z).
  - cbn [Nat.add hex_digits String.substring]. rewrite IH. f_equal.
    f_equal. rewrite Z.div_div by (try apply Z.pow_pos_nonneg; lia).
    by rewrite <- Z.pow_add_r, Nat2Z.inj_add, Z.add_comm by lia.
Qed.

Lemma uuid4_high_bits (urandom : Z) :
  uuid4 urandom / 2 ^ 88 = urandom / 2 ^ 88.
Proof.
  rewrite <- !Z.shiftr_div_pow2 by lia. apply Z.bits_inj'. intros n Hn.
  rewrite !Z.shiftr_spec by lia. unfold uuid4.
  assert (Hhigh : ∀ c k, 0 ≤ c < 2 ^ 16 → 0 ≤ k ≤ 64 →
            Z.testbit (Z.shiftl c k) (n + 88) = false).
  { intros c k Hc Hk. rewrite Z.shiftl_spec by lia.
    destruct (decide (c = 0)) as [->|Hc0]; [apply Z.bits_0|].
    apply Z.bits_above_log2; [lia|].
    assert (Z.log2 c < 16) by (apply Z.log2_lt_pow2; lia). lia. }
  change (Z.shiftl 4 76) with (Z.shiftl 0x4000 64).
  rewrite Z.lor_spec, Z.land_spec, Z.lor_spec, Z.land_spec.
  rewrite !Z.lnot_spec by lia.
  rewrite !Hhigh by lia. simpl.
  by rewrite !andb_true_r, !orb_false_r.
Qed.

(** C8, as amended.  The names that two invocations of [setup] give
    their modules are equal exactly when the two draws of 128 random bits
    agree on their 40 highest bits, the bits that the first ten
    hexadecimal digits of the uuid hold; they are distinct otherwise. *)
Theorem mod_name_eq_iff (urandom1 urandom2 : Z) :
  0 ≤ urandom1 < 2 ^ 128 → 0 ≤ urandom2 < 2 ^ 128 →
  mod_name_of (uuid4 urandom1) = mod_name_of (uuid4 urandom2)
  ↔ urandom1 / 2 ^ 88 = urandom2 / 2 ^ 88.
Proof.
  intros H1 H2. unfold mod_name_of, hex.
  rewrite !(substring_hex_digits 10 22).
  change (16 ^ Z.of_nat 22) with (2 ^ 88). rewrite !uuid4_high_bits.
  assert (Hsmall : ∀ r, 0 ≤ r < 2 ^ 128 →
            (r / 2 ^ 88) mod 16 ^ Z.of_nat 10 = r / 2 ^ 88).
  { intros r Hr. apply Z.mod_small. split.
    - apply Z.div_pos; lia.
    - apply Z.div_lt_upper_bound; [lia|].
      change (2 ^ 88 * 16 ^ Z.of_nat 10) with (2 ^ 128). lia. }
  split.
  - intros Heq. apply (inj (String.app "ode_cython_")) in Heq.
    apply hex_digits_inj in Heq. by rewrite !Hsmall in Heq.
  - intros Heq. f_equal. apply hex_digits_inj. by rewrite !Hsmall.
Qed.

(** Two invocations whose draws differ only in the last bit: the uuids
    differ, the names of the modules are the same. *)
Lemma mod_name_collision :
  uuid4 0 ≠ uuid4 1
  ∧ mod_name <$> setup decay 0 = Ok "ode_cython_0000000000"
  ∧ mod_name <$> setup decay 1 = Ok "ode_cython_0000000000".
Proof. split; [|split]; vm_compute; done. Qed.

Lemma mod_name_eq_iff_witness :
  mod_name_of (uuid4 0) = mod_name_of (uuid4 (2 ^ 88 - 1))
  ∧ mod_name_of (uuid4 0) ≠ mod_name_of (uuid4 (2 ^ 88)).
Proof.
  split.
  - apply (mod_name_eq_iff 0 (2 ^ 88 - 1)); [lia | lia |].
    vm_compute. reflexivity.
  - intros Heq. apply (mod_name_eq_iff 0 (2 ^ 88)) in Heq; [|lia..].
    vm_compute in Heq. discriminate Heq.
Defined.
End ModuleNames.

(** ** [mk_exprs_symbs]: further properties *)

Section SymbolicConstrMore.
Context `{CR : CRing R} {SP : SymPy}.
Add Ring Rring'' : Rth.

Local Infix "+" := radd.
Local Infix "*" := rmul.

(** *** When the function raises *)

(** X1.  [mk_exprs_symbs] raises, and returns nothing, exactly when
    [sym.symbols] raises on a name of the species list ([ValueError]), or
    some reaction has a rate constant on whose string [sym.S] raises
    ([SympifyError]), a reactant that is not in the species list
    ([KeyError]) or whose name gives a tuple of symbols ([TypeError]), or
    a species in its net stoichiometry that is not in the species list
    ([KeyError]); this for rate constants of which [sym.S] makes no object
    other than an expression. *)
Theorem mk_exprs_symbs_raises (rxns : list reaction)
    (names : list string) :
  Forall (λ rxn, sympify (coeff rxn) ≠ NoExpression) rxns →
  mk_exprs_symbs rxns names = None
  ↔ (∃ n, n ∈ names ∧ symbols_of n = Invalid)
    ∨ ∃ rxn, rxn ∈ rxns
        ∧ (sympify (coeff rxn) = SympifyError
           ∨ (∃ s, is_Some (r_stoich rxn !! s)
                   ∧ (s ∉ names ∨ symbols_of s = Several))
           ∨ (∃ s, is_Some (net_stoich rxn !! s) ∧ s ∉ names)).
Proof.
  intros Hobj. rewrite Forall_forall in Hobj.
  rewrite eq_None_not_Some, (mk_exprs_symbs_Some (R:=Z)). split.
  - intros Hnot.
    destruct (decide (Invalid ∈ symbols names)) as [Hinv|Hninv].
    { left. apply list_elem_of_fmap in Hinv as (n & Hn & Hin).
      by exists n. }
    right. assert (Hn : ¬ Forall (usable names) rxns) by tauto.
    apply not_Forall_Exists in Hn; [|apply _].
    apply Exists_exists in Hn as (rxn & Hin & Hrxn). exists rxn.
    split; [done|]. unfold usable in Hrxn.
    apply not_and_l in Hrxn as [Hp|Hrxn].
    { left. specialize (Hobj rxn Hin).
      by destruct (sympify (coeff rxn)). }
    right. apply not_and_l in Hrxn as [Hr|Hr];
      apply map_not_Forall in Hr as (s & v & Hs & Hbad); try apply _.
    + left. exists s. split; [by eexists|].
      destruct (decide (s ∈ names)) as [Hsin|?]; [|by left]. right.
      destruct (symbols_of s) as [e| |] eqn:Hsym; [|done|].
      * exfalso. apply Hbad. by split.
      * exfalso. apply Hninv, list_elem_of_fmap. by exists s.
    + right. exists s. split; [by eexists | done].
  - intros [(n & Hin & Hinv)|(rxn & Hin & Hcase)] [Hninv HF].
    { apply Hninv, list_elem_of_fmap. by exists n. }
    rewrite Forall_forall in HF. destruct (HF rxn Hin) as (Hp & Hr & Hn).
    destruct Hcase as [Hs|[(s & [q Hq] & Hbad)|(s & [q Hq] & Hbad)]].
    + by rewrite Hs in Hp.
    + destruct (Hr s q Hq) as [Hsin Hsingle].
      destruct Hbad as [?|Hsev]; [done|]. by rewrite Hsev in Hsingle.
    + by apply Hbad, (Hn s q).
Qed.

(** *** Species that no reaction changes *)

Lemma accumulate_fold_other (r : expr) (l : list (string * Z))
    (f f' : gmap string expr) (n : string) :
  foldlM (accumulate r) f l = Some f' → n ∉ l.*1 → f' !! n = f !! n.
Proof.
  revert f. induction l as [|[k v] l IH]; intros f Hrun Hn.
  - by injection Hrun as <-.
  - rewrite foldlM_cons, accumulate_eq in Hrun.
    destruct (f !! k) as [e|] eqn:Hk; [|done]. simpl in Hrun.
    rewrite fmap_cons, not_elem_of_cons in Hn. destruct Hn as [Hne Hn].
    rewrite (IH _ Hrun Hn). by rewrite lookup_insert_ne.
Qed.

Lemma step_other (c : gmap string named)
    (st st' : gmap string expr * list expr) (rxn : reaction) (n : string) :
  step c st rxn = Some st' → net_stoich rxn !! n = None →
  st'.1 !! n = st.1 !! n.
Proof.
  unfold step. destruct (sympify (coeff rxn)) as [ke| |]; [|done|done].
  destruct (rate c ke _) as [r|]; simpl; [|done].
  destruct (foldlM _ _ _) as [f'|] eqn:Hf; simpl; [|done].
  intros [= <-] Hn. simpl. apply (accumulate_fold_other _ _ _ _ _ Hf).
  intros Hin. apply list_elem_of_fmap in Hin as ([k v] & -> & Hin).
  apply elem_of_map_to_list in Hin. simpl in Hn. congruence.
Qed.

Lemma run_other (c : gmap string named) (rxns : list reaction)
    (st st' : gmap string expr * list expr) (n : string) :
  foldlM (step c) st rxns = Some st' →
  Forall (λ rxn, net_stoich rxn !! n = None) rxns →
  st'.1 !! n = st.1 !! n.
Proof.
  revert st. induction rxns as [|rxn rxns IH]; intros st Hrun HF.
  - by injection Hrun as <-.
  - rewrite foldlM_cons in Hrun.
    destruct (step c st rxn) as [st1|] eqn:Hstep; [|done]. simpl in Hrun.
    apply Forall_cons in HF as [Hn HF].
    rewrite (IH _ Hrun HF). by apply (step_other _ _ _ _ _ Hstep).
Qed.

Lemma mk_exprs_symbs_run (rxns : list reaction) (names : list string)
    (ydot : list expr) (symbs : list named) (k : list expr) :
  mk_exprs_symbs rxns names = Some (ydot, symbs, k) →
  ∃ st, foldlM (step (dict_zip names (symbols names))) (zeros names, [])
               rxns = Some st
        ∧ Forall2 (λ n e, st.1 !! n = Some e) names ydot
        ∧ symbs = symbols names ∧ k = st.2.
Proof.
  unfold mk_exprs_symbs. case_decide; [done|].
  destruct (foldlM _ _ rxns) as [st|] eqn:Hrun; simpl; [|done].
  destruct (mapM _ names) as [ydot'|] eqn:Hm; simpl; [|done].
  intros [= <- <- <-]. exists st. split; [done|].
  split; [by apply mapM_Some_1 | done].
Qed.

(** X2.  The derivative of a species that no reaction lists in its net
    stoichiometry is the constant zero that [f] was initialised with, as
    a term and not only in value; in particular every derivative is zero
    when there is no reaction. *)
Theorem mk_exprs_symbs_inert_species (rxns : list reaction)
    (names : list string) (ydot : list expr) (symbs : list named)
    (k : list expr) (i : nat) (n : string) :
  mk_exprs_symbs rxns names = Some (ydot, symbs, k) →
  names !! i = Some n →
  Forall (λ rxn, net_stoich rxn !! n = None) rxns →
  ydot !! i = Some (Integer 0).
Proof.
  intros (st & Hrun & HF & _)%mk_exprs_symbs_run Hi Hinert.
  destruct (Forall2_lookup_l _ _ _ _ _ HF Hi) as (e & -> & He).
  rewrite (run_other _ _ _ _ _ Hrun Hinert) in He. simpl in He.
  rewrite zeros_lookup in He. by case_decide.
Qed.

(** *** Joining and reordering reaction lists *)

Lemma Forall2_join {A B C} (P : A → B → Prop) (Q : A → C → Prop)
    (S : B → C → Prop) (l : list A) (k : list B) (m : list C) :
  (∀ x y z, P x y → Q x z → S y z) →
  Forall2 P l k → Forall2 Q l m → Forall2 S k m.
Proof.
  intros HS HP. revert m.
  induction HP as [|x y l k Hxy _ IH]; intros m HQ.
  - apply Forall2_nil_inv_l in HQ as ->. constructor.
  - apply Forall2_cons_inv_l in HQ as (z & m' & Hxz & HQ & ->).
    constructor; [by eapply HS | by apply IH].
Qed.

(** The rate constants that are returned are a function of the
    reactions. *)
Lemma parsed_fmap (rxns : list reaction) (k : list expr) :
  Forall2 (λ rxn ke, sympify (coeff rxn) = Parsed ke) rxns k →
  k = (λ rxn, match sympify (coeff rxn) with
              | Parsed e => e
              | NoExpression | SympifyError => Integer 0
              end) <$> rxns.
Proof.
  induction 1 as [|rxn ke rxns k Hke _ IH]; [done|].
  rewrite fmap_cons, <- IH. by rewrite Hke.
Qed.


Lemma rsum_Permutation (l l' : list R) : l ≡ₚ l' → rsum l = rsum l'.
Proof.
  unfold rsum. induction 1 as [|x l l' _ IH|x x' l|l l' l'' _ IH _ IH'];
    simpl; [done | by rewrite IH | ring | congruence].
Qed.


(** *** The symbols of the derivatives *)

Lemma free_symbols_foldl_Mul (x : expr) (xs : list expr) (s : symbol) :
  s ∈ free_symbols (foldl Mul x xs) →
  s ∈ free_symbols x ∨ ∃ e, e ∈ xs ∧ s ∈ free_symbols e.
Proof.
  revert x. induction xs as [|y xs IH]; intros x; simpl.
  - by left.
  - intros [[Hx|Hy]%elem_of_app|(e & He & Hs)]%IH.
    + by left.
    + right. exists y. split; [by left | done].
    + right. exists e. split; [by right | done].
Qed.

Lemma free_symbols_prod (seq : list expr) (s : symbol) :
  s ∈ free_symbols (prod seq) → ∃ e, e ∈ seq ∧ s ∈ free_symbols e.
Proof.
  destruct seq as [|x xs]; simpl.
  - by intros ?%elem_of_nil.
  - intros [Hx|(e & He & Hs)]%free_symbols_foldl_Mul.
    + exists x. split; [by left | done].
    + exists e. split; [by right | done].
Qed.

Lemma powers_free_symbols (names : list string) (m : gmap string nat)
    (factors : list expr) (e : expr) (s : symbol) :
  powers (dict_zip names (symbols names)) m = Some factors →
  e ∈ factors → s ∈ free_symbols e →
  ∃ n e', n ∈ names ∧ is_Some (m !! n) ∧ symbols_of n = Single e'
          ∧ s ∈ free_symbols e'.
Proof.
  unfold powers. intros Hp%mapM_Some_1 He Hs.
  apply list_elem_of_lookup in He as [i He].
  destruct (Forall2_lookup_r _ _ _ _ _ Hp He) as ([n q] & Hn & Hq).
  simpl in Hq. rewrite dict_zip_lookup in Hq.
  case_decide; [|done].
  destruct (symbols_of n) as [e'| |] eqn:Hsym; simplify_eq/=.
  exists n, e'. split; [done|]. split; [|done].
  exists q. apply elem_of_map_to_list.
  apply list_elem_of_lookup. by exists i.
Qed.

Lemma rate_free_symbols (names : list string) (ke : expr)
    (m : gmap string nat) (r : expr) (s : symbol) :
  rate (dict_zip names (symbols names)) ke m = Some r →
  s ∈ free_symbols r →
  s ∈ free_symbols ke
  ∨ ∃ n e', n ∈ names ∧ is_Some (m !! n) ∧ symbols_of n = Single e'
            ∧ s ∈ free_symbols e'.
Proof.
  unfold rate. destruct (powers _ _) as [factors|] eqn:Hp; simpl; [|done].
  intros [= <-]. simpl.
  intros [?|(e & He & Hs)%free_symbols_prod]%elem_of_app; [by left|].
  right. by apply (powers_free_symbols _ _ _ _ _ Hp He).
Qed.

Lemma accumulate_fold_free_symbols (P : symbol → Prop) (r : expr)
    (l : list (string * Z)) (f f' : gmap string expr) :
  foldlM (accumulate r) f l = Some f' →
  (∀ s, s ∈ free_symbols r → P s) →
  map_Forall (λ _ e, ∀ s, s ∈ free_symbols e → P s) f →
  map_Forall (λ _ e, ∀ s, s ∈ free_symbols e → P s) f'.
Proof.
  intros Hrun Hr. revert f Hrun.
  induction l as [|[k v] l IH]; intros f Hrun Hf.
  - by injection Hrun as <-.
  - rewrite foldlM_cons, accumulate_eq in Hrun.
    destruct (f !! k) as [e|] eqn:Hk; [|done]. simpl in Hrun.
    apply (IH _ Hrun). apply map_Forall_insert_2; [|done].
    intros s. simpl.
    intros [?|?]%elem_of_app; [by apply (Hf k e Hk) | by apply Hr].
Qed.

Lemma run_free_symbols (names : list string) (rxns : list reaction)
    (P : symbol → Prop) (st st' : gmap string expr * list expr) :
  foldlM (step (dict_zip names (symbols names))) st rxns = Some st' →
  (∀ n e s, n ∈ names → symbols_of n = Single e → s ∈ free_symbols e →
            P s) →
  (∀ rxn ke s, rxn ∈ rxns → sympify (coeff rxn) = Parsed ke →
               s ∈ free_symbols ke → P s) →
  map_Forall (λ _ e, ∀ s, s ∈ free_symbols e → P s) st.1 →
  map_Forall (λ _ e, ∀ s, s ∈ free_symbols e → P s) st'.1.
Proof.
  intros Hrun Hnames. revert st Hrun.
  induction rxns as [|rxn rxns IH]; intros st Hrun Hk Hst.
  - by injection Hrun as <-.
  - rewrite foldlM_cons in Hrun.
    destruct (step _ st rxn) as [st1|] eqn:Hstep; [|done]. simpl in Hrun.
    apply (IH _ Hrun);
      [intros rxn' ke s ?; apply Hk; by right|].
    unfold step in Hstep.
    destruct (sympify (coeff rxn)) as [ke| |] eqn:Hke; [|done|done].
    destruct (rate _ ke _) as [r|] eqn:Hr; simpl in Hstep; [|done].
    destruct (foldlM _ _ _) as [f'|] eqn:Hf; simpl in Hstep; [|done].
    injection Hstep as <-. simpl.
    apply (accumulate_fold_free_symbols P _ _ _ _ Hf); [|done].
    intros s [?|(n & e' & Hn & _ & Hsym & Hs)]%(rate_free_symbols _ _ _ _ _ Hr).
    + apply (Hk rxn ke); [by left | done | done].
    + by apply (Hnames n e').
Qed.

(** X5.  A derivative expression that [mk_exprs_symbs] returns has no
    symbols but those of the entries of the other two components: the
    symbols that [sym.symbols] made of the names of the species list, and
    the symbols of the expressions that [sym.S] made of the strings of the
    rate constants.  (The canonical forms of SymPy may drop symbols of
    the term that is built here, and add none.) *)
Theorem mk_exprs_symbs_free_symbols (rxns : list reaction)
    (names : list string) (ydot : list expr) (symbs : list named)
    (k : list expr) (e : expr) (s : symbol) :
  mk_exprs_symbs rxns names = Some (ydot, symbs, k) →
  e ∈ ydot → s ∈ free_symbols e →
  (∃ e', Single e' ∈ symbs ∧ s ∈ free_symbols e')
  ∨ (∃ ke, ke ∈ k ∧ s ∈ free_symbols ke).
Proof.
  intros Hmk He Hs.
  destruct (mk_exprs_symbs_inv (R:=Z) _ _ _ _ _ Hmk) as (Hsymbs & Hk & _).
  apply mk_exprs_symbs_run in Hmk as (st & Hrun & HF & _).
  apply list_elem_of_lookup in He as [i He].
  destruct (Forall2_lookup_r _ _ _ _ _ HF He) as (n & _ & Hn).
  refine (run_free_symbols names rxns
            (λ s, (∃ e', Single e' ∈ symbs ∧ s ∈ free_symbols e')
                  ∨ (∃ ke, ke ∈ k ∧ s ∈ free_symbols ke))
            _ _ Hrun _ _ _ n e Hn s Hs).
  - intros n' e' s' Hin Hsym Hs'. left. exists e'. split; [|done].
    rewrite Hsymbs, <- Hsym. apply list_elem_of_fmap. by exists n'.
  - intros rxn ke s' Hin Hke Hs'. right. exists ke. split; [|done].
    apply list_elem_of_lookup in Hin as [j Hj].
    destruct (Forall2_lookup_l _ _ _ _ _ Hk Hj) as (ke' & Hke' & Hp).
    simpl in Hp. apply list_elem_of_lookup. exists j. congruence.
  - intros n' e'. simpl. rewrite zeros_lookup.
    case_decide; [|done]. intros [= <-] ? ?%elem_of_nil. done.
Qed.

(** *** [prod] *)

End SymbolicConstrMore.

(** ** [integrate_vode]: further properties *)

Section IntegrateVodeMore.
Import StateExn OdesysVode.
Context {T St : Type} {sys : ODEsys T} {solver : Ode T St}.
Context (zero : T).

(** *** Writing a row *)

Lemma set_row_Raise (idx : nat) (v : list T) (a : list (list T)) (n : nat)
    (e : exn) :
  set_row idx v a = Raise e →
  (idx < length a)%nat → Forall (λ row, length row = n) a →
  e = ValueError ∧ length v ≠ n ∧ length v ≠ 1%nat.
Proof.
  unfold set_row. intros Hset Hidx Hrows.
  destruct (lookup_lt_is_Some_2 a idx Hidx) as [old Hold].
  rewrite Hold in Hset.
  rewrite (Forall_lookup_1 _ _ _ _ Hrows Hold) in Hset.
  case_decide as Hlen; [done|].
  destruct v as [|x [|? ?]]; [|done|]; injection Hset as <-; by simpl.
Qed.

Lemma set_row_lookup (idx : nat) (v : list T) (a a' : list (list T))
    (n : nat) :
  set_row idx v a = Ok a' → Forall (λ row, length row = n) a →
  a' !! idx = Some v
  ∨ ∃ x, v = [x] ∧ a' !! idx = Some (replicate n x).
Proof.
  unfold set_row. intros Hset Hrows.
  destruct (a !! idx) as [old|] eqn:Hold; [|done].
  assert (Hidx : (idx < length a)%nat) by (by eapply lookup_lt_Some).
  rewrite (Forall_lookup_1 _ _ _ _ Hrows Hold) in Hset.
  case_decide as Hlen.
  - injection Hset as <-. left. by apply list_lookup_insert_eq.
  - destruct v as [|x [|? ?]]; [done| |done].
    injection Hset as <-. right. exists x. split; [done|].
    by apply list_lookup_insert_eq.
Qed.

(** *** The rows of the trajectory *)

Lemma loop_rows (args : list (list T)) (idx : nat) (ts : list T) (r : St)
    (yout out : list (list T)) (w w' : world St) (n : nat) :
  loop args idx ts r yout w = (Ok out, w') →
  Forall (λ row, length row = n) yout →
  ∃ vs, visited w' = visited w ++ vs
        ∧ (∀ i, (i < idx)%nat → out !! i = yout !! i)
        ∧ ∀ i r', vs !! i = Some r' →
            out !! (idx + i)%nat = Some (ode_y r')
            ∨ ∃ x, ode_y r' = [x]
                   ∧ out !! (idx + i)%nat = Some (replicate n x).
Proof.
  revert idx r yout w. induction ts as [|t ts IH]; intros idx r yout w.
  - intros [= <- <-] _. exists []. split; [by rewrite app_nil_r|].
    split; [done|]. by intros i r' ?.
  - intros [(e & _ & [=])
           |(r' & w1 & Hs & [(_ & [=] & _)
                            |[(_ & e & _ & [=] & _)
                             |(_ & yout' & Hset & Hl)]])]%loop_cons_inv
           Hrows.
    apply serve_counted in Hs as [_ Hv].
    pose proof (set_row_lookup _ _ _ _ _ Hset Hrows) as Hrow.
    apply set_row_inv in Hset as (_ & Hrows' & Hother).
    destruct (IH _ _ _ _ Hl (Hrows' _ Hrows)) as (vs & Hvs & Hlow & Hhigh).
    exists (r' :: vs). split; [|split].
    + rewrite Hvs. simpl. by rewrite Hv, <- app_assoc.
    + intros i Hi. rewrite Hlow by lia. apply Hother. lia.
    + intros [|i] r'' Hr''.
      * injection Hr'' as <-. rewrite Nat.add_0_r, Hlow by lia.
        exact Hrow.
      * replace (idx + S i)%nat with (S idx + i)%nat by lia.
        by apply Hhigh.
Qed.

(** X7.  The rows of a returned trajectory are the states of the solver:
    the row of the time point [idx >= 1] is [r.y] as it is after the
    call of [r.integrate] for that time point, or, when [r.y] has a
    single entry, that entry in every column. *)
Theorem integrate_vode_rows (tout y0 params : list T) (w' : world St)
    (yout : list (list T)) (diag : info) (i : nat) (r : St) :
  integrate_vode zero tout y0 params = (Ok (yout, diag), w') →
  visited w' !! i = Some r →
  yout !! S i = Some (ode_y r)
  ∨ ∃ x, ode_y r = [x] ∧ yout !! S i = Some (replicate (length y0) x).
Proof.
  intros [(_ & [=] & _)|(t0 & args & res' & Ht0 & Hl & Hres)]%integrate_vode_inv.
  destruct res' as [yout'|e]; [|done]. injection Hres as -> ->.
  apply (loop_rows _ _ _ _ _ _ _ _ (length y0)) in Hl
    as (vs & Hvs & _ & Hhigh).
  - simpl in Hvs. subst vs. apply Hhigh.
  - apply Forall_insert; [|done].
    apply Forall_replicate. by rewrite length_replicate.
Qed.

(** *** Every way the loop can end *)

Lemma loop_outcome (args : list (list T)) (idx : nat) (ts : list T)
    (r : St) (yout : list (list T)) (w w' : world St)
    (res : result (list (list T))) (n : nat) :
  loop args idx ts r yout w = (res, w') →
  Forall (λ row, length row = n) yout →
  (idx + length ts ≤ length yout)%nat →
  ∃ vs, visited w' = visited w ++ vs
    ∧ (length vs ≤ length ts)%nat
    ∧ match res with
      | Ok _ => Forall (λ r, successful r = true) vs
      | Raise e =>
          (Forall (λ r, successful r = true) vs
           ∧ ∃ r0 t0 w0, serve args (integrate r0 t0) w0 = (Raise e, w'))
          ∨ ∃ vs0 r',
              vs = vs0 ++ [r']
              ∧ Forall (λ r, successful r = true) vs0
              ∧ ((successful r' = false ∧ e = failed)
                 ∨ (successful r' = true ∧ e = ValueError
                    ∧ length (ode_y r') ≠ n
                    ∧ length (ode_y r') ≠ 1%nat))
      end.
Proof.
  revert idx r yout w. induction ts as [|t ts IH]; intros idx r yout w.
  - intros [= <- <-] _ _. exists []. by rewrite app_nil_r.
  - intros [(e & Hs & ->)
           |(r' & w1 & Hs & [(Hsucc & -> & ->)
                            |[(Hsucc & e & Hset & -> & ->)
                             |(Hsucc & yout' & Hset & Hl)]])]%loop_cons_inv
           Hrows Hidx; simpl in Hidx.
    + exists []. pose proof (serve_counted _ _ _ _ _ Hs) as [_ Hv].
      rewrite app_nil_r. split; [done|]. split; [simpl; lia|].
      left. split; [done|]. by exists r, t, w.
    + apply serve_counted in Hs as [_ Hv]. exists [r'].
      split; [simpl; by rewrite Hv|]. split; [simpl; lia|].
      right. exists [], r'. split; [done|]. split; [done|]. by left.
    + apply serve_counted in Hs as [_ Hv]. exists [r'].
      split; [simpl; by rewrite Hv|]. split; [simpl; lia|].
      right. exists [], r'. split; [done|]. split; [done|]. right.
      split; [done|]. apply (set_row_Raise _ _ _ n) in Hset; [done|lia|done].
    + apply serve_counted in Hs as [_ Hv].
      apply set_row_inv in Hset as (Hlen & Hrows' & _).
      destruct (IH _ _ _ _ Hl (Hrows' _ Hrows)) as (vs & Hvs & Hle & Hres);
        [lia|].
      exists (r' :: vs). split; [|split].
      * rewrite Hvs. simpl. by rewrite Hv, <- app_assoc.
      * simpl. lia.
      * destruct res as [out|e]; [by constructor|].
        destruct Hres as [[HF Hcb]|(vs0 & r'' & -> & HF & Hend)].
        -- left. split; [by constructor | done].
        -- right. exists (r' :: vs0), r''. split; [done|].
           split; [by constructor | done].
Qed.

Lemma integrate_vode_outcome (tout y0 params : list T) (w' : world St)
    (res : result (list (list T) * info)) :
  integrate_vode zero tout y0 params = (res, w') →
  (tout = [] ∧ res = Raise IndexError ∧ w' = fresh)
  ∨ (length (visited w') ≤ length tout - 1)%nat
    ∧ match res with
      | Ok _ => Forall (λ r, successful r = true) (visited w')
      | Raise e =>
          (Forall (λ r, successful r = true) (visited w')
           ∧ ∃ args r0 t0 w0,
               serve args (integrate r0 t0) w0 = (Raise e, w'))
          ∨ ∃ vs0 r',
              visited w' = vs0 ++ [r']
              ∧ Forall (λ r, successful r = true) vs0
              ∧ ((successful r' = false ∧ e = failed)
                 ∨ (successful r' = true ∧ e = ValueError
                    ∧ length (ode_y r') ≠ length y0
                    ∧ length (ode_y r') ≠ 1%nat))
      end.
Proof.
  intros [?|(t0 & args & res' & Ht0 & Hl & ->)]%integrate_vode_inv;
    [by left|]. right.
  apply (loop_outcome _ _ _ _ _ _ _ _ (length y0)) in Hl
    as (vs & Hvs & Hle & Hres).
  - simpl in Hvs. subst vs. rewrite length_drop in Hle.
    split; [done|]. destruct res' as [out|e]; [done|].
    destruct Hres as [[HF (r0 & t & w0 & Hcb)]|?]; [left | by right].
    split; [done|]. by exists args, r0, t, w0.
  - apply Forall_insert; [|done].
    apply Forall_replicate. by rewrite length_replicate.
  - rewrite length_insert, length_replicate, length_drop.
    destruct tout; [done | simpl; lia].
Qed.

(** X8.  No step is made after a step that failed, and none beyond the
    time grid: whatever the outcome of [integrate_vode], the solver was
    advanced at most [len(tout) - 1] times, and a state in which
    [r.successful()] is false is the state of the last call of
    [r.integrate]. *)
Theorem integrate_vode_stops_at_failure (tout y0 params : list T)
    (w' : world St) (res : result (list (list T) * info)) :
  integrate_vode zero tout y0 params = (res, w') →
  (length (visited w') ≤ length tout - 1)%nat
  ∧ ∀ i r, visited w' !! i = Some r → successful r = false →
      S i = length (visited w').
Proof.
  intros [(-> & -> & ->)|[Hle Hres]]%integrate_vode_outcome.
  { split; [simpl; lia | by intros i r ?]. }
  split; [done|]. intros i r Hi Hfail.
  assert (Hno : Forall (λ r, successful r = true) (visited w') → False).
  { intros HF. pose proof (Forall_lookup_1 _ _ _ _ HF Hi) as Hs.
    simpl in Hs. congruence. }
  destruct res as [out|e]; [done|].
  destruct Hres as [[HF _]|(vs0 & r' & Hvs & HF & _)]; [done|].
  rewrite Hvs in Hi |- *. rewrite length_app. simpl.
  destruct (decide (i < length vs0)%nat) as [Hlt|Hge].
  - rewrite lookup_app_l in Hi by done.
    pose proof (Forall_lookup_1 _ _ _ _ HF Hi) as Hs. simpl in Hs.
    congruence.
  - apply lookup_lt_Some in Hi. rewrite length_app in Hi. simpl in Hi.
    lia.
Qed.

(** X9.  The exceptions of [integrate_vode], once the solver object is
    set up: [IndexError] on an empty time grid, before any step; the
    assertion error after a step that failed; [ValueError] after a
    successful step whose [r.y] has neither the length of [y0] nor the
    length one; and the exception with which a call of [r.integrate]
    ended, served by the methods of the system, all the steps before it
    having succeeded.  There are no others. *)
Theorem integrate_vode_exceptions (tout y0 params : list T)
    (w' : world St) (e : exn) :
  integrate_vode zero tout y0 params = (Raise e, w') →
  (tout = [] ∧ e = IndexError ∧ w' = fresh)
  ∨ (∃ r, last (visited w') = Some r ∧ successful r = false
          ∧ e = AssertionError "Integration failed")
  ∨ (∃ r, last (visited w') = Some r ∧ successful r = true
          ∧ e = ValueError
          ∧ length (ode_y r) ≠ length y0 ∧ length (ode_y r) ≠ 1%nat)
  ∨ (Forall (λ r, successful r = true) (visited w')
     ∧ ∃ args r t, (answered args (integrate r t)).1 = Raise e).
Proof.
  intros [(-> & [= <-] & ->)|[_ Hres]]%integrate_vode_outcome;
    [by left|]. right.
  destruct Hres as [[HF (args & r & t & w & Hs)]
                   |(vs0 & r' & -> & _ & [[Hs ->]|(Hs & -> & Hn & H1)])].
  - right; right. split; [done|]. exists args, r, t.
    rewrite serve_answered in Hs. by injection Hs as ->.
  - left. exists r'. by rewrite last_snoc.
  - right; left. exists r'. by rewrite last_snoc.
Qed.

(** *** Grids without a step *)

(** X10.  On a time grid of one point [integrate_vode] returns the
    initial state as the only row, with both counters zero, and neither
    the solver nor a callback is called. *)
Theorem integrate_vode_single_point (t0 : T) (y0 params : list T) :
  integrate_vode zero [t0] y0 params = (Ok ([y0], Info 0 0), fresh).
Proof.
  unfold integrate_vode, mbind, M_bind, lift, set_row. simpl.
  rewrite length_replicate, decide_True by done. reflexivity.
Qed.
End IntegrateVodeMore.

(** ** [CythonODEsys.setup]: further properties *)

Section CythonMore.
Import OdesysCython.
Context `{CR : CRing R}.

(** *** Comprehensions that may raise *)

Lemma mapM_result_Ok {A B} (g : A → result B) (l : list A) :
  Forall (λ x, ∃ y, g x = Ok y) l → ∃ k, mapM g l = Ok k.
Proof.
  induction 1 as [|x l [y Hy] _ [k IH]]; [by exists []|].
  exists (y :: k). by rewrite mapM_cons, Hy, IH.
Qed.

Lemma mapM_result_Raise {A B} (g : A → result B) (l : list A) (e : exn) :
  mapM g l = Raise e → ∃ x, x ∈ l ∧ g x = Raise e.
Proof.
  induction l as [|x l IH]; [done|]. rewrite mapM_cons.
  destruct (g x) as [y|e'] eqn:Hx.
  - destruct (mapM g l) as [k|e'']; [done|]. intros [= ->].
    destruct (IH eq_refl) as (x' & Hin & Hx'). exists x'.
    split; [by right | done].
  - intros [= ->]. exists x. split; [by left | done].
Qed.

Lemma entry_Ok {A B} (h : nat → nat → A → B) (rows : list (list A))
    (ri ci : nat) :
  (∃ v, (row ← index rows ri; e ← index row ci; mret (h ri ci e)) = Ok v)
  ↔ ∃ row e, rows !! ri = Some row ∧ row !! ci = Some e.
Proof.
  unfold index. destruct (rows !! ri) as [row|]; simpl.
  - destruct (row !! ci) as [e|] eqn:He; simpl.
    + split; [by exists row, e | by eexists].
    + split; [by intros [? ?]|]. intros (? & ? & [= <-] & ?). congruence.
  - split; [by intros [? ?] | by intros (? & ? & ? & ?)].
Qed.

Lemma entry_Raise {A B} (h : nat → nat → A → B) (rows : list (list A))
    (ri ci : nat) (e : exn) :
  (row ← index rows ri; e ← index row ci; mret (h ri ci e)) = Raise e →
  e = IndexError.
Proof.
  unfold index. destruct (rows !! ri) as [row|]; simpl; [|by intros [= <-]].
  destruct (row !! ci) as [x|]; simpl; [done | by intros [= <-]].
Qed.

Lemma elem_of_pairs (n m : nat) (ri ci : nat) :
  (ri, ci) ∈ (seq 0 n ≫= λ ri, seq 0 m ≫= λ ci, [(ri, ci)])
  ↔ (ri < n)%nat ∧ (ci < m)%nat.
Proof.
  rewrite list_elem_of_bind. split.
  - intros (r & (c & [= -> ->]%list_elem_of_singleton & Hc)%list_elem_of_bind
              & Hr).
    apply elem_of_seq in Hc, Hr. lia.
  - intros [Hr Hc]. exists ri. split; [|apply elem_of_seq; lia].
    apply list_elem_of_bind. exists ci.
    split; [by apply list_elem_of_singleton | apply elem_of_seq; lia].
Qed.

(** X11.  [setup] returns exactly when the Jacobian has an entry
    [self.j[ri, ci]] for all [ri] and [ci] below [len(self.f)]; the only
    exception it raises is the [IndexError] of a missing entry, whatever
    the lengths of [self.y] and [self.p]. *)
Theorem setup_IndexError (self : ODEsys) (urandom : Z) :
  ((∃ m, setup self urandom = Ok m)
   ↔ ∀ ri ci, (ri < length (f self))%nat → (ci < length (f self))%nat →
       ∃ row e, j self !! ri = Some row ∧ row !! ci = Some e)
  ∧ ∀ e, setup self urandom = Raise e → e = IndexError.
Proof.
  unfold setup.
  pose proof (mapM_index (λ i e, (i, xreplace (subs (y self)) e))
                (f self) []) as Hfs.
  cbn [app length Nat.add] in Hfs. rewrite Hfs. cbn [mbind result_bind].
  set (g := λ rc : nat * nat,
         row ← index (j self) rc.1;
         e ← index row rc.2;
         mret (rc.1, rc.2, xreplace (subs (y self)) e)).
  split; [split|].
  - intros [m Hm] ri ci Hri Hci.
    destruct (mapM g _) as [k|e] eqn:Hk; [|done].
    assert (Hall : ∀ rc, rc ∈ (seq 0 (length (f self)) ≫= λ ri,
                         seq 0 (length (f self)) ≫= λ ci, [(ri, ci)]) →
                       ∃ v, g rc = Ok v).
    { clear Hm. revert k Hk.
      induction (seq 0 (length (f self)) ≫= _) as [|x l IH];
        intros k Hk rc Hin; [by apply elem_of_nil in Hin|].
      rewrite mapM_cons in Hk.
      destruct (g x) as [v|] eqn:Hx; [|done].
      destruct (mapM g l) as [k'|] eqn:Hl; [|done].
      apply elem_of_cons in Hin as [->|Hin]; [by exists v|].
      by apply (IH k'). }
    destruct (Hall (ri, ci)) as [v Hv]; [by apply elem_of_pairs|].
    apply (entry_Ok (λ ri ci e, (ri, ci, xreplace (subs (y self)) e))).
    by exists v.
  - intros Hall.
    destruct (mapM_result_Ok g (seq 0 (length (f self)) ≫= λ ri,
                seq 0 (length (f self)) ≫= λ ci, [(ri, ci)])) as [k Hk].
    + apply Forall_forall. intros [ri ci] [Hri Hci]%elem_of_pairs.
      apply (entry_Ok (λ ri ci e, (ri, ci, xreplace (subs (y self)) e))).
      by apply Hall.
    + rewrite Hk. by eexists.
  - intros e He. destruct (mapM g _) as [k|e'] eqn:Hk; [done|].
    injection He as ->.
    apply mapM_result_Raise in Hk as ([ri ci] & _ & Hg).
    by apply (entry_Raise
                (λ ri ci e, (ri, ci, xreplace (subs (y self)) e))) in Hg.
Qed.
(** *** The symbols of the emitted expressions *)

Lemma mapM_result_elem {A B} (g : A → result B) (l : list A) (k : list B)
    (v : B) :
  mapM g l = Ok k → v ∈ k → ∃ x, x ∈ l ∧ g x = Ok v.
Proof.
  revert k. induction l as [|x l IH]; intros k.
  - intros [= <-] ?%elem_of_nil. done.
  - rewrite mapM_cons. destruct (g x) as [v'|] eqn:Hx; [|done].
    destruct (mapM g l) as [k'|]; [|done]. intros [= <-].
    intros [->|Hin]%elem_of_cons.
    + exists x. split; [by left | done].
    + destruct (IH k' eq_refl Hin) as (x' & Hin' & Hx').
      exists x'. split; [by right | done].
Qed.

Lemma free_symbols_xreplace (y : list symbol) (e : expr) (s : symbol) :
  s ∈ free_symbols (xreplace (subs y) e) →
  (∃ i s0, y !! i = Some s0 ∧ s0 ∈ free_symbols e
           ∧ s = (index_name i, no_assumptions))
  ∨ ((s ∉ y) ∧ s ∈ free_symbols e).
Proof.
  induction e as [n a|z|a IHa b IHb|a IHa b IHb|b IHb q];
    cbn [free_symbols xreplace].
  - destruct (decide ((n, a) ∈ y)) as [Hin|Hnin].
    + destruct (subs_lookup_Some _ _ Hin) as (i & Hi & ->). simpl.
      intros ->%list_elem_of_singleton. left. exists i, (n, a).
      split; [done|]. split; [by left | done].
    + rewrite subs_lookup_None by done. simpl.
      intros ->%list_elem_of_singleton. right. split; [done | by left].
  - by intros ?%elem_of_nil.
  - intros [[(i & s0 & ? & ? & ?)|[? ?]]%IHa
           |[(i & s0 & ? & ? & ?)|[? ?]]%IHb]%elem_of_app;
      [left; exists i, s0|right|left; exists i, s0|right];
      repeat split; try done; apply elem_of_app; auto.
  - intros [[(i & s0 & ? & ? & ?)|[? ?]]%IHa
           |[(i & s0 & ? & ? & ?)|[? ?]]%IHb]%elem_of_app;
      [left; exists i, s0|right|left; exists i, s0|right];
      repeat split; try done; apply elem_of_app; auto.
  - exact IHb.
Qed.

(** X12.  The expressions that [setup] emits mention the state symbols
    as elements of the array [y] only.  A symbol of the expression that is
    emitted for [self.f[i]] or [self.j[ri, ci]] is either [y[k]], where
    the state symbol at the position [k] of [self.y] is a symbol of the
    expression of the system, or a symbol of that expression that is not
    a state symbol, which is emitted as it is. *)
Theorem setup_emitted_symbols (self : ODEsys) (urandom : Z) (m : module) :
  setup self urandom = Ok m →
  (∀ i e s, (i, e) ∈ f_exprs m → s ∈ free_symbols e →
     ∃ e0, f self !! i = Some e0
       ∧ ((∃ k s0, y self !! k = Some s0 ∧ s0 ∈ free_symbols e0
                   ∧ s = (index_name k, no_assumptions))
          ∨ ((s ∉ y self) ∧ s ∈ free_symbols e0)))
  ∧ (∀ ri ci e s, (ri, ci, e) ∈ j_exprs m → s ∈ free_symbols e →
       ∃ row e0, j self !! ri = Some row ∧ row !! ci = Some e0
         ∧ ((∃ k s0, y self !! k = Some s0 ∧ s0 ∈ free_symbols e0
                     ∧ s = (index_name k, no_assumptions))
            ∨ ((s ∉ y self) ∧ s ∈ free_symbols e0))).
Proof.
  unfold setup.
  destruct (mapM _ (seq 0 (length (f self)))) as [fs|] eqn:Hfs;
    cbn [mbind result_bind]; [|done].
  destruct (mapM _ (_ ≫= _)) as [js|] eqn:Hjs;
    cbn [mbind result_bind mret result_ret]; [|done].
  intros [= <-]. cbn [f_exprs j_exprs]. split.
  - intros i e s Hin Hs.
    destruct (mapM_result_elem _ _ _ _ Hfs Hin) as (i' & _ & Hi').
    unfold index in Hi'.
    destruct (f self !! i') as [e0|] eqn:He0; [|done].
    cbn [mbind result_bind mret result_ret] in Hi'.
    injection Hi' as -> <-. exists e0. split; [done|].
    by apply free_symbols_xreplace.
  - intros ri ci e s Hin Hs.
    destruct (mapM_result_elem _ _ _ _ Hjs Hin) as ([ri' ci'] & _ & Hrc).
    unfold index in Hrc. cbn [fst snd] in Hrc.
    destruct (j self !! ri') as [row|] eqn:Hrow; [|done].
    cbn [mbind result_bind] in Hrc.
    destruct (row !! ci') as [e0|] eqn:He0; [|done].
    cbn [mbind result_bind mret result_ret] in Hrc.
    injection Hrc as -> -> <-. exists row, e0.
    split; [done|]. split; [done|]. by apply free_symbols_xreplace.
Qed.
End CythonMore.

(** ** The name of the generated module: its form *)

Section ModuleNamesMore.
Import OdesysCython.

Lemma hex_digit_elem (d : Z) :
  hex_digit d ∈ String.list_ascii_of_string "0123456789abcdef".
Proof.
  destruct d as [|q|q]; [| |].
  - apply (bool_decide_unpack _). vm_compute. exact I.
  - destruct q as [q|q|]; try destruct q as [q|q|];
      try destruct q as [q|q|]; try destruct q as [q|q|];
      apply (bool_decide_unpack _); vm_compute; exact I.
  - apply (bool_decide_unpack _). vm_compute. exact I.
Qed.

Lemma hex_digits_form (n : nat) (z : Z) :
  String.length (hex_digits n z) = n
  ∧ Forall (λ c, c ∈ String.list_ascii_of_string "0123456789abcdef")
           (String.list_ascii_of_string (hex_digits n z)).
Proof.
  induction n as [|n [IHl IHc]]; [split; [done | constructor]|].
  cbn [hex_digits String.length String.list_ascii_of_string].
  split; [by rewrite IHl|]. constructor; [apply hex_digit_elem | done].
Qed.

(** X13.  The name that [setup] gives the module is [ode_cython_]
    followed by ten lower-case hexadecimal digits, whatever the system
    and the random draw: it is a Python identifier of 21 characters. *)
Theorem setup_mod_name (self : ODEsys) (urandom : Z) (m : module) :
  setup self urandom = Ok m →
  ∃ d, mod_name m = "ode_cython_" +:+ d
       ∧ String.length d = 10%nat
       ∧ Forall (λ c, c ∈ String.list_ascii_of_string "0123456789abcdef")
                (String.list_ascii_of_string d).
Proof.
  unfold setup.
  destruct (mapM _ (seq 0 _)) as [fs|]; cbn [mbind result_bind]; [|done].
  destruct (mapM _ _) as [js|]; cbn [mbind result_bind]; [|done].
  intros [= <-]. cbn [mod_name]. unfold mod_name_of, hex.
  exists (hex_digits 10 (uuid4 urandom / 16 ^ Z.of_nat 22)).
  split; [by rewrite <- (substring_hex_digits 10 22)|].
  apply hex_digits_form.
Qed.
End ModuleNamesMore.

(** ** [MOLsys]: further properties *)

Section DiffusionMore.
Import OdesysDiffusion.
Context {T : Type}.

(** *** Loops that collect their results *)

Lemma mapM_result_inv {A B} (g : A → result B) (l : list A) (k : list B) :
  mapM g l = Ok k → Forall2 (λ x y, g x = Ok y) l k.
Proof.
  revert k. induction l as [|x l IH]; intros k.
  - intros [= <-]. constructor.
  - rewrite mapM_cons. destruct (g x) as [y|] eqn:Hx; [|done].
    destruct (mapM g l) as [k'|]; [|done]. intros [= <-].
    constructor; [done | by apply IH].
Qed.

Lemma mapM_seq {B} (n : nat) (g : nat → result B) (l : list B) :
  length l = n → (∀ i x, l !! i = Some x → g i = Ok x) →
  mapM g (seq 0 n) = Ok l.
Proof.
  intros <-. induction l as [|x l IH] using rev_ind; [done|]. intros Hg.
  rewrite length_app, seq_app. simpl. apply mapM_result_app.
  - apply IH. intros i y Hi. apply Hg.
    rewrite lookup_app_l; [done | by eapply lookup_lt_Some].
  - rewrite mapM_cons, (Hg (length l) x); [done|].
    by rewrite list_lookup_middle.
Qed.

(** *** The second derivative in space *)

Lemma getitem_nonneg (a : list T) (i : Z) :
  0 ≤ i → (Z.to_nat i < length a)%nat →
  ∃ x, a !! Z.to_nat i = Some x ∧ getitem a i = Ok x.
Proof.
  intros Hi Hlt. unfold getitem. rewrite decide_True by done.
  destruct (lookup_lt_is_Some_2 a _ Hlt) as [x Hx]. exists x.
  by rewrite Hx.
Qed.

Section SecondDerivativesFacts.
Context (difference : T → T → T → T).

(** X14.  With at least three species and at least as many bins as
    species, [second_derivatives_spatial] raises nothing on a state
    vector of [ny*n_lines] entries and writes, for each species [j], the
    difference of the three entries of [y] at the offsets [j] of the
    bins [k-1], [k] and [k+1], [k] being the bin index clipped to
    [[1, ny-2]], without wrapping around the end of [y]. *)
Theorem second_derivatives_spatial_interior (self : MOLsys) (i : Z)
    (y : list T) :
  3 ≤ ny self ≤ n_lines self →
  length y = Z.to_nat (ny self * n_lines self) →
  ∃ out,
    second_derivatives_spatial difference self i y = Ok out
    ∧ length out = Z.to_nat (ny self)
    ∧ ∀ j : nat, (j < Z.to_nat (ny self))%nat →
        let k := Z.min (ny self - 2) (Z.max i 1) in
        ∃ l c r,
          y !! Z.to_nat ((k - 1) * ny self + Z.of_nat j) = Some l
          ∧ y !! Z.to_nat (k * ny self + Z.of_nat j) = Some c
          ∧ y !! Z.to_nat ((k + 1) * ny self + Z.of_nat j) = Some r
          ∧ out !! j = Some (difference l c r).
Proof.
  intros Hny Hlen. unfold second_derivatives_spatial.
  unfold central_reference_bin, clip.
  set (k := Z.min (ny self - 2) (Z.max i 1)).
  assert (Hk : 1 ≤ k ≤ ny self - 2) by lia.
  assert (Hget : ∀ (d : Z) (j : nat),
            -1 ≤ d ≤ 1 → (j < Z.to_nat (ny self))%nat →
            ∃ x, y !! Z.to_nat ((k + d) * ny self + Z.of_nat j) = Some x
                 ∧ getitem y ((k + d) * ny self + Z.of_nat j) = Ok x).
  { intros d j Hd Hj. apply getitem_nonneg; [nia|]. rewrite Hlen. nia. }
  set (g := λ j : nat,
         left ← getitem y ((k - 1) * ny self + Z.of_nat j);
         cent ← getitem y (k * ny self + Z.of_nat j);
         rght ← getitem y ((k + 1) * ny self + Z.of_nat j);
         mret (difference left cent rght)).
  assert (Hg : ∀ j : nat, (j < Z.to_nat (ny self))%nat →
            ∃ l c r,
              y !! Z.to_nat ((k - 1) * ny self + Z.of_nat j) = Some l
              ∧ y !! Z.to_nat (k * ny self + Z.of_nat j) = Some c
              ∧ y !! Z.to_nat ((k + 1) * ny self + Z.of_nat j) = Some r
              ∧ g j = Ok (difference l c r)).
  { intros j Hj.
    destruct (Hget (-1) j ltac:(lia) Hj) as (l & Hl & Hgl).
    destruct (Hget 0 j ltac:(lia) Hj) as (c & Hc & Hgc).
    destruct (Hget 1 j ltac:(lia) Hj) as (r & Hr & Hgr).
    replace (k + -1) with (k - 1) in Hl, Hgl by lia.
    replace (k + 0) with k in Hc, Hgc by lia.
    exists l, c, r. unfold g. by rewrite Hgl, Hgc, Hgr. }
  destruct (mapM_result_Ok g (seq 0 (Z.to_nat (ny self)))) as [out Hout].
  { apply Forall_forall. intros j Hj%elem_of_seq.
    destruct (Hg j ltac:(lia)) as (l & c & r & _ & _ & _ & Hj').
    by eexists. }
  exists out. split; [done|]. apply mapM_result_inv in Hout.
  split; [by rewrite <- (Forall2_length _ _ _ Hout), length_seq|].
  intros j Hj. simpl.
  destruct (Hg j Hj) as (l & c & r & Hl & Hc & Hr & Hj').
  exists l, c, r. split; [done|]. split; [done|]. split; [done|].
  destruct (Forall2_lookup_l _ _ _ j j Hout) as (v & -> & Hv);
    [by apply lookup_seq_lt|]. congruence.
Qed.

(** X15.  With two species, as in the system of the notebook, the clip
    gives the reference bin [0] for every bin, and
    [second_derivatives_spatial] returns for every bin the same two
    values: the difference of the last bin of [y], read through the
    negative index, of the first and of the second. *)
Theorem second_derivatives_spatial_two_species (self : MOLsys) (i : Z)
    (y : list T) (l0 l1 c0 c1 r0 r1 : T) :
  ny self = 2 →
  y !! 0%nat = Some c0 → y !! 1%nat = Some c1 →
  y !! 2%nat = Some r0 → y !! 3%nat = Some r1 →
  y !! (length y - 2)%nat = Some l0 → y !! (length y - 1)%nat = Some l1 →
  second_derivatives_spatial difference self i y
  = Ok [difference l0 c0 r0; difference l1 c1 r1].
Proof.
  intros Hny Hc0 Hc1 Hr0 Hr1 Hl0 Hl1.
  assert (Hlen : (4 ≤ length y)%nat)
    by (apply lookup_lt_Some in Hr1; lia).
  unfold second_derivatives_spatial, central_reference_bin, clip.
  rewrite Hny.
  replace (Z.min (2 - 2) (Z.max i 1)) with 0 by lia.
  assert (Hneg : ∀ (d : Z) (x : T),
            -2 ≤ d < 0 →
            y !! Z.to_nat (Z.of_nat (length y) + d) = Some x →
            getitem y d = Ok x).
  { intros d x Hd Hx. unfold getitem.
    rewrite decide_False, decide_True by lia. by rewrite Hx. }
  assert (Hpos : ∀ (d : Z) (x : T),
            0 ≤ d → y !! Z.to_nat d = Some x → getitem y d = Ok x).
  { intros d x Hd Hx. unfold getitem.
    rewrite decide_True by lia. by rewrite Hx. }
  assert (G0 : getitem y ((0 - 1) * 2 + Z.of_nat 0) = Ok l0).
  { apply Hneg; [lia|].
    by replace (Z.to_nat _) with (length y - 2)%nat by lia. }
  assert (G1 : getitem y ((0 - 1) * 2 + Z.of_nat 1) = Ok l1).
  { apply Hneg; [lia|].
    by replace (Z.to_nat _) with (length y - 1)%nat by lia. }
  assert (G2 : getitem y (0 * 2 + Z.of_nat 0) = Ok c0)
    by (by apply Hpos).
  assert (G3 : getitem y (0 * 2 + Z.of_nat 1) = Ok c1)
    by (by apply Hpos).
  assert (G4 : getitem y ((0 + 1) * 2 + Z.of_nat 0) = Ok r0)
    by (by apply Hpos).
  assert (G5 : getitem y ((0 + 1) * 2 + Z.of_nat 1) = Ok r1)
    by (by apply Hpos).
  change (Z.to_nat 2) with 2%nat. cbn [seq]. rewrite !mapM_cons.
  rewrite G0, G2, G4. cbn [mbind result_bind mret result_ret].
  by rewrite G1, G3, G5.
Qed.

(** X16.  The bin enters [second_derivatives_spatial] only through the
    clip with the number of species: every bin from [ny - 2] on has the
    reference bin [ny - 2], and the values written for it are those of
    the bin [ny - 2]. *)
Theorem second_derivatives_spatial_bins (self : MOLsys) (i : Z)
    (y : list T) :
  ny self - 2 ≤ i →
  central_reference_bin self i = ny self - 2
  ∧ second_derivatives_spatial difference self i y
    = second_derivatives_spatial difference self (ny self - 2) y.
Proof.
  intros Hi.
  assert (Hk : ∀ i', ny self - 2 ≤ i' →
            central_reference_bin self i' = ny self - 2)
    by (intros i' ?; unfold central_reference_bin, clip; lia).
  split; [by apply Hk|]. unfold second_derivatives_spatial.
  by rewrite (Hk i), (Hk (ny self - 2)) by lia.
Qed.
End SecondDerivativesFacts.

(** *** The layout of the state *)

Lemma pairs_length (s n m : nat) :
  length (seq s n ≫= λ i, seq 0 m ≫= λ j, [(i, j)]) = (n * m)%nat.
Proof.
  revert s. induction n as [|n IH]; intros s; [done|].
  cbn [seq]. rewrite bind_cons, bind_singleton, length_app, length_fmap,
    length_seq, IH. lia.
Qed.

Lemma pairs_lookup (s n m i j : nat) :
  (i < n)%nat → (j < m)%nat →
  (seq s n ≫= λ i, seq 0 m ≫= λ j, [(i, j)]) !! (i * m + j)%nat
  = Some ((s + i)%nat, j).
Proof.
  revert s i. induction n as [|n IH]; intros s i Hi Hj; [lia|].
  cbn [seq]. rewrite bind_cons, bind_singleton. destruct i as [|i].
  - rewrite lookup_app_l by (rewrite length_fmap, length_seq; lia).
    rewrite list_lookup_fmap, lookup_seq_lt by lia. simpl.
    by rewrite Nat.add_0_r.
  - rewrite lookup_app_r by (rewrite length_fmap, length_seq; simpl; lia).
    rewrite length_fmap, length_seq.
    replace (S i * m + j - m)%nat with (i * m + j)%nat by (simpl; lia).
    rewrite IH by lia. do 2 f_equal. lia.
Qed.

Lemma concat_uniform {A} (c : nat) (l : list (list A)) :
  Forall (λ r, length r = c) l →
  length (concat l) = (length l * c)%nat
  ∧ ∀ t k row, l !! t = Some row → (k < c)%nat →
      concat l !! (t * c + k)%nat = row !! k.
Proof.
  induction 1 as [|r l Hr _ [IHl IH]]; [done|]. split.
  - simpl. rewrite length_app, IHl. lia.
  - intros [|t] k row Ht Hk; simpl in *.
    + injection Ht as ->. by rewrite lookup_app_l by lia.
    + rewrite lookup_app_r by lia. rewrite <- (IH t k row Ht Hk).
      f_equal. lia.
Qed.

Lemma flat_T_vstack_lookup (y0 : list (list T)) (n : nat) :
  y0 ≠ [] → Forall (λ a, length a = n) y0 →
  ∃ flat,
    flat_T_vstack y0 = Ok flat
    ∧ length flat = (n * length y0)%nat
    ∧ ∀ i j a x, y0 !! j = Some a → a !! i = Some x →
        flat !! (i * length y0 + j)%nat = Some x.
Proof.
  intros Hne Hrows. unfold flat_T_vstack.
  destruct y0 as [|a0 y0'] eqn:Hy0; [done|]. rewrite <- Hy0 in *.
  assert (Ha0 : length a0 = n).
  { rewrite Hy0 in Hrows. by apply Forall_cons in Hrows as [? _]. }
  rewrite decide_True
    by (eapply Forall_impl; [exact Hrows | simpl; congruence]).
  rewrite Ha0.
  set (g := λ ij : nat * nat, row ← index y0 ij.2; index row ij.1).
  assert (Hg : ∀ i j a x, y0 !! j = Some a → a !! i = Some x →
            g (i, j) = Ok x).
  { intros i j a x Hj Hi. unfold g, index. simpl. rewrite Hj. simpl.
    by rewrite Hi. }
  destruct (mapM_result_Ok g (seq 0 n ≫= λ i,
              seq 0 (length y0) ≫= λ j, [(i, j)])) as [flat Hflat].
  { apply Forall_forall. intros [i j] [Hi Hj]%elem_of_pairs.
    destruct (lookup_lt_is_Some_2 y0 j Hj) as [a Ha].
    pose proof (Forall_lookup_1 _ _ _ _ Hrows Ha) as Hla. simpl in Hla.
    destruct (lookup_lt_is_Some_2 a i ltac:(lia)) as [x Hx].
    exists x. by apply (Hg i j a). }
  exists flat. split; [done|]. apply mapM_result_inv in Hflat.
  split; [by rewrite <- (Forall2_length _ _ _ Hflat), pairs_length|].
  intros i j a x Hj Hi.
  assert (Hjlt : (j < length y0)%nat) by (by eapply lookup_lt_Some).
  assert (Hilt : (i < n)%nat).
  { pose proof (Forall_lookup_1 _ _ _ _ Hrows Hj) as Hla. simpl in Hla.
    apply lookup_lt_Some in Hi. lia. }
  destruct (Forall2_lookup_l _ _ _ _ _ Hflat
              (pairs_lookup 0 n (length y0) i j Hilt Hjlt))
    as (v & -> & Hv).
  simpl in Hv. rewrite (Hg i j a x Hj Hi) in Hv. congruence.
Qed.

Lemma reshape_transpose_flat (n_lines ny : nat) (yout : list (list T))
    (Ys : list (list (list T))) :
  (0 < ny)%nat →
  Forall (λ Y, length Y = ny ∧ Forall (λ a, length a = n_lines) Y) Ys →
  Forall2 (λ row Y, flat_T_vstack Y = Ok row) yout Ys →
  reshape_transpose (length Ys) n_lines ny yout = Ok Ys.
Proof.
  intros Hny Hshape Hflat.
  assert (Hrow : ∀ t row Y, yout !! t = Some row → Ys !! t = Some Y →
            length row = (n_lines * ny)%nat
            ∧ ∀ i j a x, Y !! j = Some a → a !! i = Some x →
                row !! (i * ny + j)%nat = Some x).
  { intros t row Y Hr HY.
    pose proof (Forall2_lookup_lr _ _ _ _ _ _ Hflat Hr HY) as Hfl.
    destruct (Forall_lookup_1 _ _ _ _ Hshape HY) as [HlY HrY].
    destruct (flat_T_vstack_lookup Y n_lines) as (flat & Hf & Hlen & Hlk);
      [by intros ->; simpl in HlY; lia | done |].
    simpl in Hfl. rewrite Hf in Hfl. injection Hfl as <-.
    rewrite HlY in Hlen, Hlk. done. }
  assert (Hrows : Forall (λ r, length r = (n_lines * ny)%nat) yout).
  { apply Forall_lookup. intros t row Hr.
    destruct (Forall2_lookup_l _ _ _ _ _ Hflat Hr) as (Y & HY & _).
    by destruct (Hrow t row Y Hr HY). }
  destruct (concat_uniform _ _ Hrows) as [Hlen Hlk].
  unfold reshape_transpose.
  rewrite decide_True
    by (rewrite Hlen, (Forall2_length _ _ _ Hflat); lia).
  apply mapM_seq; [done|]. intros t Y HY.
  destruct (Forall2_lookup_r _ _ _ _ _ Hflat HY) as (row & Hr & _).
  destruct (Forall_lookup_1 _ _ _ _ Hshape HY) as [HlY HrY].
  destruct (Hrow t row Y Hr HY) as [_ Hentry].
  apply mapM_seq; [done|]. intros j a Ha.
  apply mapM_seq; [by apply (Forall_lookup_1 _ _ _ _ HrY Ha)|].
  intros i x Hx. unfold index.
  assert (Hilt : (i < n_lines)%nat).
  { pose proof (Forall_lookup_1 _ _ _ _ HrY Ha) as Hla. simpl in Hla.
    apply lookup_lt_Some in Hx. lia. }
  assert (Hjlt : (j < ny)%nat) by (apply lookup_lt_Some in Ha; lia).
  replace ((t * n_lines + i) * ny + j)%nat
    with (t * (n_lines * ny) + (i * ny + j))%nat by lia.
  rewrite (Hlk t _ row Hr) by nia. by rewrite (Hentry i j a x Ha Hx).
Qed.

Section IntegrateFacts.
Context {I : Type}.
Context (super_integrate
           : list T → list T → list T → result (list (list T) * I)).

(** X17.  The layout that [integrate] gives the initial state is the
    one it reads the trajectory in: when each row of the trajectory of
    the base class is laid out like the flattened initial state, that
    is, when it is what [np.array(np.vstack(Y).T.flat)] gives for arrays
    [Y] of [ny] species by [n_lines] bins, [integrate] returns these
    arrays [Y], one per time point, and the diagnostics unchanged. *)
Theorem integrate_layout (self : MOLsys) (tout : list T)
    (y0 : list (list T)) (params flat : list T) (yout : list (list T))
    (diag : I) (Ys : list (list (list T))) :
  0 < ny self → 0 ≤ n_lines self →
  flat_T_vstack y0 = Ok flat →
  super_integrate tout flat params = Ok (yout, diag) →
  length yout = length tout →
  Forall (λ Y, length Y = Z.to_nat (ny self)
               ∧ Forall (λ a, length a = Z.to_nat (n_lines self)) Y) Ys →
  Forall2 (λ row Y, flat_T_vstack Y = Ok row) yout Ys →
  integrate super_integrate self tout y0 params = Ok (Ys, diag).
Proof.
  intros Hny _ Hy0 Hsuper Hlen Hshape Hflat. unfold integrate.
  rewrite Hy0. cbn [mbind result_bind]. rewrite Hsuper.
  cbn [mbind result_bind fst snd].
  rewrite <- Hlen, (Forall2_length _ _ _ Hflat).
  assert (Hpos : (0 < Z.to_nat (ny self))%nat) by lia.
  by rewrite (reshape_transpose_flat _ _ _ _ Hpos Hshape Hflat).
Qed.
End IntegrateFacts.

(** *** [plot_result] *)

Lemma getitem_last (a : list T) :
  a ≠ [] → ∃ x, getitem a (-1) = Ok x.
Proof.
  intros Hne. unfold getitem.
  rewrite decide_False, decide_True by (destruct a; [done | simpl; lia]).
  destruct (lookup_lt_is_Some_2 a (Z.to_nat (Z.of_nat (length a) + -1)))
    as [x Hx].
  { destruct a; [done | simpl; lia]. }
  exists x. by rewrite Hx.
Qed.

Lemma for_each_Ok {A} (body : () → A → result ()) (l : list A) :
  (∀ x, x ∈ l → body () x = Ok ()) → for_each body () l = Ok ().
Proof.
  induction l as [|x l IH]; intros Hall; [done|].
  cbn [for_each]. rewrite (Hall x) by by left. simpl.
  apply IH. intros x' Hx'. apply Hall. by right.
Qed.

Lemma for_each_first_Raise {A} (body : () → A → result ()) (l1 l2 : list A)
    (x : A) (e : exn) :
  (∀ x', x' ∈ l1 → body () x' = Ok ()) → body () x = Raise e →
  for_each body () (l1 ++ x :: l2) = Raise e.
Proof.
  induction l1 as [|x1 l1 IH]; intros Hall Hx; simpl.
  - by rewrite Hx.
  - rewrite (Hall x1) by by left. simpl.
    apply IH; [|done]. intros x' Hx'. apply Hall. by right.
Qed.

Section PlotResultFacts.
Context (zero : T) (div : T → T → T).
Context (axes : result ()).
Context (x_centers : MOLsys → result (list T)).
Context (plot : list T → list T → list T → result ()).
Context (print_info : result ()).

(** X18.  [plot_result] has three colour channels, one for each of the
    first three species.  On a trajectory [yout] that has a frame for
    each time point and a curve for each species in each frame, with axes,
    [x_centers] and [plt.plot] that raise nothing, it draws every curve
    and ends as [print_info] does when the system has at most three
    species or the time grid is empty; for a system of more than three
    species it raises [IndexError], at the assignment [c[3] = ...] of the
    first time point, and does not reach [print_info]. *)
Theorem plot_result_three_channels (self : MOLsys) (tout x_lines : list T)
    (yout : list (list (list T))) :
  axes = Ok () → x_centers self = Ok x_lines →
  (∀ x y c, plot x y c = Ok ()) →
  (length tout ≤ length yout)%nat →
  Forall (λ frame, (Z.to_nat (ny self) ≤ length frame)%nat) yout →
  plot_result zero div axes x_centers plot print_info self tout yout
  = (if decide (tout = [] ∨ ny self ≤ 3) then print_info
     else Raise IndexError)
  ∧ (3 < ny self → ∀ t0 tout',
       tout = t0 :: tout' →
       ∃ t_end, getitem tout (-1) = Ok t_end
                ∧ setitem [zero; zero; zero] 3 (div t0 t_end)
                  = Raise IndexError).
Proof.
  intros Hax Hx Hplot Hlen Hframes. split.
  - unfold plot_result. rewrite Hax, Hx. cbn [mbind result_bind].
    case_decide as Hcase.
    + rewrite for_each_Ok; [done|].
      intros [[i t] j] Hin. cbn [fst snd].
      apply list_elem_of_bind in Hin as ([i' t'] & Hin & Hit).
      apply list_elem_of_bind in Hin as (j' & Hin & Hj).
      apply list_elem_of_singleton in Hin. injection Hin as -> -> ->.
      apply elem_of_lookup_imap in Hit as (i0 & t0 & [= -> ->] & Hi).
      apply elem_of_seq in Hj.
      assert (Hne : tout ≠ []) by (by intros ->).
      destruct Hcase as [?|Hny]; [done|].
      destruct (getitem_last tout Hne) as [t_end ->].
      cbn [mbind result_bind]. unfold setitem.
      rewrite decide_True by (simpl; lia). cbn [mbind result_bind].
      apply lookup_lt_Some in Hi.
      destruct (lookup_lt_is_Some_2 yout i0) as [frame Hf]; [lia|].
      unfold index. rewrite Hf. cbn [mbind result_bind].
      pose proof (Forall_lookup_1 _ _ _ _ Hframes Hf) as Hc. simpl in Hc.
      destruct (lookup_lt_is_Some_2 frame j') as [curve Hcv]; [lia|].
      rewrite Hcv. cbn [mbind result_bind]. apply Hplot.
    + destruct tout as [|t0 tout']; [by destruct Hcase; left|].
      assert (Hny : 3 < ny self) by (destruct (decide (ny self ≤ 3));
        [by destruct Hcase; right | lia]).
      destruct (Z.to_nat (ny self)) as [|[|[|[|m]]]] eqn:Hn; try lia.
      cbn [imap mbind list_bind seq foldr app].
      match goal with
      | |- for_each ?b () (?a1 :: ?a2 :: ?a3 :: ?x :: ?rest) ≫= _ = _ =>
          pose proof (for_each_first_Raise b [a1; a2; a3] rest x IndexError)
            as HR
      end.
      cbn [app] in HR. rewrite HR; [done| |].
      * intros [[i t] j] Hin. cbn [fst snd].
        destruct (getitem_last (t0 :: tout') ltac:(done)) as [t_end ->].
        cbn [mbind result_bind].
        assert (Hj : (j < 3)%nat ∧ i = 0%nat).
        { repeat (apply elem_of_cons in Hin as [[= -> -> ->]|Hin];
                  [split; [lia|done]|]).
          by apply elem_of_nil in Hin. }
        destruct Hj as [Hj ->]. unfold setitem.
        rewrite decide_True by (simpl; lia). cbn [mbind result_bind].
        destruct yout as [|frame yout]; [simpl in Hlen; lia|].
        unfold index. cbn [lookup list_lookup mbind result_bind].
        apply Forall_cons in Hframes as [Hc _]. simpl in Hc.
        destruct (lookup_lt_is_Some_2 frame j) as [curve Hcv]; [lia|].
        rewrite Hcv. cbn [mbind result_bind]. apply Hplot.
      * cbn [fst snd].
        destruct (getitem_last (t0 :: tout') ltac:(done)) as [t_end ->].
        cbn [mbind result_bind]. unfold setitem.
        by rewrite decide_False by (simpl; lia).
  - intros Hny t0 tout' ->.
    destruct (getitem_last (t0 :: tout') ltac:(done)) as [t_end Ht].
    exists t_end. split; [done|]. unfold setitem.
    by rewrite decide_False by (simpl; lia).
Qed.
End PlotResultFacts.
End DiffusionMore.

(** ** The hand-written right-hand side *)

Section KineticsIntroFacts.
Import KineticsIntro.
Context `{CR : CRing R}.
Add Ring Rring3 : Rth.

(** X19.  [rhs] reads the first three entries of [y]: on a shorter [y]
    it raises [IndexError]; otherwise it returns three derivatives, of
    which the first and the third cancel and the first is twice the
    second, so that the amounts NO + NOBr and NO - 2 Br2 are conserved. *)
Theorem rhs_conserved {U} (y : list R) (t : U) (kf kb : R) :
  ((length y < 3)%nat → rhs y t kf kb = Raise IndexError)
  ∧ ((3 ≤ length y)%nat →
     ∃ d0 d1 d2,
       rhs y t kf kb = Ok [d0; d1; d2]
       ∧ radd d0 d2 = rO ∧ d0 = radd d1 d1).
Proof.
  unfold rhs, index. split; intros Hlen.
  - destruct y as [|a [|b [|c y]]]; simpl in *; try done. lia.
  - destruct y as [|a [|b [|c y]]]; simpl in Hlen; try lia.
    cbn [lookup list_lookup mbind result_bind mret result_ret].
    eexists _, _, _. split; [done|].
    cbn [of_int nsub nmul npow ring_Number rpow].
    change (of_Z 2) with (radd rI rI). split; ring.
Qed.

End KineticsIntroFacts.

(** ** The Cython examples: differences and Fibonacci numbers *)

Section CythonTutorialFacts.
Import CythonTutorial.
Context {T : Type}.

Section DiffFacts.
Context (zero : T) (sub : T → T → T).

Lemma for_each_cons {A B} (body : B → A → result B) (b : B) (x : A)
    (l : list A) :
  for_each body b (x :: l) = body b x ≫= λ b', for_each body b' l.
Proof. reflexivity. Qed.

Lemma py_diff_loop (x filled : list T) (m : nat) :
  (length filled + m + 1 = length x)%nat →
  for_each (λ y i, a ← index x (i + 1);
                   b ← index x i;
                   setitem y i (sub a b))
           (filled ++ replicate m zero) (seq (length filled) m)
  = Ok (filled ++ zip_with (λ a b, sub b a)
                           (drop (length filled) x)
                           (drop (S (length filled)) x)).
Proof.
  revert filled. induction m as [|m IH]; intros filled Hlen.
  - simpl. rewrite (drop_ge x (S (length filled))) by lia.
    by rewrite zip_with_nil_r.
  - cbn [seq replicate]. rewrite for_each_cons.
    destruct (lookup_lt_is_Some_2 x (length filled) ltac:(lia)) as [b Hb].
    destruct (lookup_lt_is_Some_2 x (length filled + 1) ltac:(lia))
      as [a Ha].
    assert (Ia : index x (length filled + 1) = Ok a)
      by (unfold index; by rewrite Ha).
    assert (Ib : index x (length filled) = Ok b)
      by (unfold index; by rewrite Hb).
    cbn beta. rewrite Ia. cbn [mbind result_bind]. rewrite Ib.
    cbn [mbind result_bind]. unfold setitem.
    rewrite decide_True by (rewrite length_app; simpl; lia).
    rewrite insert_app_r_alt, Nat.sub_diag by lia.
    cbn [insert list_insert mbind result_bind].
    replace (filled ++ sub a b :: replicate m zero)
      with ((filled ++ [sub a b]) ++ replicate m zero)
      by (by rewrite <- app_assoc).
    replace (S (length filled)) with (length (filled ++ [sub a b]))
      by (rewrite length_app; simpl; lia).
    rewrite IH by (rewrite length_app; simpl; lia).
    rewrite length_app. simpl. rewrite Nat.add_1_r in *.
    rewrite (drop_S x b (length filled) Hb).
    rewrite (drop_S x a (S (length filled)) Ha).
    simpl. by rewrite <- app_assoc.
Qed.

(** X21.  [py_diff] returns the differences of consecutive entries,
    [x[i+1] - x[i]] for each [i] below [len(x) - 1], none for a single
    entry; on an empty array it raises the [ValueError] of
    [np.zeros(-1)]. *)
Theorem py_diff_spec (x : list T) :
  py_diff zero sub x
  = match x with
    | [] => Raise ValueError
    | _ :: xs => Ok (zip_with (λ a b, sub b a) x xs)
    end.
Proof.
  unfold py_diff, np_zeros. destruct x as [|a xs]; [done|].
  rewrite decide_True by (simpl; lia).
  replace (Z.to_nat (Z.of_nat (length (a :: xs)) - 1)) with (length xs)
    by (simpl; lia).
  cbn [mbind result_bind].
  apply (py_diff_loop (a :: xs) [] (length xs)). simpl. lia.
Qed.
End DiffFacts.

Section FibFacts.
Context (zero one : T) (add : T → T → T).

(** X22.  [python_fib] computes the Fibonacci numbers in the arithmetic
    of its floats: it returns [0.0] for every [n <= 0] and [0.0 + 1.0]
    for [n = 1], and its value at [n + 2] is the sum of its values at
    [n + 1] and at [n]. *)
Theorem python_fib_rec :
  (∀ n, n ≤ 0 → python_fib zero one add n = zero)
  ∧ python_fib zero one add 1 = add zero one
  ∧ ∀ n, 0 ≤ n →
      python_fib zero one add (n + 2)
      = add (python_fib zero one add (n + 1)) (python_fib zero one add n).
Proof.
  unfold python_fib. split; [|split].
  - intros n Hn. by replace (Z.to_nat n) with 0%nat by lia.
  - done.
  - intros n Hn.
    replace (Z.to_nat (n + 2)) with (S (S (Z.to_nat n))) by lia.
    by replace (Z.to_nat (n + 1)) with (S (Z.to_nat n)) by lia.
Qed.
End FibFacts.
End CythonTutorialFacts.

(** ** Examples *)

Section SymbolicConstrMoreExamples.
Existing Instance stand_in.

(** A species that Robertson's reactions do not mention. *)
Lemma mk_exprs_symbs_inert_species_witness :
  ∃ ydot symbs k,
    mk_exprs_symbs robertson ["A"; "B"; "C"; "D"] = Some (ydot, symbs, k)
    ∧ ydot !! 3%nat = Some (Integer 0).
Proof.
  eexists _, _, _. split; [vm_compute; reflexivity|].
  eapply (mk_exprs_symbs_inert_species robertson ["A"; "B"; "C"; "D"]
           _ _ _ 3 "D").
  - vm_compute. reflexivity.
  - reflexivity.
  - apply (bool_decide_unpack _). vm_compute. exact I.
Defined.



(** The rate constant of the zeroth-order reaction, which is the only
    symbol of the derivative of [A]. *)
Lemma mk_exprs_symbs_free_symbols_witness :
  (∃ e', Single e' ∈ [Single (Symbol "A" real_nonnegative)]
         ∧ ("k0", no_assumptions) ∈ free_symbols e')
  ∨ (∃ ke, ke ∈ [Symbol "k0" no_assumptions]
           ∧ ("k0", no_assumptions) ∈ free_symbols ke).
Proof.
  eapply (mk_exprs_symbs_free_symbols [zeroth_order] ["A"] _ _ _ _
            ("k0", no_assumptions)).
  - vm_compute. reflexivity.
  - left.
  - apply (bool_decide_unpack _). vm_compute. exact I.
Defined.

(** A reactant that the species list lacks. *)
Lemma mk_exprs_symbs_raises_witness :
  mk_exprs_symbs [Rxn "k" {[ "D" := 2%nat ]} ∅] ["A"] = None.
Proof.
  apply mk_exprs_symbs_raises.
  - apply (bool_decide_unpack _). vm_compute. exact I.
  - right. eexists. split; [left|]. right. left. exists "D".
    split; [by eexists|]. left.
    apply (bool_decide_unpack _). vm_compute. exact I.
Defined.
End SymbolicConstrMoreExamples.

Section IntegrateVodeMoreExamples.
Import OdesysVode VodeExample.

Lemma integrate_vode_rows_witness :
  ∃ yout diag w',
    run [0; 1; 2] [5; 7] = (Ok (yout, diag), w')
    ∧ visited w' !! 1%nat = Some ([0; 0], true)
    ∧ (yout !! 2%nat = Some (@ode_y Z _ euler ([0; 0], true))
       ∨ ∃ x, @ode_y Z _ euler ([0; 0], true) = [x]
              ∧ yout !! 2%nat = Some (replicate (length [5; 7]) x)).
Proof.
  eexists _, _, _. split; [vm_compute; reflexivity|].
  split; [reflexivity|].
  eapply (integrate_vode_rows (sys:=decay) (solver:=euler) 0 [0; 1; 2]
           [5; 7] [] _ _ _ 1 ([0; 0], true));
    [vm_compute; reflexivity | reflexivity].
Defined.

Lemma integrate_vode_stops_at_failure_witness :
  ∃ res w',
    run [9; 10; 11; 12] [5] = (res, w')
    ∧ (length (visited w') ≤ length [9; 10; 11; 12] - 1)%nat
    ∧ ∀ i r, visited w' !! i = Some r →
        @successful Z _ euler r = false → S i = length (visited w').
Proof.
  eexists _, _. split; [vm_compute; reflexivity|].
  eapply (integrate_vode_stops_at_failure (sys:=decay) (solver:=euler) 0
           [9; 10; 11; 12] [5] []).
  vm_compute. reflexivity.
Defined.

Lemma integrate_vode_exceptions_witness :
  ∃ e w',
    run [9; 10; 11; 12] [5] = (Raise e, w')
    ∧ (([9; 10; 11; 12] = [] ∧ e = IndexError ∧ w' = fresh)
       ∨ (∃ r, last (visited w') = Some r
               ∧ @successful Z _ euler r = false
               ∧ e = AssertionError "Integration failed")
       ∨ (∃ r, last (visited w') = Some r
               ∧ @successful Z _ euler r = true
               ∧ e = ValueError
               ∧ length (@ode_y Z _ euler r) ≠ length [5]
               ∧ length (@ode_y Z _ euler r) ≠ 1%nat)
       ∨ (Forall (λ r, @successful Z _ euler r = true) (visited w')
          ∧ ∃ args r t,
              (answered (sys:=decay) args (@integrate Z _ euler r t)).1
              = Raise e)).
Proof.
  eexists _, _. split; [vm_compute; reflexivity|].
  apply (integrate_vode_exceptions (sys:=decay) (solver:=euler) 0
           [9; 10; 11; 12] [5] []).
  vm_compute. reflexivity.
Defined.
End IntegrateVodeMoreExamples.

Section CythonMoreExamples.
Import OdesysCython.

(** The element [y[0]] in the module of the system whose parameter is
    spelled like its state symbol. *)
Lemma setup_emitted_symbols_witness :
  ∃ e0, f homonym !! 0%nat = Some e0
    ∧ ((∃ k s0, y homonym !! k = Some s0 ∧ s0 ∈ free_symbols e0
                ∧ ("y[0]", no_assumptions) = (index_name k, no_assumptions))
       ∨ ((("y[0]", no_assumptions) ∉ y homonym)
          ∧ ("y[0]", no_assumptions) ∈ free_symbols e0)).
Proof.
  pose proof (setup_emitted_symbols homonym 0 _
                ltac:(vm_compute; reflexivity)) as [Hf _].
  apply (Hf 0%nat
            (Mul (Integer (-1))
               (Mul (Symbol "A" no_assumptions)
                  (Symbol "y[0]" no_assumptions)))
            ("y[0]", no_assumptions)).
  - apply (bool_decide_unpack _). vm_compute. exact I.
  - apply (bool_decide_unpack _). vm_compute. exact I.
Defined.

Lemma setup_mod_name_witness :
  ∃ m, setup decay 0 = Ok m
       ∧ ∃ d, mod_name m = "ode_cython_" +:+ d
              ∧ String.length d = 10%nat
              ∧ Forall (λ c, c ∈ String.list_ascii_of_string
                                   "0123456789abcdef")
                       (String.list_ascii_of_string d).
Proof.
  eexists. split; [vm_compute; reflexivity|].
  apply (setup_mod_name decay 0). vm_compute. reflexivity.
Defined.
(** Two right-hand sides and a Jacobian of one row. *)
Lemma setup_IndexError_witness :
  ∃ e, setup {| f := [Integer 0; Integer 0];
                j := [[Integer 0; Integer 0]];
                y := [("A", real_nonnegative); ("B", real_nonnegative)];
                p := [] |} 0 = Raise e
       ∧ e = IndexError.
Proof.
  eexists. split; [vm_compute; reflexivity|].
  eapply (proj2 (setup_IndexError
                   {| f := [Integer 0; Integer 0];
                      j := [[Integer 0; Integer 0]];
                      y := [("A", real_nonnegative);
                            ("B", real_nonnegative)];
                      p := [] |} 0)).
  vm_compute. reflexivity.
Defined.
End CythonMoreExamples.

Section DiffusionMoreExamples.
Import OdesysDiffusion.

(** Three species in three bins. *)
Lemma second_derivatives_spatial_interior_witness :
  ∃ out,
    second_derivatives_spatial (λ l c r, l - 2 * c + r)
      {| ny := 3; n_lines := 3 |} 0 (Z.of_nat <$> seq 0 9) = Ok out
    ∧ length out = 3%nat.
Proof.
  destruct (second_derivatives_spatial_interior (λ l c r, l - 2 * c + r)
              {| ny := 3; n_lines := 3 |} 0 (Z.of_nat <$> seq 0 9))
    as (out & Hout & Hlen & _).
  - simpl. lia.
  - reflexivity.
  - exists out. split; [exact Hout | exact Hlen].
Defined.

(** The system of the notebook, at the bin 7. *)
Lemma second_derivatives_spatial_two_species_witness :
  second_derivatives_spatial (λ l c r, l - 2 * c + r) molsys 7
    (Z.of_nat <$> seq 0 100)
  = Ok [100; 100].
Proof.
  apply (second_derivatives_spatial_two_species (λ l c r, l - 2 * c + r)
           molsys 7 (Z.of_nat <$> seq 0 100) 98 99 0 1 2 3);
    reflexivity.
Defined.

Lemma second_derivatives_spatial_bins_witness :
  central_reference_bin molsys 30 = ny molsys - 2
  ∧ second_derivatives_spatial (λ l c r, l - 2 * c + r) molsys 30
      (Z.of_nat <$> seq 0 100)
    = second_derivatives_spatial (λ l c r, l - 2 * c + r) molsys
        (ny molsys - 2) (Z.of_nat <$> seq 0 100).
Proof.
  apply (second_derivatives_spatial_bins (λ l c r, l - 2 * c + r) molsys
           30 (Z.of_nat <$> seq 0 100)).
  simpl. lia.
Defined.

(** Two species in three bins, and a base class that stays in the
    initial state. *)
Lemma integrate_layout_witness :
  integrate (λ tout y0 params : list Z, Ok (replicate (length tout) y0, tt))
    {| ny := 2; n_lines := 3 |} [0; 1] [[1; 2; 3]; [4; 5; 6]] []
  = Ok ([[[1; 2; 3]; [4; 5; 6]]; [[1; 2; 3]; [4; 5; 6]]], tt).
Proof.
  apply (integrate_layout
           (λ tout y0 params : list Z, Ok (replicate (length tout) y0, tt))
           {| ny := 2; n_lines := 3 |} [0; 1] [[1; 2; 3]; [4; 5; 6]] []
           [1; 4; 2; 5; 3; 6]
           [[1; 4; 2; 5; 3; 6]; [1; 4; 2; 5; 3; 6]] tt
           [[[1; 2; 3]; [4; 5; 6]]; [[1; 2; 3]; [4; 5; 6]]]).
  - simpl. lia.
  - simpl. lia.
  - vm_compute. reflexivity.
  - reflexivity.
  - reflexivity.
  - repeat constructor.
  - repeat constructor.
Defined.

(** Four species and two species, on a backend that draws nothing. *)
Lemma plot_result_three_channels_witness :
  plot_result 0 Z.div (Ok ()) (λ _, Ok [1; 2; 3]) (λ _ _ _, Ok ()) (Ok ())
    {| ny := 4; n_lines := 3 |} [1; 2]
    [[[1; 1; 1]; [2; 2; 2]; [3; 3; 3]; [4; 4; 4]];
     [[1; 1; 1]; [2; 2; 2]; [3; 3; 3]; [4; 4; 4]]]
  = Raise IndexError
  ∧ plot_result 0 Z.div (Ok ()) (λ _, Ok [1; 2; 3]) (λ _ _ _, Ok ()) (Ok ())
      {| ny := 2; n_lines := 3 |} [1; 2]
      [[[1; 1; 1]; [2; 2; 2]]; [[1; 1; 1]; [2; 2; 2]]]
    = Ok ().
Proof.
  split.
  - refine (proj1 (plot_result_three_channels 0 Z.div (Ok ())
                     (λ _, Ok [1; 2; 3]) (λ _ _ _, Ok ()) (Ok ())
                     {| ny := 4; n_lines := 3 |} [1; 2] [1; 2; 3]
                     [[[1; 1; 1]; [2; 2; 2]; [3; 3; 3]; [4; 4; 4]];
                      [[1; 1; 1]; [2; 2; 2]; [3; 3; 3]; [4; 4; 4]]]
                     eq_refl eq_refl (λ _ _ _, eq_refl) _ _)).
    + simpl. lia.
    + repeat constructor.
  - refine (proj1 (plot_result_three_channels 0 Z.div (Ok ())
                     (λ _, Ok [1; 2; 3]) (λ _ _ _, Ok ()) (Ok ())
                     {| ny := 2; n_lines := 3 |} [1; 2] [1; 2; 3]
                     [[[1; 1; 1]; [2; 2; 2]]; [[1; 1; 1]; [2; 2; 2]]]
                     eq_refl eq_refl (λ _ _ _, eq_refl) _ _)).
    + simpl. lia.
    + repeat constructor.
Defined.

Lemma stencil_in_bounds_iff_witness :
  (∀ i j, 0 ≤ i < 3 → 0 ≤ j < 3 →
          Forall (in_bounds {| ny := 3; n_lines := 3 |})
                 (stencil {| ny := 3; n_lines := 3 |} i j))
  ↔ 3 ≤ 3 ≤ 3.
Proof.
  apply (stencil_in_bounds_iff {| ny := 3; n_lines := 3 |}); simpl; lia.
Defined.
End DiffusionMoreExamples.

Section TutorialExamples.
Import KineticsIntro CythonTutorial.

Lemma rhs_conserved_witness :
  ∃ d0 d1 d2,
    rhs (V:=Z) [1; 2; 3] () 5 7 = Ok [d0; d1; d2]
    ∧ radd d0 d2 = rO ∧ d0 = radd d1 d1.
Proof.
  apply (proj2 (rhs_conserved (R:=Z) [1; 2; 3] () 5 7)). simpl. lia.
Defined.

Lemma python_fib_rec_witness :
  python_fib 0 1 Z.add (5 + 2)
  = Z.add (python_fib 0 1 Z.add (5 + 1)) (python_fib 0 1 Z.add 5).
Proof.
  apply (proj2 (proj2 (python_fib_rec 0 1 Z.add))). lia.
Defined.
End TutorialExamples.
